(** * pkglink: scanning, grouping and reference-store persistence

    A shallow embedding of [src/find-packages.js] and of the run-time part
    of [src/cli.js], with the properties of the specification stated over it.

    Conventions of the embedding.
    - JavaScript strings are [string]; numbers that hold integers are [Z],
      and where the code adds to one, the rounding of the sum to a double
      is written out ([js_succ]).
    - [Path] is Node's module on a POSIX host: [/] is the only separator of
      [Path.basename] and [Path.dirname].
    - An RxJS operator chain is a state machine: a state record and a step
      function that takes one notification or event and returns the new
      state with what is sent downstream and the effects performed.
    - A JavaScript object that is compared by identity lives in a heap, and
      the variables hold addresses.
    - [util/format], [index.js] and [run-env-defaults] are not part of the
      sources at hand: their functions are parameters, their actions on the
      shared environment are events.

    The file has two parts: the definitions, then the properties. *)

From Stdlib Require Import ZArith Lia Bool Ascii String List.
From Stdlib Require Import Sorting.Sorted Numbers.DecimalString Numbers.DecimalZ.
From stdpp Require Import base option list strings gmap.
Import ListNotations.

Local Open Scope string_scope.
Local Open Scope list_scope.
Local Open Scope Z_scope.

(** ** Node's [path] module (POSIX flavour) *)

Module Path.

(** [charCodeAt(i) === 47] *)
Definition is_slash (c : ascii) : bool := Ascii.eqb c "/"%char.

(** The loop of [basename] runs from the last character to the first:
    trailing slashes are skipped while [matchedSlash] holds, then
    characters are collected until the next slash.  [acc] is
    [path.slice(start, end)] under construction. *)
Fixpoint basename_scan (rev_chars : list ascii) (matchedSlash : bool)
    (acc : list ascii) : list ascii :=
  match rev_chars with
  | [] => acc
  | c :: rest =>
      if is_slash c
      then (if matchedSlash then basename_scan rest true acc else acc)
      else basename_scan rest false (c :: acc)
  end.

Definition basename (path : string) : string :=
  string_of_list_ascii
    (basename_scan (rev (list_ascii_of_string path)) true []).

(** The loop of [dirname] runs from the last character down to index 1;
    it stops at the first slash that follows a non-slash and returns what
    is left of the path, reversed: [path.slice(0, end)]. *)
Fixpoint dirname_scan (rev_chars : list ascii) (matchedSlash : bool)
    : option (list ascii) :=
  match rev_chars with
  | [] => None
  | c :: rest =>
      match rest with
      | [] => None (* index 0 is not visited *)
      | _ :: _ =>
          if is_slash c
          then (if matchedSlash then dirname_scan rest true else Some rest)
          else dirname_scan rest false
      end
  end.

Definition dirname (path : string) : string :=
  match list_ascii_of_string path with
  | [] => "."
  | (c0 :: _) as chars =>
      let hasRoot := is_slash c0 in
      match dirname_scan (rev chars) true with
      | None => if hasRoot then "/" else "."
      | Some rev_prefix =>
          if hasRoot && Nat.eqb (List.length rev_prefix) 1
          then "//"
          else string_of_list_ascii (rev rev_prefix)
      end
  end.

End Path.

(** ** Entries of the directory walk (readdirp's entry info) *)

Record Stat := { dev : Z; ino : Z; size : Z }.

Record EntryInfo := {
  name : string;          (* name of the file or directory *)
  fullPath : string;      (* absolute path of the entry *)
  fullParentDir : string; (* absolute path of the directory holding it *)
  stat : Stat
}.

(** ** [find-packages.js]: the two path filters *)

Definition is_sep (c : ascii) : bool :=
  Ascii.eqb c "\"%char || Ascii.eqb c "/"%char.

(** [/[\\\/]node_modules$/.test(s)]: some position holds a separator and
    the rest of the input, up to its end, is [node_modules]. *)
Fixpoint ENDS_NODE_MOD_RE_test (s : string) : bool :=
  match s with
  | EmptyString => false
  | String c rest =>
      (is_sep c && String.eqb rest "node_modules")
      || ENDS_NODE_MOD_RE_test rest
  end.

(** [s.charAt(0)] *)
Definition charAt0 (s : string) : string :=
  match s with
  | EmptyString => ""
  | String c _ => String c ""
  end.

(** [s.indexOf(t) !== -1] *)
Definition includes (t s : string) : bool :=
  match String.index 0 t s with
  | Some _ => true
  | None => false
  end.

Definition filterDirsNodeModPacks (ei : EntryInfo) : bool :=
  let eiName := name ei in
  if String.eqb (charAt0 eiName) "." then false (* no dot dirs *)
  else if String.eqb eiName "node_modules" then true (* node_modules *)
  else
    let eiFullParentDir := fullParentDir ei in
    if includes "node_modules" eiFullParentDir (* under node_modules *)
    then String.eqb (Path.basename eiFullParentDir) "node_modules"
    else true. (* not in node_modules yet, so keep walking *)

(** The filter on the files of the walk: only parents ending in
    node_modules. *)
Definition keepCandidate (ei : EntryInfo) : bool :=
  ENDS_NODE_MOD_RE_test (Path.dirname (fullParentDir ei)).

Definition mkDir (nm parent : string) : EntryInfo :=
  {| name := nm; fullPath := parent +:+ "/" +:+ nm; fullParentDir := parent;
     stat := {| dev := 0; ino := 0; size := 0 |} |}.

(** ** JSON values, as [JSON.parse] returns them

    Numbers are integers here: all the code asks of a number is whether it
    is zero. *)

#[warnings="-register-all"] Inductive json :=
| JNull
| JBool (b : bool)
| JNum (n : Z)
| JStr (s : string)
| JArr (items : list json)
| JObj (fields : list (string * json)).

(** [Boolean(v)].  A number is falsy when it is zero, a string when it is
    empty; arrays and objects are truthy. *)
Definition truthy (v : json) : bool :=
  match v with
  | JNull => false
  | JBool b => b
  | JNum n => negb (n =? 0)
  | JStr s => negb (String.eqb s "")
  | JArr _ => true
  | JObj _ => true
  end.

(** [obj[k]] on the fields in source order: a later duplicate wins. *)
Fixpoint get_field (k : string) (fields : list (string * json)) : option json :=
  match fields with
  | [] => None
  | (k', v) :: rest =>
      match get_field k rest with
      | Some w => Some w
      | None => if String.eqb k' k then Some v else None
      end
  end.

(** [v.k]: [None] is [undefined].  Only objects carry a [name] or a
    [version]; numbers, strings, booleans and arrays have neither. *)
Definition prop (k : string) (v : json) : option json :=
  match v with
  | JObj fields => get_field k fields
  | _ => None
  end.

Definition truthy_opt (v : option json) : bool :=
  match v with
  | Some w => truthy w
  | None => false
  end.

(** What [fs.readJsonAsync(path, { throws: false })] settles with: the
    promise resolves with the parsed value, or with [null] when the text
    does not parse ([throws: false]), or it is rejected. *)
Inductive ReadResult :=
| Resolved (pack : json)
| Rejected.

(** ** The run-time environment shared by the stages *)

Definition addr := nat.

Record RtEnv := {
  existingShares : addr;  (* the store object, by identity *)
  cancelled : bool;
  packageCount : Z;
  savedByteCount : Z
}.

Definition set_cancelled (b : bool) (rt : RtEnv) : RtEnv :=
  {| existingShares := existingShares rt; cancelled := b;
     packageCount := packageCount rt; savedByteCount := savedByteCount rt |}.

Definition set_packageCount (n : Z) (rt : RtEnv) : RtEnv :=
  {| existingShares := existingShares rt; cancelled := cancelled rt;
     packageCount := n; savedByteCount := savedByteCount rt |}.

Definition set_existingShares (a : addr) (rt : RtEnv) : RtEnv :=
  {| existingShares := a; cancelled := cancelled rt;
     packageCount := packageCount rt; savedByteCount := savedByteCount rt |}.

Definition set_savedByteCount (n : Z) (rt : RtEnv) : RtEnv :=
  {| existingShares := existingShares rt; cancelled := cancelled rt;
     packageCount := packageCount rt; savedByteCount := n |}.

(** [n + 1] on a JavaScript number [n] that holds an integer.  A number is
    an IEEE 754 double.  From -2^53 to 2^53 every integer is a double, so
    the sum is exact as long as [n] lies in [-2^53, 2^53 - 1].  Outside, the
    doubles are even (multiples of 4 from 2^54 on), [n + 1] is not one of
    them and is rounded to the nearest, the tie between [n] and [n + 2]
    going to the one whose significand is even, which is the multiple
    of 4: a counter that has reached 2^53 stays there. *)
Definition two53 : Z := 9007199254740992.

Definition js_succ (n : Z) : Z :=
  if (- two53 <=? n) && (n <? two53) then n + 1
  else if n mod 4 =? 2 then n + 2
  else n.

(** ** [find-packages.js]: key extraction and grouping *)

(** The object built by the result selector: [{ entryInfo, devNameVer }],
    [devNameVer] being a string or [null]. *)
Record EiDN := {
  entryInfo : EntryInfo;
  devNameVer : option string
}.

(** A key of [groupBy]: the value of [devNameVer]. *)
Definition Key := option string.

(** [Boolean(obj.devNameVer)] *)
Definition truthy_key (k : Key) : bool :=
  match k with
  | Some s => negb (String.eqb s "")
  | None => false
  end.

Definition Group : Type := Key * list EntryInfo.

(** [groupBy] keeps a [Map] from key to group, in insertion order; every
    group is reduced with [acc.push(eiDN.entryInfo)] from its own [[]]. *)
Fixpoint group_push (k : Key) (e : EntryInfo) (gs : list Group) : list Group :=
  match gs with
  | [] => [(k, [e])]
  | (k', arr) :: rest =>
      if decide (k' = k)
      then (k', arr ++ [e]) :: rest
      else (k', arr) :: group_push k e rest
  end.

Inductive Notif (A : Type) :=
| Next (a : A)
| Error
| Complete.
Arguments Next {A} a.
Arguments Error {A}.
Arguments Complete {A}.

(** [groupBy(...).mergeMap(group => group.reduce(...).map(...))] as a
    machine: the accumulated groups, and whether the operator has
    terminated. *)
Record Grouper := {
  groups : list Group;
  stopped : bool
}.

Definition grouper_init : Grouper := {| groups := []; stopped := false |}.

Definition grouper_step (g : Grouper) (n : Notif EiDN)
    : Grouper * list (Notif Group) :=
  if stopped g then (g, [])
  else
    match n with
    | Next eiDN =>
        ({| groups := group_push (devNameVer eiDN) (entryInfo eiDN) (groups g);
            stopped := false |}, [])
    | Complete =>
        ({| groups := groups g; stopped := true |},
         map Next (groups g) ++ [Complete])
    | Error =>
        ({| groups := groups g; stopped := true |}, [Error])
    end.

(** The notifications sent downstream, one list per input notification. *)
Fixpoint grouper_run (g : Grouper) (input : list (Notif EiDN))
    : list (list (Notif Group)) :=
  match input with
  | [] => []
  | n :: rest =>
      let '(g', out) := grouper_step g n in
      out :: grouper_run g' rest
  end.

Section Extraction.

(** [formatDevNameVersion] of [util/format] is not part of the sources at
    hand; the pipeline is generic in it. *)
Variable formatDevNameVersion : Z -> json -> json -> string.

(** The result selector of the manifest read. *)
Definition selectResult (ei : EntryInfo) (pack : json) : EiDN :=
  {| entryInfo := ei;
     devNameVer :=
       if truthy pack
       then
         match prop "name" pack, prop "version" pack with
         | Some n, Some v =>
             if truthy n && truthy v
             then Some (formatDevNameVersion (dev (stat ei)) n v)
             else None
         | _, _ => None
         end
       else None |}.

(** State of the stages below the manifest read: the environment, the
    scan log and the grouper. *)
Record Keyed := {
  k_rtenv : RtEnv;
  k_log : list (Z * EiDN);  (* calls of [logScan] *)
  k_grouper : Grouper
}.

(** One resolved manifest through
    [.filter(obj => obj.devNameVer).do(count).do(logScan).groupBy(...)]. *)
Definition onPack (st : Keyed) (ei : EntryInfo) (pack : json) : Keyed :=
  let obj := selectResult ei pack in
  if truthy_key (devNameVer obj)
  then
    (* rtenv.packageCount += 1 *)
    let rt := set_packageCount (js_succ (packageCount (k_rtenv st)))
                (k_rtenv st) in
    {| k_rtenv := rt;
       k_log := k_log st ++ [(packageCount rt, obj)];
       k_grouper := fst (grouper_step (k_grouper st) (Next obj)) |}
  else st.

Definition keyed_init (rt : RtEnv) : Keyed :=
  {| k_rtenv := rt; k_log := []; k_grouper := grouper_init |}.

(** The manifests resolved during a scan, in the order they arrive. *)
Definition onPacks (st : Keyed) (arrivals : list (EntryInfo * json)) : Keyed :=
  fold_left (fun s a => onPack s (fst a) (snd a)) arrivals st.

(** The groups sent downstream when the stream of manifests completes. *)
Definition groupedOutput (rt : RtEnv) (arrivals : list (EntryInfo * json))
    : list Group :=
  groups (k_grouper (onPacks (keyed_init rt) arrivals)).

End Extraction.

(** ** [find-packages.js]: the whole pipeline as an event-driven machine

    The environment delivers the events of the per-root readdirp streams,
    the settlements of the manifest reads and the cancellation signal; the
    machine answers with the effects it performs and with what
    [findPackagesGrouped] sends to its subscriber. *)

Record Config := {
  concurrentOps : nat;
  treeDepth : Z
}.

Inductive Event :=
| FsData (fstream : nat) (ei : EntryInfo)  (* 'data' *)
| FsClose (fstream : nat)                  (* 'close' *)
| FsEnd (fstream : nat)                    (* 'end' *)
| ReadSettled (read : nat) (r : ReadResult)
| Cancel.  (* [rtenv.cancelled = true; rtenv.cancelled$.next(true)] *)

Inductive Output :=
| DoReaddirp (fstream : nat) (root : string) (depth : option Z)
| DoDestroy (fstream : nat)
| DoReadJson (read : nat) (path : string)
| Emit (g : Group)
| Done
| Failed.

Inductive Status := Running | Completed | Errored.

Section Pipeline.

Variable formatDevNameVersion : Z -> json -> json -> string.
Variable config : Config.

Record Scan := {
  keyed : Keyed;
  replayed : nat;              (* values held by the ReplaySubject cancelled$ *)
  destroyers : list nat;       (* streams whose destroy is subscribed to it *)
  rootBuffer : list string;    (* roots waiting in the first mergeMap *)
  activeRoots : list nat;      (* streams the first mergeMap listens to *)
  nextStream : nat;
  walkDone : bool;             (* the first mergeMap has completed *)
  readBuffer : list EntryInfo; (* candidates waiting in the second mergeMap *)
  activeReads : list (nat * EntryInfo);
  nextRead : nat;
  status : Status
}.

Definition with_keyed (k : Keyed) (s : Scan) : Scan :=
  {| keyed := k; replayed := replayed s; destroyers := destroyers s;
     rootBuffer := rootBuffer s; activeRoots := activeRoots s;
     nextStream := nextStream s; walkDone := walkDone s;
     readBuffer := readBuffer s; activeReads := activeReads s;
     nextRead := nextRead s; status := status s |}.

Definition with_status (x : Status) (s : Scan) : Scan :=
  {| keyed := keyed s; replayed := replayed s; destroyers := destroyers s;
     rootBuffer := rootBuffer s; activeRoots := activeRoots s;
     nextStream := nextStream s; walkDone := walkDone s;
     readBuffer := readBuffer s; activeReads := activeReads s;
     nextRead := nextRead s; status := x |}.

(** The groups are flushed and the subscriber is completed. *)
Definition finish (s : Scan) : Scan * list Output :=
  let '(g, out) := grouper_step (k_grouper (keyed s)) Complete in
  (with_status Completed
     (with_keyed {| k_rtenv := k_rtenv (keyed s); k_log := k_log (keyed s);
                    k_grouper := g |} s),
   flat_map (fun n => match n with
                      | Next grp => [Emit grp]
                      | Complete => [Done]
                      | Error => [Failed]
                      end) out).

(** [_complete] of the second mergeMap. *)
Definition walk_completed (s : Scan) : Scan * list Output :=
  let s' :=
    {| keyed := keyed s; replayed := replayed s; destroyers := destroyers s;
       rootBuffer := rootBuffer s; activeRoots := activeRoots s;
       nextStream := nextStream s; walkDone := true;
       readBuffer := readBuffer s; activeReads := activeReads s;
       nextRead := nextRead s; status := status s |} in
  match activeReads s, readBuffer s with
  | [], [] => finish s'
  | _, _ => (s', [])
  end.

(** The project function of the first mergeMap, and the subscription to
    the stream it returns.  A ReplaySubject replays what it holds to a new
    subscriber at once. *)
Definition start_root (root : string) (s : Scan) : Scan * list Output :=
  let id := nextStream s in
  let depth := if treeDepth config =? 0 then None else Some (treeDepth config) in
  ({| keyed := keyed s; replayed := replayed s;
      destroyers := destroyers s ++ [id];
      rootBuffer := rootBuffer s; activeRoots := activeRoots s ++ [id];
      nextStream := S id; walkDone := walkDone s;
      readBuffer := readBuffer s; activeReads := activeReads s;
      nextRead := nextRead s; status := status s |},
   DoReaddirp id root depth :: repeat (DoDestroy id) (replayed s)).

(** [_next] of the first mergeMap. *)
Definition offer_root (root : string) (s : Scan) : Scan * list Output :=
  if Nat.ltb (List.length (activeRoots s)) (concurrentOps config)
  then start_root root s
  else
    ({| keyed := keyed s; replayed := replayed s; destroyers := destroyers s;
        rootBuffer := rootBuffer s ++ [root]; activeRoots := activeRoots s;
        nextStream := nextStream s; walkDone := walkDone s;
        readBuffer := readBuffer s; activeReads := activeReads s;
        nextRead := nextRead s; status := status s |}, []).

Fixpoint offer_roots (roots : list string) (s : Scan) : Scan * list Output :=
  match roots with
  | [] => (s, [])
  | r :: rest =>
      let '(s1, o1) := offer_root r s in
      let '(s2, o2) := offer_roots rest s1 in
      (s2, o1 ++ o2)
  end.

(** Nothing started yet; [already_cancelled] counts the values that
    [cancelled$] holds when the pipeline is subscribed to. *)
Definition scan_init (rt : RtEnv) (already_cancelled : nat) : Scan :=
  {| keyed := keyed_init rt; replayed := already_cancelled;
     destroyers := []; rootBuffer := []; activeRoots := []; nextStream := 0;
     walkDone := false; readBuffer := []; activeReads := [];
     nextRead := 0; status := Running |}.

(** Subscribing to [findPackagesGrouped(config, rtenv, rootDirs)]:
    [Observable.from(rootDirs)] sends every root and completes. *)
Definition findPackagesGrouped (rt : RtEnv) (already_cancelled : nat)
    (rootDirs : list string) : Scan * list Output :=
  let '(s1, o1) := offer_roots rootDirs (scan_init rt already_cancelled) in
  match activeRoots s1, rootBuffer s1 with
  | [], [] =>
      let '(s2, o2) := walk_completed s1 in (s2, o1 ++ o2)
  | _, _ => (s1, o1)
  end.

Definition remove_nat (x : nat) (l : list nat) : list nat :=
  filter (fun y => y ≠ x) l.

Definition is_active_root (x : nat) (s : Scan) : bool :=
  bool_decide (x ∈ activeRoots s).

(** [notifyComplete] of the first mergeMap for the stream [x]. *)
Definition root_completed (x : nat) (s : Scan) : Scan * list Output :=
  let s1 :=
    {| keyed := keyed s; replayed := replayed s; destroyers := destroyers s;
       rootBuffer := rootBuffer s; activeRoots := remove_nat x (activeRoots s);
       nextStream := nextStream s; walkDone := walkDone s;
       readBuffer := readBuffer s; activeReads := activeReads s;
       nextRead := nextRead s; status := status s |} in
  match rootBuffer s1 with
  | r :: rest =>
      offer_root r
        {| keyed := keyed s1; replayed := replayed s1;
           destroyers := destroyers s1; rootBuffer := rest;
           activeRoots := activeRoots s1; nextStream := nextStream s1;
           walkDone := walkDone s1; readBuffer := readBuffer s1;
           activeReads := activeReads s1; nextRead := nextRead s1;
           status := status s1 |}
  | [] =>
      match activeRoots s1 with
      | [] => walk_completed s1
      | _ :: _ => (s1, [])
      end
  end.

Definition start_read (ei : EntryInfo) (s : Scan) : Scan * list Output :=
  let id := nextRead s in
  ({| keyed := keyed s; replayed := replayed s; destroyers := destroyers s;
      rootBuffer := rootBuffer s; activeRoots := activeRoots s;
      nextStream := nextStream s; walkDone := walkDone s;
      readBuffer := readBuffer s; activeReads := activeReads s ++ [(id, ei)];
      nextRead := S id; status := status s |},
   [DoReadJson id (fullPath ei)]).

(** [_next] of the second mergeMap. *)
Definition offer_read (ei : EntryInfo) (s : Scan) : Scan * list Output :=
  if Nat.ltb (List.length (activeReads s)) (concurrentOps config)
  then start_read ei s
  else
    ({| keyed := keyed s; replayed := replayed s; destroyers := destroyers s;
        rootBuffer := rootBuffer s; activeRoots := activeRoots s;
        nextStream := nextStream s; walkDone := walkDone s;
        readBuffer := readBuffer s ++ [ei]; activeReads := activeReads s;
        nextRead := nextRead s; status := status s |}, []).

Fixpoint find_read (id : nat) (l : list (nat * EntryInfo)) : option EntryInfo :=
  match l with
  | [] => None
  | (i, ei) :: rest => if Nat.eqb i id then Some ei else find_read id rest
  end.

Definition remove_read (id : nat) (l : list (nat * EntryInfo))
    : list (nat * EntryInfo) :=
  filter (fun p => fst p ≠ id) l.

(** [notifyComplete] of the second mergeMap for the read [id]. *)
Definition read_completed (id : nat) (s : Scan) : Scan * list Output :=
  let s1 :=
    {| keyed := keyed s; replayed := replayed s; destroyers := destroyers s;
       rootBuffer := rootBuffer s; activeRoots := activeRoots s;
       nextStream := nextStream s; walkDone := walkDone s;
       readBuffer := readBuffer s;
       activeReads := remove_read id (activeReads s);
       nextRead := nextRead s; status := status s |} in
  match readBuffer s1 with
  | ei :: rest =>
      offer_read ei
        {| keyed := keyed s1; replayed := replayed s1;
           destroyers := destroyers s1; rootBuffer := rootBuffer s1;
           activeRoots := activeRoots s1; nextStream := nextStream s1;
           walkDone := walkDone s1; readBuffer := rest;
           activeReads := activeReads s1; nextRead := nextRead s1;
           status := status s1 |}
  | [] =>
      match activeReads s1 with
      | [] => if walkDone s1 then finish s1 else (s1, [])
      | _ :: _ => (s1, [])
      end
  end.

Definition scan_step (s : Scan) (e : Event) : Scan * list Output :=
  match e with
  | Cancel =>
      ({| keyed :=
            {| k_rtenv := set_cancelled true (k_rtenv (keyed s));
               k_log := k_log (keyed s);
               k_grouper := k_grouper (keyed s) |};
          replayed := S (replayed s); destroyers := destroyers s;
          rootBuffer := rootBuffer s; activeRoots := activeRoots s;
          nextStream := nextStream s; walkDone := walkDone s;
          readBuffer := readBuffer s; activeReads := activeReads s;
          nextRead := nextRead s; status := status s |},
       map DoDestroy (destroyers s))
  | _ =>
      match status s with
      | Running =>
          match e with
          | FsData x ei =>
              if is_active_root x s
              then
                (* takeWhile(() => !rtenv.cancelled) *)
                if cancelled (k_rtenv (keyed s))
                then root_completed x s
                else if keepCandidate ei then offer_read ei s else (s, [])
              else (s, [])
          | FsClose x | FsEnd x =>
              if is_active_root x s then root_completed x s else (s, [])
          | ReadSettled id r =>
              match find_read id (activeReads s) with
              | None => (s, [])
              | Some ei =>
                  match r with
                  | Resolved pack =>
                      read_completed id
                        (with_keyed
                           (onPack formatDevNameVersion (keyed s) ei pack) s)
                  | Rejected =>
                      (* the error reaches the subscriber, which is then
                         unsubscribed from everything upstream *)
                      ({| keyed := keyed s; replayed := replayed s;
                          destroyers := destroyers s; rootBuffer := [];
                          activeRoots := []; nextStream := nextStream s;
                          walkDone := walkDone s; readBuffer := [];
                          activeReads := []; nextRead := nextRead s;
                          status := Errored |}, [Failed])
                  end
              end
          | Cancel => (s, [])
          end
      | _ => (s, [])
      end
  end.

Fixpoint scan_run (s : Scan) (es : list Event) : Scan * list Output :=
  match es with
  | [] => (s, [])
  | e :: rest =>
      let '(s1, o1) := scan_step s e in
      let '(s2, o2) := scan_run s1 rest in
      (s2, o1 ++ o2)
  end.

End Pipeline.

(** ** [cli.js]: the reference store and the end of a run *)

(** A record of the store: [[modPath, packJsonInode, packJsonMTimeEpoch]]. *)
Definition Ref : Type := string * Z * Z.

(** The store object: its properties in order, key to array of records. *)
Definition Store : Type := list (string * list Ref).

(** What a file holds: JSON text of a store, or anything else (an empty
    file, text that does not parse). *)
Inductive Content :=
| Json (s : Store)
| Other.

Record Argv := {
  dryrun : bool;
  gen_ln_cmds : bool;
  prune : bool;
  dirs : list string  (* argv._ *)
}.

Inductive Msg :=
| MsgBlank
| MsgWouldSave (bytes : Z)
| MsgUpdated (path : string)
| MsgSaved (bytes : Z).

Inductive Eff :=
| EnsureFile (path : string)
| WriteJson (path : string) (content : Store)
| Out (m : Msg)
| ConsoleError (what : string)
| LogComplete      (* singleLineLog$.complete() *)
| ShowCursor
| HideCursor
| CancelledNext.   (* rtenv.cancelled$.next(true) *)

(** What the process reacts to.  [index.js] is not part of the sources at
    hand: whatever [prune] and [scanAndLink] do to the heap and to [rtenv]
    arrives as an event of the environment. *)
Inductive CliEvent :=
| SIGINT
| SIGTERM
| EXIT           (* the event named 'EXIT' of [process.once('EXIT', finalTasks)] *)
| TasksComplete  (* [complete] of the subscriber of the tasks *)
| TasksError     (* its [error] *)
| PruneNext (newShares : addr) (* .do(newShares => { rtenv.existingShares = newShares; }) *)
| EnvAlloc (content : Store)             (* a new object is built *)
| EnvStore (a : addr) (content : Store)  (* an object is changed in place *)
| EnvSetShares (a : addr)                (* rtenv.existingShares = ... *)
| EnvSaved (n : Z).                      (* rtenv.savedByteCount = ... *)

Record Cli := {
  c_rtenv : RtEnv;
  c_heap : gmap addr Store;
  c_next : addr;                  (* next free address *)
  c_fs : gmap string Content;
  origExistingShares : addr;      (* keep ref copy *)
  cancel_called : bool;           (* the flag of R.once(cancel) *)
  finalTasks_called : bool;       (* the flag of R.once(finalTasks) *)
  on_SIGINT : bool;               (* listeners of process.once still in place *)
  on_SIGTERM : bool;
  on_EXIT : bool;
  subscribed : bool               (* the subscription to the tasks is live *)
}.

Definition with_rtenv (rt : RtEnv) (c : Cli) : Cli :=
  {| c_rtenv := rt; c_heap := c_heap c; c_next := c_next c; c_fs := c_fs c;
     origExistingShares := origExistingShares c;
     cancel_called := cancel_called c;
     finalTasks_called := finalTasks_called c;
     on_SIGINT := on_SIGINT c; on_SIGTERM := on_SIGTERM c;
     on_EXIT := on_EXIT c; subscribed := subscribed c |}.

Definition with_heap (h : gmap addr Store) (n : addr) (c : Cli) : Cli :=
  {| c_rtenv := c_rtenv c; c_heap := h; c_next := n; c_fs := c_fs c;
     origExistingShares := origExistingShares c;
     cancel_called := cancel_called c;
     finalTasks_called := finalTasks_called c;
     on_SIGINT := on_SIGINT c; on_SIGTERM := on_SIGTERM c;
     on_EXIT := on_EXIT c; subscribed := subscribed c |}.

Definition with_fs (fs : gmap string Content) (c : Cli) : Cli :=
  {| c_rtenv := c_rtenv c; c_heap := c_heap c; c_next := c_next c; c_fs := fs;
     origExistingShares := origExistingShares c;
     cancel_called := cancel_called c;
     finalTasks_called := finalTasks_called c;
     on_SIGINT := on_SIGINT c; on_SIGTERM := on_SIGTERM c;
     on_EXIT := on_EXIT c; subscribed := subscribed c |}.

Definition with_flags (ca fi si st ex su : bool) (c : Cli) : Cli :=
  {| c_rtenv := c_rtenv c; c_heap := c_heap c; c_next := c_next c;
     c_fs := c_fs c; origExistingShares := origExistingShares c;
     cancel_called := ca; finalTasks_called := fi;
     on_SIGINT := si; on_SIGTERM := st; on_EXIT := ex; subscribed := su |}.

(** The content of the object [rtenv.existingShares] points to. *)
Definition shares_content (c : Cli) : Store :=
  default [] (c_heap c !! existingShares (c_rtenv c)).

(** [fs.ensureFileSync(path)]: an absent file is created empty. *)
Definition ensureFileSync (path : string) (fs : gmap string Content)
    : gmap string Content :=
  match fs !! path with
  | Some _ => fs
  | None => <[path := Other]> fs
  end.

(** [fs.readJsonSync(path, { throws: false }) || {}] *)
Definition readStore (path : string) (fs : gmap string Content) : Store :=
  match fs !! path with
  | Some (Json s) => s
  | _ => []
  end.

Section CliRun.

(** [sortObjKeys] of [util/format] is not part of the sources at hand. *)
Variable sortObjKeys : Store -> Store.
(** The defaults of [run-env-defaults], not part of the sources at hand
    either: [rtenv] starts as a copy of them. *)
Variable defaultRTEnv : RtEnv.
Variable argv : Argv.
Variable isTTY : bool.
Variable REFS_PATH : string.

Definition isTermOut : bool := isTTY && negb (gen_ln_cmds argv).

(** Lines 123 to 215 up to the first event: the store is loaded, the
    handlers are registered and the tasks are subscribed to. *)
Definition startup (fs : gmap string Content) : Cli * list Eff :=
  let fs1 := ensureFileSync REFS_PATH fs in
  ({| c_rtenv := set_existingShares 0%nat defaultRTEnv;
      c_heap := {[ 0%nat := readStore REFS_PATH fs1 ]};
      c_next := 1%nat;
      c_fs := fs1;
      origExistingShares := 0%nat;
      cancel_called := false; finalTasks_called := false;
      on_SIGINT := true; on_SIGTERM := true; on_EXIT := true;
      subscribed := prune argv || negb (Nat.eqb (List.length (dirs argv)) 0) |},
   [EnsureFile REFS_PATH]
     ++ (if isTermOut then [HideCursor] else [])
     ++ [Out MsgBlank]).

(** The function given to [R.once] for [cancel]. *)
Definition cancel_body (c : Cli) : Cli * list Eff :=
  (with_rtenv (set_cancelled true (c_rtenv c)) c,
   [CancelledNext; ConsoleError "cancelling and saving state..."]
     ++ (if isTermOut then [ShowCursor] else [])).

(** The function given to [R.once] for [finalTasks]. *)
Definition finalTasks_body (c : Cli) : Cli * list Eff :=
  let head := LogComplete :: (if isTermOut then [ShowCursor] else []) in
  if dryrun argv || gen_ln_cmds argv
  then (c, head ++ [Out (MsgWouldSave (savedByteCount (c_rtenv c)))])
  else
    let '(c1, written) :=
      if bool_decide (existingShares (c_rtenv c) ≠ origExistingShares c)
      then
        let sortedExistingShares := sortObjKeys (shares_content c) in
        (with_fs (<[REFS_PATH := Json sortedExistingShares]> (c_fs c)) c,
         [WriteJson REFS_PATH sortedExistingShares; Out (MsgUpdated REFS_PATH)])
      else (c, []) in
    (c1, head ++ written
           ++ (if savedByteCount (c_rtenv c) =? 0 then []
               else [Out (MsgSaved (savedByteCount (c_rtenv c)))])).

(** [R.once(f)]: the flag is set before [f] runs, later calls do nothing. *)
Definition cancel (c : Cli) : Cli * list Eff :=
  if cancel_called c then (c, [])
  else cancel_body
         (with_flags true (finalTasks_called c) (on_SIGINT c) (on_SIGTERM c)
            (on_EXIT c) (subscribed c) c).

Definition finalTasks (c : Cli) : Cli * list Eff :=
  if finalTasks_called c then (c, [])
  else finalTasks_body
         (with_flags (cancel_called c) true (on_SIGINT c) (on_SIGTERM c)
            (on_EXIT c) (subscribed c) c).

(** One event.  A listener of [process.once] is removed when its event
    fires; a signal without listener runs nothing of [cli.js]. *)
Definition cli_step (c : Cli) (e : CliEvent) : Cli * list Eff :=
  match e with
  | SIGINT =>
      if on_SIGINT c
      then cancel (with_flags (cancel_called c) (finalTasks_called c) false
                     (on_SIGTERM c) (on_EXIT c) (subscribed c) c)
      else (c, [])
  | SIGTERM =>
      if on_SIGTERM c
      then cancel (with_flags (cancel_called c) (finalTasks_called c)
                     (on_SIGINT c) false (on_EXIT c) (subscribed c) c)
      else (c, [])
  | EXIT =>
      if on_EXIT c
      then finalTasks (with_flags (cancel_called c) (finalTasks_called c)
                         (on_SIGINT c) (on_SIGTERM c) false (subscribed c) c)
      else (c, [])
  | TasksComplete =>
      if subscribed c
      then finalTasks (with_flags (cancel_called c) (finalTasks_called c)
                         (on_SIGINT c) (on_SIGTERM c) (on_EXIT c) false c)
      else (c, [])
  | TasksError =>
      if subscribed c
      then (with_flags (cancel_called c) (finalTasks_called c)
              (on_SIGINT c) (on_SIGTERM c) (on_EXIT c) false c,
            [ConsoleError "err"])
      else (c, [])
  | PruneNext newShares =>
      if subscribed c && prune argv
      then (with_rtenv (set_existingShares newShares (c_rtenv c)) c, [])
      else (c, [])
  | EnvAlloc content =>
      (with_heap (<[c_next c := content]> (c_heap c)) (S (c_next c)) c, [])
  | EnvStore a content =>
      (with_heap (<[a := content]> (c_heap c)) (c_next c) c, [])
  | EnvSetShares a =>
      (with_rtenv (set_existingShares a (c_rtenv c)) c, [])
  | EnvSaved n =>
      (with_rtenv (set_savedByteCount n (c_rtenv c)) c, [])
  end.

Fixpoint cli_run (c : Cli) (es : list CliEvent) : Cli * list Eff :=
  match es with
  | [] => (c, [])
  | e :: rest =>
      let '(c1, o1) := cli_step c e in
      let '(c2, o2) := cli_run c1 rest in
      (c2, o1 ++ o2)
  end.

(** A whole invocation: start-up, then the events. *)
Definition invocation (fs : gmap string Content) (es : list CliEvent)
    : Cli * list Eff :=
  let '(c0, o0) := startup fs in
  let '(c1, o1) := cli_run c0 es in
  (c1, o0 ++ o1).

End CliRun.

Definition is_write (e : Eff) : bool :=
  match e with
  | WriteJson _ _ => true
  | _ => false
  end.

(** Modelled from the spec: [sortObjKeys] of [util/format], which is not
    part of the sources at hand; the spec says of the store that it is
    written with keys sorted.  The properties are inserted one by one into
    an object whose keys are kept in order. *)
Fixpoint insert_sorted (k : string) (v : list Ref) (s : Store) : Store :=
  match s with
  | [] => [(k, v)]
  | (k', v') :: rest =>
      if String.leb k k' then (k, v) :: (k', v') :: rest
      else (k', v') :: insert_sorted k v rest
  end.

Definition sortObjKeys_model (s : Store) : Store :=
  fold_right (fun kv acc => insert_sorted (fst kv) (snd kv) acc) [] s.

(** Modelled from the spec: [formatDevNameVersion] of [util/format], which
    is not part of the sources at hand; the spec says of the key that it is
    a package-identity string derived from (deviceId, name, version) and
    that entries on different devices never share a key.  The device comes
    first, in decimal, and a colon ends it. *)
Definition json_text (v : json) : string :=
  match v with
  | JStr s => s
  | JNum n => NilEmpty.string_of_int (Z.to_int n)
  | JBool true => "true"
  | JBool false => "false"
  | JNull => "null"
  | JArr _ => ""
  | JObj _ => "[object Object]"
  end.

Definition formatDevNameVersion_model (d : Z) (n v : json) : string :=
  NilEmpty.string_of_int (Z.to_int d) +:+ ":" +:+ json_text n +:+ "-" +:+ json_text v.

(** ** Vocabulary of the statements *)

Definition keyOf (e : EiDN) : Key := devNameVer e.

(** The groups after a list of keyed entries has arrived. *)
Definition groups_after (gs : list Group) (l : list EiDN) : list Group :=
  fold_left (fun acc e => group_push (keyOf e) (entryInfo e) acc) l gs.

(** The entries of [l] that carry the key [k], in arrival order. *)
Definition entries_of (k : Key) (l : list EiDN) : list EntryInfo :=
  map entryInfo (filter (fun e => keyOf e = k) l).

(** The keyed entries that pass [.filter(obj => obj.devNameVer)], out of
    the manifests that arrived. *)
Definition passing (f : Z -> json -> json -> string)
    (arrivals : list (EntryInfo * json)) : list EiDN :=
  filter (fun o => truthy_key (devNameVer o) = true)
    (map (fun a => selectResult f (fst a) (snd a)) arrivals).

(** Sample data of the examples. *)
Definition rt0 : RtEnv :=
  {| existingShares := 0%nat; cancelled := false; packageCount := 0;
     savedByteCount := 0 |}.

Definition mkEntry (d : Z) (dir : string) : EntryInfo :=
  {| name := "package.json"; fullPath := dir +:+ "/package.json";
     fullParentDir := dir; stat := {| dev := d; ino := 0; size := 0 |} |}.

Definition mkPack (n v : string) : json :=
  JObj [("name", JStr n); ("version", JStr v)].

(** Does the pipeline start a manifest read? *)
Definition is_read_out (o : Output) : bool :=
  match o with
  | DoReadJson _ _ => true
  | _ => false
  end.

(** Every stream the first mergeMap listens to has its destroy callback
    subscribed to [cancelled$]. *)
Definition destroy_armed (s : Scan) : Prop :=
  ∀ x, x ∈ activeRoots s -> x ∈ destroyers s.

Definition is_cancelled (s : Scan) : bool := cancelled (k_rtenv (keyed s)).

(** What a step may change when it starts no manifest read. *)
Definition walk_only (s s' : Scan) (out : list Output) : Prop :=
  readBuffer s' = readBuffer s
  ∧ activeReads s' = activeReads s
  ∧ is_cancelled s' = is_cancelled s
  ∧ Forall (fun o => is_read_out o = false) out
  ∧ (destroy_armed s -> destroy_armed s').


Definition config4 : Config := {| concurrentOps := 4; treeDepth := 0 |}.

(** Marks of the two bodies in the trace of effects: [finalTasks] starts
    with [singleLineLog$.complete()], [cancel] sends on [cancelled$]. *)
Definition is_final_mark (e : Eff) : bool :=
  match e with
  | LogComplete => true
  | _ => false
  end.

Definition is_cancel_mark (e : Eff) : bool :=
  match e with
  | CancelledNext => true
  | _ => false
  end.

Definition count (p : Eff -> bool) (out : list Eff) : nat :=
  List.length (List.filter p out).

(** How many runs of a once-wrapped body are left. *)
Definition budget (called : bool) : nat := if called then 0%nat else 1%nat.


Definition refs_path : string := "/home/u/.pkglink_refs".

Definition store0 : Store := [("5:a-1.0.0", [("/r/node_modules/a", 11, 1700000000)])].

Definition argv_prune : Argv :=
  {| dryrun := false; gen_ln_cmds := false; prune := true; dirs := [] |}.


Definition store1 : Store :=
  [("5:b-2.0.0", [("/r/node_modules/b", 12, 1700000001)]);
   ("5:a-1.0.0", [("/r/node_modules/a", 11, 1700000000)])].

(** The segments of a path: what stands between its slashes. *)
Fixpoint segments_from (acc : list ascii) (cs : list ascii) : list string :=
  match cs with
  | [] => [string_of_list_ascii (rev acc)]
  | c :: rest =>
      if Path.is_slash c
      then string_of_list_ascii (rev acc) :: segments_from [] rest
      else segments_from (c :: acc) rest
  end.

Definition segments (p : string) : list string :=
  segments_from [] (list_ascii_of_string p).

Definition has_segment (seg p : string) : bool :=
  existsb (String.eqb seg) (segments p).

(** The descent filter in the words of the specification: no dot
    directory; and the directory is node_modules, or its parent path has a
    node_modules segment and the parent is itself named node_modules, or the
    parent path has no node_modules segment at all. *)
Definition spec_descends (ei : EntryInfo) : bool :=
  negb (String.eqb (charAt0 (name ei)) ".")
  && (String.eqb (name ei) "node_modules"
      || (has_segment "node_modules" (fullParentDir ei)
          && String.eqb (Path.basename (fullParentDir ei)) "node_modules")
      || negb (has_segment "node_modules" (fullParentDir ei))).

(** An absolute, normalized path, from the names on it: [/] for none. *)
Fixpoint join_segs (segs : list string) : string :=
  match segs with
  | [] => ""
  | s :: rest => "/" +:+ s +:+ join_segs rest
  end.

Definition abs_path (segs : list string) : string :=
  match segs with
  | [] => "/"
  | _ :: _ => join_segs segs
  end.

(** A name on such a path: not empty, and free of [/] and of [\]. *)
Definition valid_name (s : string) : bool :=
  negb (String.eqb s "")
  && forallb (fun c => negb (is_sep c)) (list_ascii_of_string s).

Definition entryA : EntryInfo := mkEntry 5 "/r/node_modules/a".
Definition entryB : EntryInfo := mkEntry 5 "/q/node_modules/a".
Definition entryC : EntryInfo := mkEntry 7 "/mnt/node_modules/a".

Definition arrivals3 : list (EntryInfo * json) :=
  [(entryA, mkPack "a" "1.0.0"); (entryC, mkPack "a" "1.0.0");
   (entryB, mkPack "a" "1.0.0")].










(** The state of a run that pruned: the store object has been replaced. *)
Definition cli_pruned : Cli :=
  (invocation sortObjKeys_model rt0 argv_prune true refs_path
     {[ refs_path := Json store0 ]} [EnvAlloc store1; PruneNext 1%nat]).1.

(** The manifest that an event hands to the result selector, if any. *)
Definition arrival_of (s : Scan) (e : Event) : option (EntryInfo * json) :=
  match e, status s with
  | ReadSettled id (Resolved pack), Running =>
      match find_read id (activeReads s) with
      | Some ei => Some (ei, pack)
      | None => None
      end
  | _, _ => None
  end.

(** The manifests that arrive during a run, in order. *)
Fixpoint scan_arrivals (f : Z -> json -> json -> string) (config : Config)
    (s : Scan) (es : list Event) : list (EntryInfo * json) :=
  match es with
  | [] => []
  | e :: rest =>
      match arrival_of s e with
      | Some a => [a]
      | None => []
      end ++ scan_arrivals f config (scan_step f config s e).1 rest
  end.

(** A running pipeline has a grouper that still accepts entries. *)
Definition grouper_live (s : Scan) : Prop :=
  status s = Running -> stopped (k_grouper (keyed s)) = false.

(** Outputs that hand nothing downstream. *)
Definition silent (out : list Output) : Prop :=
  (∀ g, Emit g ∉ out) ∧ Done ∉ out.

(** A step that brings no manifest: the groups stay, the grouper stays
    unless the pipeline ends, a group is handed downstream only as the
    pipeline completes, and completion comes with all the groups. *)
Definition quiet (s : Scan) (r : Scan * list Output) : Prop :=
  groups (k_grouper (keyed r.1)) = groups (k_grouper (keyed s))
  ∧ (status r.1 = Running ->
     status s = Running ∧ k_grouper (keyed r.1) = k_grouper (keyed s))
  ∧ (∀ g, Emit g ∈ r.2 ->
       status r.1 = Completed ∧ g ∈ groups (k_grouper (keyed s)))
  ∧ (Done ∈ r.2 ->
     status r.1 = Completed
     ∧ ∀ g, g ∈ groups (k_grouper (keyed s)) -> Emit g ∈ r.2).

(** The state below the manifest read that a step aims at: the one after
    the manifest it brings, or the current one. *)
Definition target (f : Z -> json -> json -> string) (s : Scan) (e : Event)
    : Keyed :=
  match arrival_of s e with
  | Some (ei, pack) => onPack f (keyed s) ei pack
  | None => keyed s
  end.

(** The result [r] of a step has the groups of [k], and its grouper unless
    the pipeline has ended; a group goes downstream only as it completes,
    and completion comes with all the groups. *)
Definition lands (k : Keyed) (r : Scan * list Output) : Prop :=
  groups (k_grouper (keyed r.1)) = groups (k_grouper k)
  ∧ (status r.1 = Running -> k_grouper (keyed r.1) = k_grouper k)
  ∧ (∀ g, Emit g ∈ r.2 ->
       status r.1 = Completed ∧ g ∈ groups (k_grouper (keyed r.1)))
  ∧ (Done ∈ r.2 ->
     status r.1 = Completed
     ∧ ∀ g, g ∈ groups (k_grouper (keyed r.1)) -> Emit g ∈ r.2).


Definition chars : string -> list ascii := list_ascii_of_string.

(** ** Vocabulary of the further properties of the pipeline *)

(** A whole scan: the subscription, then the events. *)
Definition scan (f : Z -> json -> json -> string) (config : Config)
    (rt : RtEnv) (already_cancelled : nat) (rootDirs : list string)
    (es : list Event) : Scan * list Output :=
  let '(s0, o0) := findPackagesGrouped config rt already_cancelled rootDirs in
  let '(s1, o1) := scan_run f config s0 es in
  (s1, o0 ++ o1).

(** The slots of a mergeMap with a concurrency limit: the inner
    subscriptions are pairwise distinct and older than the next one, there
    are at most [limit] of them, and nothing waits in the buffer unless the
    slots are taken ([slack] is 1 between the end of an inner subscription
    and the start of the next one, 0 otherwise). *)
Definition slots_ok {A : Type} (limit slack : nat) (ids : list nat)
    (next : nat) (buffer : list A) : Prop :=
  (List.length ids <= limit)%nat
  ∧ NoDup ids
  ∧ (∀ x, x ∈ ids -> (x < next)%nat)
  ∧ (buffer ≠ [] -> (limit <= slack + List.length ids)%nat).

Definition roots_ok (config : Config) (slack : nat) (s : Scan) : Prop :=
  slots_ok (concurrentOps config) slack (activeRoots s) (nextStream s)
    (rootBuffer s).

Definition reads_ok (config : Config) (slack : nat) (s : Scan) : Prop :=
  slots_ok (concurrentOps config) slack (map fst (activeReads s)) (nextRead s)
    (readBuffer s).

(** A running pipeline knows whether the walk is over, and is not left
    running with the walk over and no manifest to wait for. *)
Definition scan_progress (s : Scan) : Prop :=
  status s = Running ->
  (walkDone s = true <-> activeRoots s = [] ∧ rootBuffer s = [])
  ∧ (walkDone s = true -> activeReads s ≠ [] ∨ readBuffer s ≠ []).

Definition scan_wf (config : Config) (s : Scan) : Prop :=
  roots_ok config 0 s ∧ reads_ok config 0 s ∧ scan_progress s.

(** The streams started in a list of outputs, the reads started, the
    groups handed downstream. *)
Definition started (out : list Output) : list (nat * string * option Z) :=
  flat_map (fun o => match o with
                     | DoReaddirp id root depth => [(id, root, depth)]
                     | _ => []
                     end) out.

Definition reads_started (out : list Output) : list (nat * string) :=
  flat_map (fun o => match o with
                     | DoReadJson id path => [(id, path)]
                     | _ => []
                     end) out.

Definition emitted (out : list Output) : list Group :=
  flat_map (fun o => match o with
                     | Emit g => [g]
                     | _ => []
                     end) out.

(** The two notifications that end a subscription. *)
Definition is_end (o : Output) : bool :=
  match o with
  | Done | Failed => true
  | _ => false
  end.

Definition is_destroy (o : Output) : bool :=
  match o with
  | DoDestroy _ => true
  | _ => false
  end.

(** What follows the first end in a list of outputs. *)
Fixpoint after_end (out : list Output) : list Output :=
  match out with
  | [] => []
  | o :: rest => if is_end o then rest else after_end rest
  end.

(** The number of entries held by a list of groups. *)
Definition entry_total (gs : list Group) : nat :=
  fold_right (fun g n => (List.length g.2 + n)%nat) 0%nat gs.

(** The [depth] option of readdirp: set only when [config.treeDepth] is
    truthy. *)
Definition depth_option (config : Config) : option Z :=
  if treeDepth config =? 0 then None else Some (treeDepth config).

(** The candidates that the events of a run deliver. *)
Definition delivered (ei : EntryInfo) (es : list Event) : Prop :=
  ∃ x, FsData x ei ∈ es.

(** Outputs that are effects of the pipeline on its sources, not
    notifications to its subscriber. *)
Definition is_effect (o : Output) : bool :=
  match o with
  | DoReaddirp _ _ _ | DoDestroy _ | DoReadJson _ _ => true
  | _ => false
  end.

(** What a step does to the subscriber: nothing, or it completes it, with
    all the groups first. *)
Definition step_shape (s : Scan) (r : Scan * list Output) : Prop :=
  (status r.1 = status s ∧ Forall (fun o => is_effect o = true) r.2)
  ∨ (status r.1 = Completed
     ∧ r.2 = map Emit (groups (k_grouper (keyed r.1))) ++ [Done]).

(** What a step that brings no manifest leaves as it is. *)
Definition kept (s : Scan) (r : Scan * list Output) : Prop :=
  k_rtenv (keyed r.1) = k_rtenv (keyed s)
  ∧ k_log (keyed r.1) = k_log (keyed s)
  ∧ groups (k_grouper (keyed r.1)) = groups (k_grouper (keyed s)).

(** The outputs of a scan so far: effects while it runs; then one ending,
    all the groups and the completion, or the failure alone; then nothing
    but the destroy calls of a late cancellation. *)
Definition trace_shape (s : Scan) (out : list Output) : Prop :=
  ∃ pre post,
    Forall (fun o => is_effect o = true) pre
    ∧ Forall (fun o => is_destroy o = true) post
    ∧ match status s with
      | Running => out = pre ∧ post = []
      | Completed =>
          out = pre ++ map Emit (groups (k_grouper (keyed s))) ++ [Done] ++ post
      | Errored => out = pre ++ [Failed] ++ post
      end.

(** The counter and the scan log agree with the groups: the counter was
    incremented once per entry held, from [c0], the counter before the
    scan, and the log received every value it went through. *)
Definition counted (c0 : Z) (k : Keyed) : Prop :=
  packageCount (k_rtenv k)
  = Nat.iter (entry_total (groups (k_grouper k))) js_succ c0
  ∧ map fst (k_log k)
    = map (fun i => Nat.iter i js_succ c0)
        (seq 1 (entry_total (groups (k_grouper k)))).

(** The outputs that open streams on the roots [rs], the first of them
    with the identifier [n]. *)
Definition opened (config : Config) (n : nat) (rs : list string)
    : list (nat * string * option Z) :=
  imap (fun i r => ((n + i)%nat, r, depth_option config)) rs.

(** What a step does to the roots that wait: it opens streams on the first
    of them, in order, and leaves the others waiting. *)
Definition roots_served (config : Config) (s : Scan) (r : Scan * list Output)
    : Prop :=
  ∃ now waiting,
    rootBuffer s = now ++ waiting
    ∧ started r.2 = opened config (nextStream s) now
    ∧ nextStream r.1 = (nextStream s + List.length now)%nat
    ∧ (status s ≠ Running -> now = [] ∧ status r.1 = status s)
    ∧ (status r.1 ≠ Errored -> status s ≠ Errored ∧ rootBuffer r.1 = waiting).

(** The candidate that an event hands to the second mergeMap, if any: an
    entry of a stream the pipeline listens to, delivered before the
    cancellation, that passes the filter on the parent path. *)
Definition accepts (s : Scan) (e : Event) : option EntryInfo :=
  match e, status s with
  | FsData x ei, Running =>
      if is_active_root x s && negb (cancelled (k_rtenv (keyed s)))
         && keepCandidate ei
      then Some ei else None
  | _, _ => None
  end.

(** The candidates accepted during a run, in order. *)
Fixpoint scan_accepted (f : Z -> json -> json -> string) (config : Config)
    (s : Scan) (es : list Event) : list EntryInfo :=
  match es with
  | [] => []
  | e :: rest =>
      match accepts s e with
      | Some ei => [ei]
      | None => []
      end ++ scan_accepted f config (scan_step f config s e).1 rest
  end.

(** The outputs that start the reads of the manifests of [eis], the first
    of them with the identifier [n]. *)
Definition reads_of (n : nat) (eis : list EntryInfo) : list (nat * string) :=
  imap (fun i ei => ((n + i)%nat, fullPath ei)) eis.

(** What a run does to the candidates that wait and to those it accepts:
    it starts the reads of the first of them, in order, and leaves the
    others waiting. *)
Definition reads_served (s : Scan) (accepted : list EntryInfo)
    (r : Scan * list Output) : Prop :=
  ∃ now waiting,
    readBuffer s ++ accepted = now ++ waiting
    ∧ reads_started r.2 = reads_of (nextRead s) now
    ∧ nextRead r.1 = (nextRead s + List.length now)%nat
    ∧ (status s ≠ Running -> now = [] ∧ status r.1 = status s)
    ∧ (status r.1 ≠ Errored -> status s ≠ Errored ∧ readBuffer r.1 = waiting).

(** A configuration whose concurrency limit is zero. *)
Definition config0 : Config := {| concurrentOps := 0; treeDepth := 0 |}.

(** A pipeline in which nothing can start: no stream, no read, no destroy
    callback, and a root that waits. *)
Definition stalled (s : Scan) : Prop :=
  status s = Running ∧ activeRoots s = [] ∧ activeReads s = []
  ∧ destroyers s = [] ∧ rootBuffer s ≠ [].

(** ** Vocabulary of the further properties of [cli.js] *)

Definition is_signal (e : CliEvent) : bool :=
  match e with
  | SIGINT | SIGTERM => true
  | _ => false
  end.

(** The two events that [finalTasks] is registered for. *)
Definition is_final_trigger (e : CliEvent) : bool :=
  match e with
  | TasksComplete | EXIT => true
  | _ => false
  end.

(** The events that assign [rtenv.existingShares]. *)
Definition is_reassign (e : CliEvent) : bool :=
  match e with
  | PruneNext _ | EnvSetShares _ => true
  | _ => false
  end.

Definition is_updated (e : Eff) : bool :=
  match e with
  | Out (MsgUpdated _) => true
  | _ => false
  end.

Definition is_would_save (e : Eff) : bool :=
  match e with
  | Out (MsgWouldSave _) => true
  | _ => false
  end.

Definition is_saved (e : Eff) : bool :=
  match e with
  | Out (MsgSaved _) => true
  | _ => false
  end.

Definition is_show (e : Eff) : bool :=
  match e with
  | ShowCursor => true
  | _ => false
  end.

Definition is_hide (e : Eff) : bool :=
  match e with
  | HideCursor => true
  | _ => false
  end.

(** The flag of [R.once(cancel)] and [rtenv.cancelled] go together, and the
    signal listeners are in place until one of them has fired. *)
Definition cancel_inv (c : Cli) : Prop :=
  cancelled (c_rtenv c) = cancel_called c
  ∧ (cancel_called c = false -> on_SIGINT c = true ∧ on_SIGTERM c = true).

Definition argv_scan : Argv :=
  {| dryrun := false; gen_ln_cmds := false; prune := false; dirs := ["/r"] |}.

(** Every manifest read in flight or waiting is that of a candidate. *)
Definition candidates_only (s : Scan) : Prop :=
  (∀ p, p ∈ activeReads s -> keepCandidate p.2 = true)
  ∧ (∀ ei, ei ∈ readBuffer s -> keepCandidate ei = true).

(** ** [cli.js]: the single-line logger

    [singleLineLog$] is a Subject; what is sent to it passes
    [.filter(x => isTermOut).distinct().throttleTime(10)
     .takeUntil(rtenv.cancelled$)] and reaches [singleLineLog].  The timer
    of [throttleTime] is an event of the environment. *)

Inductive LogEvent :=
| LogCall (x : string) (* rtenv.log(x), that is singleLineLog$.next(x) *)
| LogClear             (* rtenv.log.clear() *)
| ThrottleOver         (* the timer of throttleTime fires *)
| CancelledSent        (* rtenv.cancelled$.next(true), by [cancel] *)
| LogCompleted.        (* singleLineLog$.complete(), by [finalTasks] *)

Inductive LogEff :=
| SingleLine (x : string) (* singleLineLog(x) *)
| SingleLineClear.        (* singleLineLog.clear() *)

Record Logger := {
  seen : gset string; (* the values that distinct() has let through *)
  throttled : bool;   (* the timer of throttleTime is running *)
  live : bool         (* the subscriber has not been completed *)
}.

Definition logger_init : Logger :=
  {| seen := ∅; throttled := false; live := true |}.

(** The [complete] handler of the subscriber. *)
Definition log_complete : list LogEff := [SingleLine ""; SingleLineClear].

Section LoggerRun.

Variable isTermOut : bool.

Definition logger_step (s : Logger) (e : LogEvent) : Logger * list LogEff :=
  match e with
  | LogCall x =>
      if live s && isTermOut (* only if in terminal *)
      then
        if bool_decide (x ∈ seen s) then (s, []) (* distinct() *)
        else
          ({| seen := {[ x ]} ∪ seen s; throttled := true; live := live s |},
           if throttled s then [] (* throttleTime(10) *)
           else [SingleLine x])
      else (s, [])
  | LogClear =>
      (s, if isTermOut then [SingleLine ""; SingleLineClear] else [])
  | ThrottleOver =>
      ({| seen := seen s; throttled := false; live := live s |}, [])
  | CancelledSent | LogCompleted =>
      if live s
      then ({| seen := seen s; throttled := throttled s; live := false |},
            log_complete)
      else (s, [])
  end.

Fixpoint logger_run (s : Logger) (es : list LogEvent)
    : Logger * list LogEff :=
  match es with
  | [] => (s, [])
  | e :: rest =>
      let '(s1, o1) := logger_step s e in
      let '(s2, o2) := logger_run s1 rest in
      (s2, o1 ++ o2)
  end.

End LoggerRun.

(** How often a message is shown. *)
Definition shown (x : string) (out : list LogEff) : nat :=
  List.length (List.filter (fun e => match e with
                                     | SingleLine y => String.eqb x y
                                     | SingleLineClear => false
                                     end) out).

Definition is_log_clear (e : LogEvent) : bool :=
  match e with
  | LogClear => true
  | _ => false
  end.

(** ** [cli.js]: what runs before the store is loaded, and the tasks *)

(** The outcome of the checks that come first: [argvVResult.error],
    [parsedConfigJson instanceof Error], [configResult.error], and the flag
    [argv.help].  Joi and [safeJsonReadSync] are not part of the sources at
    hand. *)
Record Checks := {
  argvError : bool;
  configIsError : bool;
  configError : bool;
  help : bool
}.

(** [process.exit(code)], after [displayHelp()] or not. *)
Inductive Launch :=
| Exits (code : Z) (usage : bool)
| Proceeds.

Definition launch (k : Checks) (argv : Argv) : Launch :=
  if argvError k then Exits 20 true
  else if configIsError k then Exits 21 false
  else if configError k then Exits 22 false
  else if help k || (Nat.eqb (List.length (dirs argv)) 0 && negb (prune argv))
       then Exits 23 true
  else Proceeds.

Inductive Task :=
| TaskPrune
| TaskScanAndLink.

Definition arrTaskObs (argv : Argv) : list Task :=
  (if prune argv then [TaskPrune] else [])
    ++ (if negb (Nat.eqb (List.length (dirs argv)) 0)
        then [TaskScanAndLink] else []).

(** [Observable.concat(...arrTaskObs).subscribe({ error, complete })]: the
    tasks are subscribed to one after the other. *)
Inductive TaskEvent :=
| TaskCompletes (* the task subscribed to completes *)
| TaskFails.    (* it fails *)

Inductive TaskOut :=
| Subscribe (t : Task)
| CallFinalTasks  (* complete: () => finalTasks() *)
| LogError.       (* error: err => console.error(err) *)

Record Tasks := {
  pending : list Task; (* the task subscribed to, and those after it *)
  t_live : bool        (* the subscriber is neither completed nor failed *)
}.

Definition tasks_start (argv : Argv) : Tasks * list TaskOut :=
  match arrTaskObs argv with
  | [] => ({| pending := []; t_live := false |}, [])
  | t :: rest => ({| pending := t :: rest; t_live := true |}, [Subscribe t])
  end.

Definition tasks_step (s : Tasks) (e : TaskEvent) : Tasks * list TaskOut :=
  if t_live s
  then
    match e with
    | TaskCompletes =>
        match pending s with
        | [] => (s, [])
        | [_] => ({| pending := []; t_live := false |}, [CallFinalTasks])
        | _ :: ((t :: _) as rest) =>
            ({| pending := rest; t_live := true |}, [Subscribe t])
        end
    | TaskFails => ({| pending := pending s; t_live := false |}, [LogError])
    end
  else (s, []).

Fixpoint tasks_run (s : Tasks) (es : list TaskEvent) : Tasks * list TaskOut :=
  match es with
  | [] => (s, [])
  | e :: rest =>
      let '(s1, o1) := tasks_step s e in
      let '(s2, o2) := tasks_run s1 rest in
      (s2, o1 ++ o2)
  end.

(** From the subscription on. *)
Definition tasks (argv : Argv) (es : list TaskEvent) : Tasks * list TaskOut :=
  let '(s0, o0) := tasks_start argv in
  let '(s1, o1) := tasks_run s0 es in
  (s1, o0 ++ o1).

Definition subscriptions (out : list TaskOut) : list Task :=
  flat_map (fun o => match o with
                     | Subscribe t => [t]
                     | _ => []
                     end) out.

(** The completions that come before the first failure. *)
Fixpoint completions (es : list TaskEvent) : nat :=
  match es with
  | TaskCompletes :: rest => S (completions rest)
  | _ => 0%nat
  end.

(** * Properties *)

(** ** The model on small inputs *)

Example basename_ex1 : Path.basename "/a/node_modules/pkg" = "pkg".
Proof. reflexivity. Qed.
Example basename_ex2 : Path.basename "/a/b//" = "b".
Proof. reflexivity. Qed.
Example basename_ex3 : Path.basename "///" = "".
Proof. reflexivity. Qed.
Example dirname_ex1 : Path.dirname "/a/node_modules/pkg" = "/a/node_modules".
Proof. reflexivity. Qed.
Example dirname_ex2 : Path.dirname "/a" = "/".
Proof. reflexivity. Qed.
Example dirname_ex3 : Path.dirname "a" = ".".
Proof. reflexivity. Qed.
Example dirname_ex4 : Path.dirname "//a" = "//".
Proof. reflexivity. Qed.
Example dirname_ex5 : Path.dirname "/a//b" = "/a/".
Proof. reflexivity. Qed.
Example filter_ex1 : filterDirsNodeModPacks (mkDir "lib" "/p/node_modules/x") = false.
Proof. reflexivity. Qed.
Example filter_ex2 : filterDirsNodeModPacks (mkDir "x" "/p/node_modules") = true.
Proof. reflexivity. Qed.
Example filter_ex3 : filterDirsNodeModPacks (mkDir "lib" "/p/node_modules_old/x") = false.
Proof. reflexivity. Qed.
Example keep_ex1 : keepCandidate (mkDir "package.json" "/p/node_modules/x") = true.
Proof. reflexivity. Qed.
Example keep_ex2 : keepCandidate (mkDir "package.json" "/p/a\node_modules/x") = true.
Proof. reflexivity. Qed.

(** ** The grouper *)

Section GrouperFacts.

Lemma group_push_keys k e gs :
  map fst (group_push k e gs)
  = if decide (k ∈ map fst gs) then map fst gs else map fst gs ++ [k].
Proof.
  induction gs as [|[k' arr] gs IH]; simpl.
  - destruct (decide (k ∈ [])) as [H|H]; [inversion H | reflexivity].
  - destruct (decide (k' = k)) as [->|Hne]; simpl.
    + destruct (decide (k ∈ k :: map fst gs)) as [_|H]; [reflexivity|].
      exfalso; apply H; left.
    + rewrite IH.
      destruct (decide (k ∈ map fst gs)) as [Hin|Hnin];
        destruct (decide (k ∈ k' :: map fst gs)) as [Hin'|Hnin'];
        try reflexivity.
      * exfalso; apply Hnin'; right; exact Hin.
      * exfalso. apply elem_of_cons in Hin' as [->|Hin']; [congruence|tauto].
Qed.

Lemma group_push_elem k e gs k' arr' :
  NoDup (map fst gs) ->
  ((k', arr') ∈ group_push k e gs <->
   (k' ≠ k ∧ (k', arr') ∈ gs)
   ∨ (k' = k ∧ ((∃ arr, (k, arr) ∈ gs ∧ arr' = arr ++ [e])
                ∨ ((k ∉ map fst gs) ∧ arr' = [e])))).
Proof.
  induction gs as [|[k0 arr0] gs IH]; simpl; intros Hnd.
  - rewrite list_elem_of_singleton. split.
    + intros [= -> ->]. right. split; [reflexivity|]. right.
      split; [apply not_elem_of_nil | reflexivity].
    + intros [[_ H]|[-> [[arr [H _]]|[_ ->]]]];
        [inversion H | inversion H | reflexivity].
  - apply NoDup_cons in Hnd as [Hk0 Hnd]. specialize (IH Hnd).
    assert (Hfresh : ∀ a, (k0, a) ∈ gs -> False).
    { intros a Ha. apply Hk0. apply list_elem_of_fmap.
      exists (k0, a). split; [reflexivity | exact Ha]. }
    destruct (decide (k0 = k)) as [->|Hne].
    + rewrite !elem_of_cons. split.
      * intros [[= -> ->]|Hin].
        { right. split; [reflexivity|]. left. exists arr0.
          split; [left; reflexivity | reflexivity]. }
        left. split; [|right; exact Hin].
        intros ->. eapply Hfresh, Hin.
      * intros [[Hne [[= -> ->]|Hin]]|[-> [[arr [Hin ->]]|[Hnin _]]]].
        -- congruence.
        -- right; exact Hin.
        -- left. apply elem_of_cons in Hin as [[= ->]|Hin]; [reflexivity|].
           exfalso. eapply Hfresh, Hin.
        -- exfalso. apply Hnin. left. reflexivity.
    + rewrite !elem_of_cons, IH. split.
      * intros [[= -> ->]|[[Hne' Hin]|[-> [[arr [Hin ->]]|[Hnin ->]]]]].
        -- left; split; [exact Hne | left; reflexivity].
        -- left; split; [exact Hne' | right; exact Hin].
        -- right; split; [reflexivity|]. left. exists arr.
           split; [right; exact Hin | reflexivity].
        -- right; split; [reflexivity|]. right. split; [|reflexivity].
           intros [Heq|Hin]; [congruence | contradiction].
      * intros [[Hne' [[= -> ->]|Hin]]|[-> [[arr [Hin ->]]|[Hnin ->]]]].
        -- left; reflexivity.
        -- right; left; split; assumption.
        -- right; right; split; [reflexivity|]. left.
           apply elem_of_cons in Hin as [[= -> ->]|Hin]; [congruence|].
           exists arr; split; [exact Hin | reflexivity].
        -- right; right; split; [reflexivity|]. right.
           split; [|reflexivity].
           intros Hin. apply Hnin. right. exact Hin.
Qed.

Lemma groups_after_snoc gs l e :
  groups_after gs (l ++ [e])
  = group_push (keyOf e) (entryInfo e) (groups_after gs l).
Proof. unfold groups_after. rewrite fold_left_app. reflexivity. Qed.

Lemma entries_of_snoc k l e :
  entries_of k (l ++ [e])
  = entries_of k l ++ (if decide (keyOf e = k) then [entryInfo e] else []).
Proof.
  unfold entries_of. rewrite filter_app, map_app. f_equal.
  rewrite filter_cons, filter_nil.
  destruct (decide (keyOf e = k)); reflexivity.
Qed.

(** What the accumulated groups are, whatever has arrived. *)
Lemma groups_after_spec (l : list EiDN) :
  let gs := groups_after [] l in
  NoDup (map fst gs)
  ∧ (∀ k, k ∈ map fst gs <-> ∃ e, e ∈ l ∧ keyOf e = k)
  ∧ (∀ k arr, (k, arr) ∈ gs -> arr = entries_of k l).
Proof.
  induction l as [|e l IH] using rev_ind; simpl.
  - split; [constructor|]. split.
    + intros k. split; [intros H; inversion H|].
      intros [e [H _]]; inversion H.
    + intros k arr H; inversion H.
  - destruct IH as (Hnd & Hkeys & Harr).
    rewrite groups_after_snoc. set (gs := groups_after [] l) in *.
    split; [|split].
    + rewrite group_push_keys.
      destruct (decide (keyOf e ∈ map fst gs)) as [Hin|Hnin]; [exact Hnd|].
      apply NoDup_app. split; [exact Hnd|]. split.
      * intros x Hx Hx'. apply list_elem_of_singleton in Hx'. subst.
        contradiction.
      * apply NoDup_singleton.
    + intros k. rewrite group_push_keys.
      destruct (decide (keyOf e ∈ map fst gs)) as [Hin|Hnin].
      * rewrite Hkeys. split.
        -- intros [e' [He' Hk]]. exists e'.
           split; [apply elem_of_app; left; exact He' | exact Hk].
        -- intros [e' [He' Hk]]. apply elem_of_app in He' as [He'|He'].
           ++ exists e'. split; assumption.
           ++ apply list_elem_of_singleton in He'. subst e'.
              apply Hkeys. rewrite <- Hk. exact Hin.
      * rewrite elem_of_app, Hkeys, list_elem_of_singleton. split.
        -- intros [[e' [He' Hk]]| ->].
           ++ exists e'. split; [apply elem_of_app; left; exact He' | exact Hk].
           ++ exists e. split; [apply elem_of_app; right; left | reflexivity].
        -- intros [e' [He' Hk]]. apply elem_of_app in He' as [He'|He'].
           ++ left. exists e'. split; assumption.
           ++ apply list_elem_of_singleton in He'. subst e'.
              right. symmetry. exact Hk.
    + intros k arr Hin. apply group_push_elem in Hin; [|exact Hnd].
      rewrite entries_of_snoc.
      destruct Hin as [[Hne Hin]|[-> [[arr0 [Hin ->]]|[Hnin ->]]]].
      * destruct (decide (keyOf e = k)) as [Heq|_]; [congruence|].
        rewrite app_nil_r. apply Harr. exact Hin.
      * destruct (decide (keyOf e = keyOf e)) as [_|Hn]; [|congruence].
        f_equal. apply Harr. exact Hin.
      * destruct (decide (keyOf e = keyOf e)) as [_|Hn]; [|congruence].
        assert (Hnil : entries_of (keyOf e) l = []).
        { unfold entries_of.
          destruct (filter (λ e0, keyOf e0 = keyOf e) l) as [|x xs] eqn:Hf;
            [reflexivity|].
          exfalso. apply Hnin. apply Hkeys. exists x.
          assert (Hx : x ∈ filter (λ e0, keyOf e0 = keyOf e) l)
            by (rewrite Hf; left).
          apply list_elem_of_filter in Hx as [Hx1 Hx2].
          split; assumption. }
        rewrite Hnil. reflexivity.
Qed.

Lemma grouper_run_nexts gs (l : list EiDN) :
  grouper_run {| groups := gs; stopped := false |} (map Next l)
  = repeat [] (List.length l).
Proof.
  revert gs. induction l as [|e l IH]; intros gs; simpl; [reflexivity|].
  f_equal. apply IH.
Qed.

Lemma grouper_run_app g l1 l2 :
  grouper_run g (l1 ++ l2)
  = grouper_run g l1
    ++ grouper_run (fold_left (fun g n => fst (grouper_step g n)) l1 g) l2.
Proof.
  revert g. induction l1 as [|n l1 IH]; intros g; simpl; [reflexivity|].
  destruct (grouper_step g n) as [g' out] eqn:Hs. simpl.
  f_equal. rewrite IH. reflexivity.
Qed.

Lemma grouper_fold_nexts gs (l : list EiDN) :
  fold_left (fun g n => fst (grouper_step g n)) (map Next l)
    {| groups := gs; stopped := false |}
  = {| groups := groups_after gs l; stopped := false |}.
Proof.
  revert gs. induction l as [|e l IH]; intros gs; simpl; [reflexivity|].
  apply IH.
Qed.

End GrouperFacts.


(** ** The counter *)

Lemma js_succ_exact n : - two53 <= n < two53 -> js_succ n = n + 1.
Proof.
  intros [H1 H2]. unfold js_succ.
  apply Z.leb_le in H1. apply Z.ltb_lt in H2. rewrite H1, H2. reflexivity.
Qed.

(** The counter stays at 2^53. *)
Lemma js_succ_stays : js_succ two53 = two53.
Proof. reflexivity. Qed.

Lemma iter_js_succ n : ∀ c,
  - two53 <= c -> c + Z.of_nat n <= two53 ->
  Nat.iter n js_succ c = c + Z.of_nat n.
Proof.
  induction n as [|n IH]; intros c H1 H2; simpl; [lia|].
  rewrite IH by lia. rewrite js_succ_exact by lia. lia.
Qed.

(** ** Key extraction *)

Section ExtractionFacts.

Variable f : Z -> json -> json -> string.

Lemma selectResult_entry ei pack : entryInfo (selectResult f ei pack) = ei.
Proof. reflexivity. Qed.

(** A key that passes the filter was computed from truthy fields. *)
Lemma selectResult_truthy ei pack :
  truthy_key (devNameVer (selectResult f ei pack)) = true ->
  ∃ n v, truthy pack = true
         ∧ prop "name" pack = Some n ∧ truthy n = true
         ∧ prop "version" pack = Some v ∧ truthy v = true
         ∧ devNameVer (selectResult f ei pack) = Some (f (dev (stat ei)) n v).
Proof.
  unfold selectResult; simpl.
  destruct (truthy pack); [|discriminate].
  destruct (prop "name" pack) as [n|]; [|discriminate].
  destruct (prop "version" pack) as [v|]; [|discriminate].
  destruct (truthy n) eqn:Hn; [|discriminate].
  destruct (truthy v) eqn:Hv; [|discriminate].
  simpl. intros _. exists n, v. repeat split; auto.
Qed.

(** A falsy manifest, name or version gives the key [null]. *)
Lemma selectResult_null ei pack :
  truthy pack = false
  ∨ truthy_opt (prop "name" pack) = false
  ∨ truthy_opt (prop "version" pack) = false ->
  devNameVer (selectResult f ei pack) = None.
Proof.
  unfold selectResult; simpl. intros H.
  destruct (truthy pack); [|reflexivity].
  destruct (prop "name" pack) as [n|]; [|reflexivity].
  destruct (prop "version" pack) as [v|]; [|reflexivity].
  simpl in H. destruct H as [H|[H|H]]; [discriminate| |]; rewrite H.
  - reflexivity.
  - rewrite andb_false_r. reflexivity.
Qed.

Lemma onPack_passing st ei pack :
  stopped (k_grouper st) = false ->
  truthy_key (devNameVer (selectResult f ei pack)) = true ->
  onPack f st ei pack
  = {| k_rtenv := set_packageCount (js_succ (packageCount (k_rtenv st)))
                    (k_rtenv st);
       k_log := k_log st
                ++ [(js_succ (packageCount (k_rtenv st)),
                     selectResult f ei pack)];
       k_grouper :=
         {| groups := group_push (devNameVer (selectResult f ei pack)) ei
                        (groups (k_grouper st));
            stopped := false |} |}.
Proof.
  intros Hs Ht. unfold onPack. rewrite Ht.
  unfold grouper_step. rewrite Hs. reflexivity.
Qed.

Lemma onPack_dropped st ei pack :
  truthy_key (devNameVer (selectResult f ei pack)) = false ->
  onPack f st ei pack = st.
Proof. intros Ht. unfold onPack. rewrite Ht. reflexivity. Qed.

Lemma onPack_running st ei pack :
  stopped (k_grouper st) = false ->
  stopped (k_grouper (onPack f st ei pack)) = false.
Proof.
  intros Hs.
  destruct (truthy_key (devNameVer (selectResult f ei pack))) eqn:Ht.
  - rewrite onPack_passing by assumption. reflexivity.
  - rewrite onPack_dropped by assumption. exact Hs.
Qed.

Lemma passing_cons a arrivals :
  passing f (a :: arrivals)
  = (if truthy_key (devNameVer (selectResult f (fst a) (snd a)))
     then [selectResult f (fst a) (snd a)] else [])
    ++ passing f arrivals.
Proof.
  unfold passing. cbn [map]. rewrite filter_cons.
  destruct (decide (truthy_key (devNameVer (selectResult f a.1 a.2)) = true))
    as [H|H].
  - rewrite H. reflexivity.
  - apply not_true_is_false in H. rewrite H. reflexivity.
Qed.

Lemma passing_app l1 l2 : passing f (l1 ++ l2) = passing f l1 ++ passing f l2.
Proof. unfold passing. rewrite map_app, filter_app. reflexivity. Qed.

(** The grouper and the counter after any list of arrivals. *)
Lemma onPacks_spec arrivals : ∀ st,
  stopped (k_grouper st) = false ->
  k_grouper (onPacks f st arrivals)
  = {| groups := groups_after (groups (k_grouper st)) (passing f arrivals);
       stopped := false |}
  ∧ packageCount (k_rtenv (onPacks f st arrivals))
    = Nat.iter (List.length (passing f arrivals)) js_succ
        (packageCount (k_rtenv st)).
Proof.
  induction arrivals as [|[ei pack] arrivals IH]; intros st Hs.
  - simpl. split; [|reflexivity]. destruct (k_grouper st); simpl in *. subst.
    reflexivity.
  - unfold onPacks in *. simpl fold_left. rewrite passing_cons. simpl fst.
    simpl snd.
    destruct (IH (onPack f st ei pack) (onPack_running _ _ _ Hs)) as [Hg Hc].
    rewrite Hg, Hc.
    destruct (truthy_key (devNameVer (selectResult f ei pack))) eqn:Ht.
    + rewrite onPack_passing by assumption. simpl List.length.
      rewrite Nat.iter_succ_r. simpl. split; reflexivity.
    + rewrite onPack_dropped by assumption. simpl. split; reflexivity.
Qed.

Lemma groupedOutput_spec rt arrivals :
  groupedOutput f rt arrivals = groups_after [] (passing f arrivals).
Proof.
  unfold groupedOutput.
  destruct (onPacks_spec arrivals (keyed_init rt) eq_refl) as [Hg _].
  rewrite Hg. reflexivity.
Qed.

(** An entry of an emitted group arrived with a manifest whose key is the
    key of the group. *)
Lemma group_member_origin rt arrivals k arr X :
  (k, arr) ∈ groupedOutput f rt arrivals -> X ∈ arr ->
  ∃ pack, (X, pack) ∈ arrivals
          ∧ truthy_key (devNameVer (selectResult f X pack)) = true
          ∧ devNameVer (selectResult f X pack) = k.
Proof.
  rewrite groupedOutput_spec. intros Hin HX.
  destruct (groups_after_spec (passing f arrivals)) as (_ & _ & Harr).
  apply Harr in Hin. subst arr. unfold entries_of in HX.
  apply list_elem_of_fmap in HX as [o [-> Ho]].
  apply list_elem_of_filter in Ho as [Hk Ho].
  unfold passing in Ho. apply list_elem_of_filter in Ho as [Ht Ho].
  apply list_elem_of_fmap in Ho as [[ei pack] [-> Ho]].
  simpl in *. exists pack. repeat split; assumption.
Qed.

(** An arrival that passes the filter sits in the group of its key. *)
Lemma group_of_arrival rt arrivals X pack :
  (X, pack) ∈ arrivals ->
  truthy_key (devNameVer (selectResult f X pack)) = true ->
  ∃ arr, (devNameVer (selectResult f X pack), arr) ∈ groupedOutput f rt arrivals
         ∧ arr = entries_of (devNameVer (selectResult f X pack))
                   (passing f arrivals)
         ∧ X ∈ arr.
Proof.
  intros Hin Ht. rewrite groupedOutput_spec.
  destruct (groups_after_spec (passing f arrivals)) as (_ & Hkeys & Harr).
  set (o := selectResult f X pack) in *.
  assert (Ho : o ∈ passing f arrivals).
  { unfold passing. apply list_elem_of_filter. split; [exact Ht|].
    apply list_elem_of_fmap. exists (X, pack). split; [reflexivity|exact Hin]. }
  assert (Hk : devNameVer o ∈ map fst (groups_after [] (passing f arrivals))).
  { apply Hkeys. exists o. split; [exact Ho | reflexivity]. }
  apply list_elem_of_fmap in Hk as [[k arr] [Hk Hg]]. simpl in Hk. subst k.
  exists arr. split; [exact Hg|]. pose proof (Harr _ _ Hg) as ->.
  split; [reflexivity|]. unfold entries_of. apply list_elem_of_fmap.
  exists o. split; [reflexivity|]. apply list_elem_of_filter.
  split; [reflexivity | exact Ho].
Qed.

End ExtractionFacts.

(** C2. Two scanned entries that pass key extraction and agree on device,
    name and version end up in one group; when they agree on name and
    version and differ in device no group holds both, and every group holds
    entries of one device only.  The key function is a parameter: what is
    asked of it is that the key determines the device. *)
Theorem C2_grouping_by_device_name_version
    (f : Z -> json -> json -> string)
    (Hdev : ∀ d1 n1 v1 d2 n2 v2, f d1 n1 v1 = f d2 n2 v2 -> d1 = d2)
    (rt : RtEnv) (arrivals : list (EntryInfo * json))
    (A B : EntryInfo) (packA packB : json) :
  (A, packA) ∈ arrivals -> (B, packB) ∈ arrivals ->
  truthy_key (devNameVer (selectResult f A packA)) = true ->
  truthy_key (devNameVer (selectResult f B packB)) = true ->
  let out := groupedOutput f rt arrivals in
  (dev (stat A) = dev (stat B)
   ∧ prop "name" packA = prop "name" packB
   ∧ prop "version" packA = prop "version" packB ->
   ∃ k arr, (k, arr) ∈ out ∧ A ∈ arr ∧ B ∈ arr)
  ∧ (prop "name" packA = prop "name" packB
     ∧ prop "version" packA = prop "version" packB
     ∧ dev (stat A) ≠ dev (stat B) ->
     ¬ ∃ k arr, (k, arr) ∈ out ∧ A ∈ arr ∧ B ∈ arr)
  ∧ (∀ k arr X Y, (k, arr) ∈ out -> X ∈ arr -> Y ∈ arr ->
       dev (stat X) = dev (stat Y)).
Proof.
  intros HA HB HtA HtB out.
  assert (Hhom : ∀ k arr X Y, (k, arr) ∈ out -> X ∈ arr -> Y ∈ arr ->
                   dev (stat X) = dev (stat Y)).
  { intros k arr X Y Hin HX HY.
    destruct (group_member_origin f rt arrivals k arr X Hin HX)
      as (pX & _ & HtX & HkX).
    destruct (group_member_origin f rt arrivals k arr Y Hin HY)
      as (pY & _ & HtY & HkY).
    destruct (selectResult_truthy f X pX HtX) as (n & v & _ & _ & _ & _ & _ & EX).
    destruct (selectResult_truthy f Y pY HtY) as (n' & v' & _ & _ & _ & _ & _ & EY).
    rewrite EX in HkX. rewrite EY in HkY. subst k.
    injection HkY as HkY. symmetry in HkY. exact (Hdev _ _ _ _ _ _ HkY). }
  split; [|split].
  - intros (Hd & Hn & Hv).
    destruct (group_of_arrival f rt arrivals A packA HA HtA) as (arr & Hin & _ & HAin).
    destruct (group_of_arrival f rt arrivals B packB HB HtB) as (arr' & Hin' & Harr' & HBin).
    destruct (selectResult_truthy f A packA HtA) as (n & v & _ & Hn1 & _ & Hv1 & _ & EA).
    destruct (selectResult_truthy f B packB HtB) as (n' & v' & _ & Hn2 & _ & Hv2 & _ & EB).
    assert (Hkey : devNameVer (selectResult f B packB)
                   = devNameVer (selectResult f A packA)).
    { rewrite EA, EB. rewrite Hn1 in Hn. rewrite Hn2 in Hn. rewrite Hv1 in Hv.
      rewrite Hv2 in Hv. injection Hn as ->. injection Hv as ->.
      rewrite Hd. reflexivity. }
    rewrite Hkey in Hin'.
    exists (devNameVer (selectResult f A packA)), arr.
    split; [exact Hin|]. split; [exact HAin|].
    unfold out in *. rewrite groupedOutput_spec in Hin, Hin'.
    destruct (groups_after_spec (passing f arrivals)) as (_ & _ & Harr).
    rewrite (Harr _ _ Hin). rewrite <- (Harr _ _ Hin'). exact HBin.
  - intros (_ & _ & Hd) (k & arr & Hin & HAin & HBin).
    apply Hd. exact (Hhom k arr A B Hin HAin HBin).
  - exact Hhom.
Qed.

(** C5, as stated, fails: a manifest that parses and has both fields, the
    name being the empty string, is dropped; nothing is counted and
    nothing is grouped. *)
Lemma C5_counterexample_empty_name :
  let pack := mkPack "" "1.0.0" in
  let st := keyed_init rt0 in
  let st' := onPack formatDevNameVersion_model st (mkEntry 5 "/r/node_modules/a") pack in
  prop "name" pack = Some (JStr "")
  ∧ prop "version" pack = Some (JStr "1.0.0")
  ∧ packageCount (k_rtenv st') ≠ packageCount (k_rtenv st) + 1
  ∧ groups (k_grouper st') = [].
Proof. vm_compute. repeat split; congruence. Qed.

(** C5, amended.  A manifest that does not parse ([null]), or is falsy, or
    whose name or version is missing or falsy, is dropped without a trace:
    state, counter and groups stay as they are.  A manifest with truthy name
    and version, whose key is not empty, is counted once, by
    [rtenv.packageCount += 1], which adds exactly one as long as the counter
    is an integer from -2^53 to 2^53 - 1 and leaves a counter of 2^53 as it
    is, logged with the new count, and pushed to the group of the key
    computed from the device of the file's stat and the two fields.  In both
    cases the settled read raises no error and the pipeline is not stopped
    by it. *)
Theorem C5_manifest_dropped_or_keyed
    (f : Z -> json -> json -> string) (st : Keyed) (ei : EntryInfo) (pack : json)
    (Hs : stopped (k_grouper st) = false) :
  (truthy pack = false
   ∨ truthy_opt (prop "name" pack) = false
   ∨ truthy_opt (prop "version" pack) = false ->
   onPack f st ei pack = st)
  ∧ (∀ n v, truthy pack = true ->
       prop "name" pack = Some n -> truthy n = true ->
       prop "version" pack = Some v -> truthy v = true ->
       f (dev (stat ei)) n v ≠ "" ->
       let k := Some (f (dev (stat ei)) n v) in
       let c := js_succ (packageCount (k_rtenv st)) in
       onPack f st ei pack
       = {| k_rtenv := set_packageCount c (k_rtenv st);
            k_log := k_log st ++ [(c, {| entryInfo := ei; devNameVer := k |})];
            k_grouper := {| groups := group_push k ei (groups (k_grouper st));
                            stopped := false |} |}
       ∧ (- two53 <= packageCount (k_rtenv st) < two53 ->
          c = packageCount (k_rtenv st) + 1)
       ∧ (packageCount (k_rtenv st) = two53 -> c = two53))
  ∧ (∀ config s id,
       keyed s = st -> status s = Running ->
       let '(s', out) := scan_step f config s (ReadSettled id (Resolved pack)) in
       (Failed ∉ out) ∧ status s' ≠ Errored).
Proof.
  split; [|split].
  - intros H. apply onPack_dropped. rewrite (selectResult_null f ei pack H).
    reflexivity.
  - intros n v Hp Hn Htn Hv Htv Hk k c.
    assert (E : selectResult f ei pack = {| entryInfo := ei; devNameVer := k |}).
    { unfold selectResult. rewrite Hp, Hn, Hv, Htn, Htv. reflexivity. }
    split; [|split; [apply js_succ_exact | intros E2; unfold c; rewrite E2;
                                          apply js_succ_stays]].
    rewrite onPack_passing; [rewrite E; reflexivity | exact Hs |].
    rewrite E. simpl. apply negb_true_iff. apply String.eqb_neq. exact Hk.
  - intros config s id Hk Hr. unfold scan_step. rewrite Hr.
    destruct (find_read id (activeReads s)) as [ei'|];
      [|split; [apply not_elem_of_nil | rewrite Hr; discriminate]].
    unfold read_completed; simpl.
    destruct (readBuffer s) as [|e0 rest]; simpl.
    + destruct (remove_read id (activeReads s)); simpl.
      * destruct (walkDone s); simpl.
        -- unfold finish; simpl. unfold grouper_step.
           destruct (stopped (k_grouper (onPack f (keyed s) ei' pack))); simpl.
           ++ split; [apply not_elem_of_nil | discriminate].
           ++ split; [|discriminate]. rewrite flat_map_app. simpl.
              intros Hin. apply elem_of_app in Hin as [Hin|Hin].
              ** apply list_elem_of_In in Hin. apply in_flat_map in Hin.
                 destruct Hin as [x [Hx Hin]]. apply in_map_iff in Hx.
                 destruct Hx as [g [<- _]]. simpl in Hin.
                 destruct Hin as [Hin|[]]. discriminate.
              ** apply list_elem_of_singleton in Hin. discriminate.
        -- split; [apply not_elem_of_nil | rewrite Hr; discriminate].
      * split; [apply not_elem_of_nil | rewrite Hr; discriminate].
    + unfold offer_read; simpl.
      destruct (Nat.ltb _ _); simpl.
      * split; [|rewrite Hr; discriminate]. intros Hin.
        apply list_elem_of_singleton in Hin. discriminate.
      * split; [apply not_elem_of_nil | rewrite Hr; discriminate].
Qed.

(** C10. A manifest whose name or version is missing or present but falsy
    (the empty string, for one) gets the key [null]; it is dropped before
    the counter and the grouper, and the run goes on as if it had never
    arrived. *)
Theorem C10_falsy_field_is_discarded
    (f : Z -> json -> json -> string) (rt : RtEnv) (ei : EntryInfo) (pack : json)
    (l1 l2 : list (EntryInfo * json)) :
  truthy_opt (prop "name" pack) = false
  ∨ truthy_opt (prop "version" pack) = false ->
  devNameVer (selectResult f ei pack) = None
  ∧ (∀ st, onPack f st ei pack = st)
  ∧ onPacks f (keyed_init rt) (l1 ++ (ei, pack) :: l2)
    = onPacks f (keyed_init rt) (l1 ++ l2)
  ∧ groupedOutput f rt (l1 ++ (ei, pack) :: l2) = groupedOutput f rt (l1 ++ l2).
Proof.
  intros H.
  assert (Hnull : devNameVer (selectResult f ei pack) = None)
    by (apply selectResult_null; right; exact H).
  assert (Hdrop : ∀ st, onPack f st ei pack = st)
    by (intros st; apply onPack_dropped; rewrite Hnull; reflexivity).
  assert (Hrun : onPacks f (keyed_init rt) (l1 ++ (ei, pack) :: l2)
                 = onPacks f (keyed_init rt) (l1 ++ l2)).
  { unfold onPacks. rewrite !fold_left_app. simpl. rewrite Hdrop. reflexivity. }
  repeat split; try assumption.
  unfold groupedOutput. rewrite Hrun. reflexivity.
Qed.

(** ** The pipeline under cancellation *)

Section PipelineFacts.

Variable f : Z -> json -> json -> string.
Variable config : Config.

Lemma repeat_destroy_no_read id n :
  Forall (fun o => is_read_out o = false) (repeat (DoDestroy id) n).
Proof. induction n; simpl; constructor; auto. Qed.

Lemma flush_no_read (gs : list Group) :
  Forall (fun o => is_read_out o = false)
    (flat_map (fun n => match n with
                        | Next grp => [Emit grp]
                        | Complete => [Done]
                        | Error => [Failed]
                        end) (map Next gs ++ [@Complete Group])).
Proof.
  rewrite flat_map_app. apply Forall_app. split.
  - induction gs; simpl; constructor; auto.
  - simpl. constructor; auto.
Qed.

Lemma finish_walk_only s : walk_only s (finish s).1 (finish s).2.
Proof.
  unfold finish, grouper_step.
  destruct (stopped (k_grouper (keyed s))); simpl;
    repeat split; auto using flush_no_read.
Qed.

Lemma walk_completed_walk_only s :
  walk_only s (walk_completed s).1 (walk_completed s).2.
Proof.
  unfold walk_completed.
  destruct (activeReads s) eqn:Ha, (readBuffer s) eqn:Hb; simpl;
    try (repeat split; auto; fail).
  match goal with |- walk_only _ (finish ?t).1 _ =>
    pose proof (finish_walk_only t) as (H1 & H2 & H3 & H4 & H5) end.
  simpl in *. repeat split; auto; congruence.
Qed.

Lemma offer_root_walk_only r s :
  walk_only s (offer_root config r s).1 (offer_root config r s).2.
Proof.
  unfold offer_root, start_root.
  destruct (Nat.ltb _ _); simpl; repeat split; auto.
  - constructor; [reflexivity | apply repeat_destroy_no_read].
  - intros Harm x Hx. simpl in *. apply elem_of_app in Hx as [Hx|Hx].
    + apply elem_of_app. left. apply Harm, Hx.
    + apply elem_of_app. right. exact Hx.
Qed.

Lemma remove_nat_subset x l y : y ∈ remove_nat x l -> y ∈ l.
Proof. unfold remove_nat. intros H. apply list_elem_of_filter in H. tauto. Qed.

Lemma root_completed_walk_only x s :
  walk_only s (root_completed config x s).1 (root_completed config x s).2.
Proof.
  unfold root_completed. simpl.
  destruct (rootBuffer s) as [|r rest] eqn:Hb.
  - destruct (remove_nat x (activeRoots s)) eqn:Hr.
    + match goal with |- walk_only _ (walk_completed ?t).1 _ =>
        pose proof (walk_completed_walk_only t) as (H1 & H2 & H3 & H4 & H5) end.
      simpl in *. repeat split; auto. intros Harm. apply H5.
      intros y Hy. simpl in Hy. inversion Hy.
    + simpl. repeat split; auto. intros Harm y Hy. simpl in *.
      rewrite <- Hr in Hy. apply Harm. eapply remove_nat_subset, Hy.
  - match goal with |- walk_only _ (offer_root _ _ ?t).1 _ =>
      pose proof (offer_root_walk_only r t) as (H1 & H2 & H3 & H4 & H5) end.
    simpl in *. repeat split; auto. intros Harm. apply H5.
    intros y Hy. simpl in *. apply Harm. eapply remove_nat_subset, Hy.
Qed.



















End PipelineFacts.



(** ** The pipeline and the grouping of its arrivals *)

Section LinkFacts.

Variable f : Z -> json -> json -> string.
Variable config : Config.

Lemma silent_nil : silent [].
Proof. split; [intros g|]; apply not_elem_of_nil. Qed.

Lemma quiet_silent s s' out :
  keyed s' = keyed s -> status s' = status s -> silent out ->
  quiet s (s', out).
Proof.
  intros Hk Hs [He Hd]. unfold quiet. simpl. rewrite Hk, Hs.
  split; [reflexivity|]. split; [auto|]. split.
  - intros g H. exfalso. eapply He, H.
  - intros H. contradiction.
Qed.

Lemma quiet_eq s1 s r :
  keyed s1 = keyed s -> status s1 = status s -> quiet s1 r -> quiet s r.
Proof. unfold quiet. intros -> ->. auto. Qed.

Lemma emit_in_flush (gs : list Group) g :
  Emit g ∈ flat_map (fun n => match n with
                              | Next grp => [Emit grp]
                              | Complete => [Done]
                              | Error => [Failed]
                              end) (map Next gs ++ [@Complete Group])
  <-> g ∈ gs.
Proof.
  rewrite flat_map_app, elem_of_app. split.
  - intros [H|H].
    + apply list_elem_of_In, in_flat_map in H as [x [Hx H]].
      apply in_map_iff in Hx as [g' [<- Hg']]. destruct H as [H|[]].
      injection H as ->. apply list_elem_of_In. exact Hg'.
    + apply list_elem_of_singleton in H. discriminate.
  - intros H. left. apply list_elem_of_In, in_flat_map.
    exists (Next g). split; [|left; reflexivity].
    apply in_map, list_elem_of_In, H.
Qed.

Lemma finish_quiet s : quiet s (finish s).
Proof.
  unfold finish, grouper_step, quiet.
  destruct (stopped (k_grouper (keyed s))); simpl;
    (split; [reflexivity|]; split; [discriminate|]; split).
  - intros g H. inversion H.
  - intros H. inversion H.
  - intros g H. split; [reflexivity | apply emit_in_flush, H].
  - intros _. split; [reflexivity|]. intros g H. apply emit_in_flush, H.
Qed.

Lemma walk_completed_quiet s : quiet s (walk_completed s).
Proof.
  unfold walk_completed.
  destruct (activeReads s) eqn:Ha, (readBuffer s) eqn:Hb;
    try (apply quiet_silent; [reflexivity | reflexivity | apply silent_nil]).
  eapply quiet_eq; [| |apply finish_quiet]; reflexivity.
Qed.

Lemma no_emit_in_destroys id n g : Emit g ∉ repeat (DoDestroy id) n.
Proof.
  induction n; simpl; [apply not_elem_of_nil|].
  apply not_elem_of_cons. split; [discriminate | exact IHn].
Qed.

Lemma no_done_in_destroys id n : Done ∉ repeat (DoDestroy id) n.
Proof.
  induction n; simpl; [apply not_elem_of_nil|].
  apply not_elem_of_cons. split; [discriminate | exact IHn].
Qed.

Lemma offer_root_silent r s :
  keyed (offer_root config r s).1 = keyed s
  ∧ status (offer_root config r s).1 = status s
  ∧ silent (offer_root config r s).2.
Proof.
  unfold offer_root, start_root. destruct (Nat.ltb _ _); simpl;
    (split; [reflexivity|]; split; [reflexivity|]);
    [|apply silent_nil].
  split; [intros g|]; (apply not_elem_of_cons; split; [discriminate|]).
  - apply no_emit_in_destroys.
  - apply no_done_in_destroys.
Qed.

Lemma offer_root_quiet r s : quiet s (offer_root config r s).
Proof.
  destruct (offer_root_silent r s) as (H1 & H2 & H3).
  destruct (offer_root config r s) as [s1 o1].
  apply quiet_silent; assumption.
Qed.

Lemma root_completed_quiet x s : quiet s (root_completed config x s).
Proof.
  unfold root_completed. simpl.
  destruct (rootBuffer s) as [|r rest].
  - destruct (remove_nat x (activeRoots s)).
    + eapply quiet_eq; [| |apply walk_completed_quiet]; reflexivity.
    + apply quiet_silent; [reflexivity | reflexivity | apply silent_nil].
  - eapply quiet_eq; [| |apply offer_root_quiet]; reflexivity.
Qed.

Lemma offer_read_quiet ei s : quiet s (offer_read config ei s).
Proof.
  unfold offer_read, start_read.
  destruct (Nat.ltb _ _); apply quiet_silent; try reflexivity;
    [|apply silent_nil].
  split; [intros g|]; (apply not_elem_of_cons; split;
    [discriminate | apply not_elem_of_nil]).
Qed.

Lemma read_completed_quiet id s : quiet s (read_completed config id s).
Proof.
  unfold read_completed. simpl.
  destruct (readBuffer s) as [|e0 rest].
  - destruct (remove_read id (activeReads s)); simpl.
    + destruct (walkDone s).
      * eapply quiet_eq; [| |apply finish_quiet]; reflexivity.
      * apply quiet_silent; [reflexivity | reflexivity | apply silent_nil].
    + apply quiet_silent; [reflexivity | reflexivity | apply silent_nil].
  - eapply quiet_eq; [| |apply offer_read_quiet]; reflexivity.
Qed.

Lemma quiet_lands s r : quiet s r -> lands (keyed s) r.
Proof.
  intros (G1 & G2 & G3 & G4). split; [exact G1|]. split; [|split].
  - intros H. apply G2, H.
  - intros g H. destruct (G3 g H) as [H1 H2]. split; [exact H1|].
    rewrite G1. exact H2.
  - intros H. destruct (G4 H) as [Hc Hall]. split; [exact Hc|].
    intros g Hg. apply Hall. rewrite <- G1. exact Hg.
Qed.

Lemma quiet_here s : lands (keyed s) (s, []).
Proof.
  apply quiet_lands, quiet_silent;
    [reflexivity | reflexivity | apply silent_nil].
Qed.

(** Every step lands on its target. *)
Lemma scan_step_lands s e : lands (target f s e) (scan_step f config s e).
Proof.
  unfold target, arrival_of.
  destruct e as [x ei|x|x|id r|]; simpl.
  - destruct (status s) eqn:Hst; try apply quiet_here.
    destruct (is_active_root x s); [|apply quiet_here].
    destruct (cancelled _); [apply quiet_lands, root_completed_quiet|].
    destruct (keepCandidate ei);
      [apply quiet_lands, offer_read_quiet | apply quiet_here].
  - destruct (status s) eqn:Hst; try apply quiet_here.
    destruct (is_active_root x s); [|apply quiet_here].
    apply quiet_lands, root_completed_quiet.
  - destruct (status s) eqn:Hst; try apply quiet_here.
    destruct (is_active_root x s); [|apply quiet_here].
    apply quiet_lands, root_completed_quiet.
  - destruct r as [pack|].
    + destruct (status s) eqn:Hst; try apply quiet_here.
      destruct (find_read id (activeReads s)) as [ei|];
        [|apply quiet_here].
      match goal with |- lands ?k (read_completed _ _ ?t) =>
        change k with (keyed t) end.
      apply quiet_lands, read_completed_quiet.
    + destruct (status s) eqn:Hst; try apply quiet_here.
      destruct (find_read id (activeReads s)) as [ei|];
        [|apply quiet_here].
      split; [reflexivity|]. split; [discriminate|]. split.
      * intros g H. apply list_elem_of_singleton in H. discriminate.
      * intros H. apply list_elem_of_singleton in H. discriminate.
  - split; [reflexivity|]. split; [reflexivity|]. split.
    + intros g H. apply list_elem_of_fmap in H as [y [Hy _]]. discriminate.
    + intros H. apply list_elem_of_fmap in H as [y [Hy _]]. discriminate.
Qed.

Lemma onPack_grouper_congr st1 st2 ei pack :
  k_grouper st1 = k_grouper st2 ->
  k_grouper (onPack f st1 ei pack) = k_grouper (onPack f st2 ei pack).
Proof.
  intros H. unfold onPack. destruct (truthy_key _); simpl; [|exact H].
  rewrite H. reflexivity.
Qed.

Lemma onPacks_grouper_congr l : ∀ st1 st2,
  k_grouper st1 = k_grouper st2 ->
  k_grouper (onPacks f st1 l) = k_grouper (onPacks f st2 l).
Proof.
  induction l as [|[ei pack] l IH]; intros st1 st2 H; [exact H|].
  unfold onPacks in *. simpl. apply IH. apply onPack_grouper_congr, H.
Qed.

(** A pipeline that has ended stays as it is but for the flag. *)
Lemma scan_step_ended s e :
  status s ≠ Running ->
  status (scan_step f config s e).1 = status s
  ∧ k_grouper (keyed (scan_step f config s e).1) = k_grouper (keyed s)
  ∧ arrival_of s e = None.
Proof.
  intros H. unfold arrival_of.
  destruct e as [x ei|x|x|id r|]; simpl;
    destruct (status s) eqn:Hst; try contradiction; auto;
    destruct r; auto.
Qed.

Lemma scan_arrivals_ended es : ∀ s,
  status s ≠ Running -> scan_arrivals f config s es = [].
Proof.
  induction es as [|e es IH]; intros s H; [reflexivity|].
  destruct (scan_step_ended s e H) as (H1 & _ & H3).
  simpl. rewrite H3. simpl. apply IH. rewrite H1. exact H.
Qed.

Lemma scan_step_live s e :
  grouper_live s -> grouper_live (scan_step f config s e).1.
Proof.
  intros Hl Hr. destruct (scan_step_lands s e) as (_ & G2 & _ & _).
  rewrite (G2 Hr). unfold target.
  destruct (arrival_of s e) as [[ei pack]|] eqn:Ha.
  - apply onPack_running. apply Hl. unfold arrival_of in Ha.
    destruct e; try discriminate. destruct r; try discriminate.
    destruct (status s); try discriminate. reflexivity.
  - apply Hl. destruct (status s) eqn:Hst; [reflexivity| |];
      (destruct (scan_step_ended s e) as (H1 & _ & _);
       [rewrite Hst; discriminate | rewrite Hr, Hst in H1; discriminate]).
Qed.

(** The groups of a run are the grouping of the manifests that arrived
    during it; whatever goes downstream is one of them, and when the run
    completes all of them go downstream. *)
Lemma scan_run_link es : ∀ s,
  grouper_live s ->
  groups (k_grouper (keyed (scan_run f config s es).1))
  = groups (k_grouper (onPacks f (keyed s) (scan_arrivals f config s es)))
  ∧ (∀ g, Emit g ∈ (scan_run f config s es).2 ->
       g ∈ groups (k_grouper (keyed (scan_run f config s es).1)))
  ∧ (Done ∈ (scan_run f config s es).2 ->
     ∀ g, g ∈ groups (k_grouper (keyed (scan_run f config s es).1)) ->
          Emit g ∈ (scan_run f config s es).2).
Proof.
  induction es as [|e es IH]; intros s Hl.
  - simpl. split; [reflexivity|]. split.
    + intros g H. inversion H.
    + intros H. inversion H.
  - pose proof (scan_step_lands s e) as (G1 & G2 & G3 & G4).
    pose proof (scan_step_live s e Hl) as Hl1.
    destruct (IH _ Hl1) as (I1 & I2 & I3).
    assert (Hgroups :
      groups (k_grouper (onPacks f (keyed (scan_step f config s e).1)
                           (scan_arrivals f config (scan_step f config s e).1 es)))
      = groups (k_grouper (onPacks f (target f s e)
                             (scan_arrivals f config (scan_step f config s e).1 es)))).
    { destruct (status (scan_step f config s e).1) eqn:Hst.
      - f_equal. apply onPacks_grouper_congr. apply G2. reflexivity.
      - rewrite scan_arrivals_ended by (rewrite Hst; discriminate).
        exact G1.
      - rewrite scan_arrivals_ended by (rewrite Hst; discriminate).
        exact G1. }
    assert (Hkeep : status (scan_step f config s e).1 ≠ Running ->
      groups (k_grouper (keyed (scan_run f config (scan_step f config s e).1 es).1))
      = groups (k_grouper (keyed (scan_step f config s e).1))).
    { intros Hn. rewrite I1, scan_arrivals_ended by exact Hn. reflexivity. }
    simpl scan_run. simpl scan_arrivals.
    destruct (scan_step f config s e) as [s1 o1] eqn:Hs1. simpl in *.
    destruct (scan_run f config s1 es) as [s2 o2] eqn:Hs2. simpl in *.
    split; [|split].
    + rewrite I1, Hgroups. unfold target.
      destruct (arrival_of s e) as [[ei pack]|]; reflexivity.
    + intros g H. apply elem_of_app in H as [H|H]; [|apply I2, H].
      destruct (G3 g H) as [Hc Hg]. rewrite Hkeep by (rewrite Hc; discriminate).
      exact Hg.
    + intros H g Hg. apply elem_of_app. apply elem_of_app in H as [H|H].
      * left. destruct (G4 H) as [Hc Hall]. apply Hall.
        rewrite <- Hkeep by (rewrite Hc; discriminate). exact Hg.
      * right. apply (I3 H), Hg.
Qed.

Lemma silent_app o1 o2 : silent o1 -> silent o2 -> silent (o1 ++ o2).
Proof.
  intros [A1 A2] [B1 B2]. split; [intros g|]; intros H;
    apply elem_of_app in H as [H|H]; try contradiction;
    [eapply A1, H | eapply B1, H].
Qed.

Lemma offer_roots_silent roots : ∀ s,
  keyed (offer_roots config roots s).1 = keyed s
  ∧ status (offer_roots config roots s).1 = status s
  ∧ silent (offer_roots config roots s).2.
Proof.
  induction roots as [|r roots IH]; intros s; simpl.
  - repeat split; [intros g|]; apply not_elem_of_nil.
  - destruct (offer_root_silent r s) as (A1 & A2 & A3).
    destruct (offer_root config r s) as [s1 o1]. simpl in *.
    destruct (IH s1) as (B1 & B2 & B3).
    destruct (offer_roots config roots s1) as [s2 o2]. simpl in *.
    split; [congruence|]. split; [congruence|].
    apply silent_app; assumption.
Qed.

Lemma subscribe_lands rt n roots :
  lands (keyed_init rt) (findPackagesGrouped config rt n roots)
  ∧ grouper_live (findPackagesGrouped config rt n roots).1.
Proof.
  unfold findPackagesGrouped.
  match goal with |- context [offer_roots config roots ?t] =>
    destruct (offer_roots_silent roots t) as (A1 & A2 & [A3 A4]);
    destruct (offer_roots config roots t) as [s1 o1] end.
  simpl in A1, A2, A3, A4.
  assert (Hplain : lands (keyed_init rt) (s1, o1) ∧ grouper_live (s1, o1).1).
  { split.
    - unfold lands. simpl. rewrite A1.
      split; [reflexivity|]. split; [reflexivity|]. split.
      + intros g H. exfalso. eapply A3, H.
      + intros H. contradiction.
    - intros _. simpl. rewrite A1. reflexivity. }
  destruct (activeRoots s1), (rootBuffer s1); try exact Hplain.
  pose proof (walk_completed_quiet s1) as (B1 & B2 & B3 & B4).
  destruct (walk_completed s1) as [s2 o2]. simpl in *. split.
  - unfold lands. simpl. split; [rewrite B1, A1; reflexivity|].
    split; [|split].
    + intros H. destruct (B2 H) as [_ ->]. rewrite A1. reflexivity.
    + intros g H. apply elem_of_app in H as [H|H]; [exfalso; eapply A3, H|].
      destruct (B3 g H) as [H1 H2]. split; [exact H1|].
      rewrite B1. exact H2.
    + intros H. apply elem_of_app in H as [H|H]; [contradiction|].
      destruct (B4 H) as [Hc Hall]. split; [exact Hc|].
      intros g Hg. apply elem_of_app. right. apply Hall.
      rewrite <- B1. exact Hg.
  - intros H. simpl in H. destruct (B2 H) as [_ E]. rewrite E, A1.
    reflexivity.
Qed.

(** What [findPackagesGrouped] sends to its subscriber is a group of the
    grouping of the manifests that arrived, and when it completes it has
    sent every one of them. *)
Lemma pipeline_emits_grouped rt n roots es :
  let r0 := findPackagesGrouped config rt n roots in
  let out := r0.2 ++ (scan_run f config r0.1 es).2 in
  let grouped := groupedOutput f rt (scan_arrivals f config r0.1 es) in
  (∀ g, Emit g ∈ out -> g ∈ grouped)
  ∧ (Done ∈ out -> ∀ g, g ∈ grouped -> Emit g ∈ out).
Proof.
  intros r0 out grouped.
  destruct (subscribe_lands rt n roots) as [(L1 & L2 & L3 & L4) Hl].
  fold r0 in L1, L2, L3, L4, Hl.
  destruct (scan_run_link es r0.1 Hl) as (I1 & I2 & I3).
  assert (Hg : groups (k_grouper (keyed (scan_run f config r0.1 es).1))
               = grouped).
  { rewrite I1. unfold grouped, groupedOutput.
    destruct (status r0.1) eqn:Hst.
    - rewrite (onPacks_grouper_congr _ _ _ (L2 eq_refl)). reflexivity.
    - rewrite scan_arrivals_ended by (rewrite Hst; discriminate).
      exact L1.
    - rewrite scan_arrivals_ended by (rewrite Hst; discriminate).
      exact L1. }
  split.
  - intros g H. apply elem_of_app in H as [H|H].
    + destruct (L3 g H) as [_ Hin]. rewrite L1 in Hin. inversion Hin.
    + rewrite <- Hg. apply I2, H.
  - intros H g Hin. apply elem_of_app. apply elem_of_app in H as [H|H].
    + left. destruct (L4 H) as [Hc Hall]. apply Hall.
      rewrite <- Hg in Hin. rewrite I1 in Hin.
      rewrite scan_arrivals_ended in Hin by (rewrite Hc; discriminate).
      exact Hin.
    + right. apply (I3 H). rewrite Hg. exact Hin.
Qed.

End LinkFacts.

(** C3. While keyed entries arrive the grouper sends nothing downstream;
    when the keyed-entry stream completes it sends, in that one step, one
    pair per distinct key seen and then its own completion, and the array
    of a pair holds every entry seen for its key, in arrival order.  In
    the pipeline likewise: a step in which a group goes downstream is a
    step that completes the pipeline. *)
Theorem C3_grouper_flushes_once_on_completion (l : list EiDN) :
  grouper_run grouper_init (map Next l) = repeat [] (List.length l)
  ∧ ∃ gs : list Group,
      grouper_run grouper_init (map Next l ++ [Complete])
      = repeat [] (List.length l) ++ [map Next gs ++ [Complete]]
      ∧ NoDup (map fst gs)
      ∧ (∀ k, k ∈ map fst gs <-> ∃ e, e ∈ l ∧ devNameVer e = k)
      ∧ (∀ k arr, (k, arr) ∈ gs ->
           arr = map entryInfo (filter (fun e => devNameVer e = k) l))
      ∧ (∀ f config s e g,
           Emit g ∈ (scan_step f config s e).2 ->
           status (scan_step f config s e).1 = Completed).
Proof.
  split; [apply grouper_run_nexts|].
  exists (groups_after [] l). split.
  - rewrite grouper_run_app. unfold grouper_init.
    rewrite grouper_run_nexts, grouper_fold_nexts. reflexivity.
  - destruct (groups_after_spec l) as (H1 & H2 & H3).
    repeat split; try assumption; try apply H2.
    intros f config s e g H.
    destruct (scan_step_lands f config s e) as (_ & _ & G3 & _).
    apply (G3 g H).
Qed.

(** ** The end of a run *)

Section CliFacts.

Variable sortObjKeys : Store -> Store.
Variable argv : Argv.
Variable isTTY : bool.
Variable REFS_PATH : string.

Lemma count_app p o1 o2 : count p (o1 ++ o2) = (count p o1 + count p o2)%nat.
Proof. unfold count. rewrite List.filter_app, length_app. reflexivity. Qed.

Ltac crunch :=
  repeat match goal with
         | |- context [if ?b then _ else _] => destruct b eqn:?
         end; simpl in *; try congruence; try lia.

(** One call of the once-wrapped [finalTasks] uses up the budget of its
    marks and of its writes. *)
Lemma step_final_budget c e :
  let r := cli_step sortObjKeys argv isTTY REFS_PATH c e in
  (count is_final_mark r.2 + budget (finalTasks_called r.1)
   <= budget (finalTasks_called c))%nat
  ∧ (count is_write r.2 + budget (finalTasks_called r.1)
     <= budget (finalTasks_called c))%nat.
Proof.
  destruct c as [rt h nx fs orig ca fi si st ex su].
  destruct e; unfold cli_step, finalTasks, cancel, finalTasks_body,
    cancel_body, isTermOut, count, budget; simpl; split; crunch.
Qed.

Lemma step_cancel_budget c e :
  let r := cli_step sortObjKeys argv isTTY REFS_PATH c e in
  (count is_cancel_mark r.2 + budget (cancel_called r.1)
   <= budget (cancel_called c))%nat.
Proof.
  destruct c as [rt h nx fs orig ca fi si st ex su].
  destruct e; unfold cli_step, finalTasks, cancel, finalTasks_body,
    cancel_body, isTermOut, count, budget; simpl; crunch.
Qed.

Lemma run_budgets es : ∀ c,
  let r := cli_run sortObjKeys argv isTTY REFS_PATH c es in
  (count is_final_mark r.2 <= budget (finalTasks_called c))%nat
  ∧ (count is_write r.2 <= budget (finalTasks_called c))%nat
  ∧ (count is_cancel_mark r.2 <= budget (cancel_called c))%nat.
Proof.
  induction es as [|e es IH]; intros c; simpl.
  - unfold count; simpl. repeat split; lia.
  - destruct (step_final_budget c e) as [F1 F2].
    pose proof (step_cancel_budget c e) as F3.
    destruct (cli_step _ _ _ _ c e) as [c1 o1]. simpl in *.
    destruct (IH c1) as (G1 & G2 & G3).
    destruct (cli_run _ _ _ _ c1 es) as [c2 o2]. simpl in *.
    rewrite !count_app. repeat split; lia.
Qed.



End CliFacts.

(** C9. Whatever events reach the process, and however often, the body of
    [finalTasks] and the body of [cancel] run at most once each in an
    invocation, and the reference-store file is written at most once. *)
Theorem C9_bodies_run_at_most_once
    (sortObjKeys : Store -> Store) (defaultRTEnv : RtEnv) (argv : Argv)
    (isTTY : bool) (REFS_PATH : string) (fs : gmap string Content)
    (es : list CliEvent) :
  let out := (invocation sortObjKeys defaultRTEnv argv isTTY REFS_PATH fs es).2 in
  (count is_final_mark out <= 1)%nat
  ∧ (count is_cancel_mark out <= 1)%nat
  ∧ (count is_write out <= 1)%nat.
Proof.
  unfold invocation.
  destruct (startup defaultRTEnv argv isTTY REFS_PATH fs) as [c0 o0] eqn:Hs.
  assert (H0 : finalTasks_called c0 = false ∧ cancel_called c0 = false
               ∧ count is_final_mark o0 = 0%nat
               ∧ count is_cancel_mark o0 = 0%nat
               ∧ count is_write o0 = 0%nat).
  { unfold startup in Hs. injection Hs as <- <-. unfold count, isTermOut.
    destruct (isTTY && negb (gen_ln_cmds argv)); simpl; repeat split. }
  destruct H0 as (Hf & Hc & Z1 & Z2 & Z3).
  destruct (run_budgets sortObjKeys argv isTTY REFS_PATH es c0) as (G1 & G2 & G3).
  destruct (cli_run sortObjKeys argv isTTY REFS_PATH c0 es) as [c1 o1].
  simpl in *. rewrite Hf, Hc in *. simpl in *.
  rewrite !count_app. repeat split; lia.
Qed.



(** ** The write-back of the reference store *)



Section StoreWriteFacts.

Variable sortObjKeys : Store -> Store.
Variable argv : Argv.
Variable isTTY : bool.
Variable REFS_PATH : string.
Hypothesis Hdry : dryrun argv = false.
Hypothesis Hgen : gen_ln_cmds argv = false.





End StoreWriteFacts.



(** ** The two path filters *)

Section PathFacts.

Lemma chars_app a b : chars (a +:+ b) = chars a ++ chars b.
Proof. induction a as [|c a IH]; simpl; [reflexivity | f_equal; exact IH]. Qed.

Lemma chars_inj a b : chars a = chars b -> a = b.
Proof.
  intros H. rewrite <- (string_of_list_ascii_of_string a),
    <- (string_of_list_ascii_of_string b). unfold chars in H. rewrite H.
  reflexivity.
Qed.

Lemma is_sep_slash c : Path.is_slash c = true -> is_sep c = true.
Proof. unfold Path.is_slash, is_sep. intros ->. apply orb_true_r. Qed.

Lemma valid_name_inv s :
  valid_name s = true ->
  chars s ≠ [] ∧ Forall (fun c => is_sep c = false) (chars s).
Proof.
  unfold valid_name. intros H. apply andb_true_iff in H as [H1 H2]. split.
  - destruct s; [discriminate | simpl; discriminate].
  - apply Forall_forall. intros c Hc.
    rewrite forallb_forall in H2. apply list_elem_of_In in Hc.
    specialize (H2 c Hc). apply negb_true_iff in H2. exact H2.
Qed.

Lemma append_empty_r s : s +:+ "" = s.
Proof.
  induction s as [|c s IH]; [reflexivity|].
  change (String c (s +:+ "") = String c s). f_equal; exact IH.
Qed.

Lemma append_assoc_str a b c : (a +:+ b) +:+ c = a +:+ (b +:+ c).
Proof.
  induction a as [|x a IH]; [reflexivity|].
  change (String x ((a +:+ b) +:+ c) = String x (a +:+ (b +:+ c))).
  f_equal; exact IH.
Qed.

Lemma join_segs_snoc pre x :
  join_segs (pre ++ [x]) = join_segs pre +:+ "/" +:+ x.
Proof.
  induction pre as [|s pre IH].
  - simpl. rewrite append_empty_r. reflexivity.
  - cbn [app join_segs]. rewrite IH.
    change ("/" +:+ s +:+ join_segs pre +:+ "/" +:+ x)
      with (String "/" (s +:+ (join_segs pre +:+ String "/" x))).
    change (("/" +:+ s +:+ join_segs pre) +:+ "/" +:+ x)
      with (String "/" ((s +:+ join_segs pre) +:+ String "/" x)).
    rewrite append_assoc_str. reflexivity.
Qed.

Lemma abs_path_snoc pre x :
  chars (abs_path (pre ++ [x])) = chars (join_segs pre) ++ "/"%char :: chars x.
Proof.
  assert (E : abs_path (pre ++ [x]) = join_segs (pre ++ [x]))
    by (destruct pre; reflexivity).
  rewrite E, join_segs_snoc, chars_app. reflexivity.
Qed.

(** Past the characters of a name, the scan of [dirname] stops at the
    slash before it. *)
Lemma dirname_scan_name Xr R :
  Forall (fun c => is_sep c = false) Xr ->
  Path.dirname_scan (Xr ++ "/"%char :: R) false
  = match R with [] => None | _ :: _ => Some R end.
Proof.
  induction Xr as [|c Xr IH]; intros HX.
  - destruct R; reflexivity.
  - apply Forall_cons in HX as [Hc HX]. simpl.
    assert (Hs : Path.is_slash c = false).
    { destruct (Path.is_slash c) eqn:E; [|reflexivity].
      apply is_sep_slash in E. congruence. }
    rewrite Hs. destruct (Xr ++ "/"%char :: R) eqn:E.
    + destruct Xr; discriminate.
    + apply IH, HX.
Qed.

Lemma dirname_scan_path X R :
  X ≠ [] -> Forall (fun c => is_sep c = false) X ->
  Path.dirname_scan (rev X ++ "/"%char :: R) true
  = match R with [] => None | _ :: _ => Some R end.
Proof.
  intros Hne HX.
  assert (HXr : Forall (fun c => is_sep c = false) (rev X))
    by (apply Forall_rev; exact HX).
  destruct (rev X) as [|c Xr] eqn:E.
  - exfalso. apply Hne. apply (f_equal (@rev ascii)) in E.
    rewrite rev_involutive in E. exact E.
  - apply Forall_cons in HXr as [Hc HXr]. simpl.
    assert (Hs : Path.is_slash c = false).
    { destruct (Path.is_slash c) eqn:E'; [|reflexivity].
      apply is_sep_slash in E'. congruence. }
    rewrite Hs. destruct (Xr ++ "/"%char :: R) eqn:E'.
    + destruct Xr; discriminate.
    + rewrite <- E'. apply dirname_scan_name, HXr.
Qed.

Lemma join_segs_chars pre :
  Forall (fun s => valid_name s = true) pre ->
  pre = [] ∨ ∃ c t, chars (join_segs pre) = "/"%char :: c :: t.
Proof.
  intros Hv. destruct pre as [|s pre]; [left; reflexivity|]. right.
  apply Forall_cons in Hv as [Hs _].
  apply valid_name_inv in Hs as [Hne _]. simpl.
  destruct s as [|c s]; [exfalso; apply Hne; reflexivity|].
  simpl. eauto.
Qed.

Lemma dirname_root X :
  X ≠ [] -> Forall (fun c => is_sep c = false) X ->
  Path.dirname (string_of_list_ascii ("/"%char :: X)) = "/".
Proof.
  intros Hne HX. unfold Path.dirname.
  rewrite list_ascii_of_string_of_list_ascii.
  change (rev ("/"%char :: X)) with (rev X ++ "/"%char :: []).
  rewrite dirname_scan_path by assumption. reflexivity.
Qed.

Lemma dirname_deep p0 P' X :
  Path.is_slash p0 = true -> P' ≠ [] ->
  X ≠ [] -> Forall (fun c => is_sep c = false) X ->
  Path.dirname (string_of_list_ascii ((p0 :: P') ++ "/"%char :: X))
  = string_of_list_ascii (p0 :: P').
Proof.
  intros Hp HP Hne HX. unfold Path.dirname.
  rewrite list_ascii_of_string_of_list_ascii. cbn [app]. rewrite Hp.
  change (p0 :: P' ++ "/"%char :: X) with ((p0 :: P') ++ "/"%char :: X).
  rewrite rev_app_distr.
  change (rev ("/"%char :: X)) with (rev X ++ ["/"%char]).
  rewrite <- app_assoc.
  change (["/"%char] ++ rev (p0 :: P')) with ("/"%char :: rev (p0 :: P')).
  rewrite dirname_scan_path by assumption.
  assert (Hlen : List.length (rev (p0 :: P')) = S (List.length P'))
    by (rewrite length_rev; reflexivity).
  destruct (rev (p0 :: P')) as [|r0 R] eqn:ER; [discriminate|].
  assert (Hn1 : Nat.eqb (List.length (r0 :: R)) 1 = false).
  { rewrite Hlen. destruct P'; [contradiction | reflexivity]. }
  rewrite Hn1. cbn [andb]. rewrite <- ER, rev_involutive. reflexivity.
Qed.

(** [dirname] drops the last name of a normalized path. *)
Lemma dirname_abs_path pre x :
  Forall (fun s => valid_name s = true) pre -> valid_name x = true ->
  Path.dirname (abs_path (pre ++ [x])) = abs_path pre.
Proof.
  intros Hpre Hx. apply valid_name_inv in Hx as [Hne HX].
  assert (Hstr : abs_path (pre ++ [x])
                 = string_of_list_ascii
                     (chars (join_segs pre) ++ "/"%char :: chars x)).
  { rewrite <- abs_path_snoc. unfold chars. symmetry.
    apply string_of_list_ascii_of_string. }
  rewrite Hstr.
  destruct (join_segs_chars pre Hpre) as [->|(c & t & E)].
  - apply dirname_root; assumption.
  - rewrite E. rewrite dirname_deep; try assumption; try reflexivity;
      try discriminate.
    rewrite <- E. unfold chars. rewrite string_of_list_ascii_of_string.
    destruct pre; [discriminate | reflexivity].
Qed.

Lemma test_suffix a : ENDS_NODE_MOD_RE_test (a +:+ "/node_modules") = true.
Proof.
  induction a as [|c a IH]; simpl; [reflexivity|].
  rewrite IH. apply orb_true_r.
Qed.

Lemma test_inv s :
  ENDS_NODE_MOD_RE_test s = true ->
  ∃ a c, s = a +:+ String c "node_modules" ∧ is_sep c = true.
Proof.
  induction s as [|c s IH]; simpl; [discriminate|].
  intros H. apply orb_true_iff in H as [H|H].
  - apply andb_true_iff in H as [Hc Hs]. apply String.eqb_eq in Hs.
    subst s. exists "", c. split; [reflexivity | exact Hc].
  - destruct (IH H) as (a & c' & -> & Hc').
    exists (String c a), c'. split; [reflexivity | exact Hc'].
Qed.

(** What follows the last separator of a string is determined. *)
Lemma after_last_sep (A A' W W' : list ascii) c c' :
  A ++ c :: W = A' ++ c' :: W' ->
  is_sep c = true -> is_sep c' = true ->
  Forall (fun x => is_sep x = false) W ->
  Forall (fun x => is_sep x = false) W' ->
  W = W'.
Proof.
  revert A'. induction A as [|d A IH]; intros [|d' A'] E Hc Hc' HW HW';
    simpl in E; injection E as E1 E2.
  - exact E2.
  - exfalso. subst. rewrite Forall_app in HW. destruct HW as [_ HW].
    apply Forall_cons in HW as [HW _]. congruence.
  - exfalso. subst. rewrite Forall_app in HW'. destruct HW' as [_ HW'].
    apply Forall_cons in HW' as [HW' _]. congruence.
  - eapply IH; eassumption.
Qed.

Lemma node_modules_sep_free :
  Forall (fun x => is_sep x = false) (chars "node_modules").
Proof. repeat constructor. Qed.

(** On a normalized path the test holds exactly when the last name is
    [node_modules]. *)
Lemma test_abs_path segs :
  Forall (fun s => valid_name s = true) segs ->
  (ENDS_NODE_MOD_RE_test (abs_path segs) = true
   <-> ∃ pre, segs = pre ++ ["node_modules"]).
Proof.
  intros Hv. split.
  - intros Ht. destruct segs as [|s0 segs0] using rev_ind;
      [discriminate|]. clear IHsegs0.
    apply Forall_app in Hv as [Hpre Hx]. apply Forall_cons in Hx as [Hx _].
    apply valid_name_inv in Hx as [_ HX].
    destruct (test_inv _ Ht) as (a & c & E & Hc).
    apply (f_equal chars) in E. rewrite abs_path_snoc, chars_app in E.
    simpl in E.
    assert (Hs0 : chars s0 = chars "node_modules").
    { symmetry in E. eapply after_last_sep in E; eauto.
      apply node_modules_sep_free. }
    apply chars_inj in Hs0. subst s0. exists segs0. reflexivity.
  - intros [pre ->].
    assert (E : abs_path (pre ++ ["node_modules"])
                = join_segs pre +:+ "/node_modules").
    { destruct pre; [reflexivity|]. unfold abs_path. simpl app.
      change (s :: pre ++ ["node_modules"])
        with ((s :: pre) ++ ["node_modules"]).
      apply join_segs_snoc. }
    rewrite E. apply test_suffix.
Qed.

End PathFacts.

(** C6, as stated, fails on a POSIX host: the manifest of a package under
    a directory named [x\node_modules] is kept, although the parent of its
    parent directory is not named [node_modules]. *)
Lemma C6_counterexample_backslash_name :
  let ei := mkEntry 5 "/r/x\node_modules/pkg" in
  keepCandidate ei = true
  ∧ Path.basename (Path.dirname (fullParentDir ei)) = "x\node_modules"
  ∧ Path.basename (Path.dirname (fullParentDir ei)) ≠ "node_modules".
Proof. vm_compute. repeat split. discriminate. Qed.

(** C6, amended.  For a file of the walk whose parent path is absolute and
    normalized, as readdirp gives it, and has no backslash in its names:
    the file is kept if and only if the parent of its parent directory is
    named [node_modules], that is, the path ends in [node_modules] and one
    more name. *)
Theorem C6_candidate_one_level_below_node_modules
    (ei : EntryInfo) (segs : list string) :
  fullParentDir ei = abs_path segs ->
  Forall (fun s => valid_name s = true) segs ->
  (keepCandidate ei = true
   <-> ∃ pre pkg, segs = pre ++ ["node_modules"; pkg]).
Proof.
  intros Hp Hv. unfold keepCandidate. rewrite Hp.
  destruct segs as [|x pre] using rev_ind.
  - split; [discriminate|]. intros (pre & pkg & E). destruct pre; discriminate.
  - clear IHpre. apply Forall_app in Hv as [Hpre Hx].
    apply Forall_cons in Hx as [Hx _].
    rewrite dirname_abs_path by assumption.
    rewrite (test_abs_path pre Hpre). split.
    + intros [pre' ->]. exists pre', x. rewrite <- app_assoc. reflexivity.
    + intros (pre' & pkg & E).
      change (pre' ++ ["node_modules"; pkg])
        with (pre' ++ ["node_modules"] ++ [pkg]) in E.
      rewrite app_assoc in E. apply app_inj_tail in E as [-> _].
      exists pre'. reflexivity.
Qed.

(** The descent filter and its description agree wherever the substring
    test of the code and the segment test of the description do. *)
Lemma filter_agrees_with_spec (ei : EntryInfo) :
  includes "node_modules" (fullParentDir ei)
  = has_segment "node_modules" (fullParentDir ei) ->
  filterDirsNodeModPacks ei = spec_descends ei.
Proof.
  unfold filterDirsNodeModPacks, spec_descends. intros ->.
  destruct (String.eqb (charAt0 (name ei)) "."); [reflexivity|].
  destruct (String.eqb (name ei) "node_modules"); [reflexivity|].
  destruct (has_segment "node_modules" (fullParentDir ei)); simpl;
    [rewrite orb_false_r|]; reflexivity.
Qed.

(** C1 at the input where the code leaves the description: in a project
    under [/home/u/node_modules_old], whose path has no [node_modules]
    segment, the description descends into [lib] and the filter does not. *)
Theorem C1_filter_stops_under_lookalike_directory :
  let ei := mkDir "lib" "/home/u/node_modules_old/proj" in
  segments (fullParentDir ei) = [""; "home"; "u"; "node_modules_old"; "proj"]
  ∧ has_segment "node_modules" (fullParentDir ei) = false
  ∧ spec_descends ei = true
  ∧ filterDirsNodeModPacks ei = false.
Proof. vm_compute. repeat split. Qed.

(** ** The descent filter against its description *)

Section FilterFacts.

Lemma substring_here t b :
  String.substring 0 (String.length t) (t +:+ b) = t.
Proof.
  induction t as [|c t IH]; [destruct b; reflexivity|].
  change (String c (String.substring 0 (String.length t) (t +:+ b))
          = String c t).
  f_equal. exact IH.
Qed.

Lemma substring_skip a t b :
  String.substring (String.length a) (String.length t) (a +:+ t +:+ b) = t.
Proof.
  induction a as [|c a IH]; [exact (substring_here t b)|].
  change (String.substring (String.length a) (String.length t)
            (a +:+ t +:+ b) = t).
  exact IH.
Qed.

(** A string that holds [t] somewhere passes the substring test. *)
Lemma includes_infix a t b : t ≠ "" -> includes t (a +:+ t +:+ b) = true.
Proof.
  intros Ht. unfold includes.
  destruct (String.index 0 t (a +:+ t +:+ b)) eqn:E; [reflexivity|].
  exfalso.
  apply (String.index_correct3 0 (String.length a) t _ E Ht (Nat.le_0_l _)).
  apply substring_skip.
Qed.

(** A segment of a path is a piece of it. *)
Lemma segment_infix cs : ∀ acc s,
  In s (segments_from acc cs) ->
  ∃ A B, rev acc ++ cs = A ++ list_ascii_of_string s ++ B.
Proof.
  induction cs as [|c cs IH]; intros acc s Hin; simpl in Hin.
  - destruct Hin as [<-|[]]. exists [], [].
    rewrite list_ascii_of_string_of_list_ascii. reflexivity.
  - destruct (Path.is_slash c).
    + destruct Hin as [<-|Hin].
      * exists [], (c :: cs).
        rewrite list_ascii_of_string_of_list_ascii. reflexivity.
      * destruct (IH [] s Hin) as (A & B & E). simpl in E.
        exists (rev acc ++ c :: A), B. rewrite E, <- app_assoc. reflexivity.
    + destruct (IH (c :: acc) s Hin) as (A & B & E).
      exists A, B. rewrite <- E. simpl. rewrite <- app_assoc. reflexivity.
Qed.

Lemma string_of_list_ascii_app l1 l2 :
  string_of_list_ascii (l1 ++ l2)
  = string_of_list_ascii l1 +:+ string_of_list_ascii l2.
Proof.
  induction l1 as [|a l1 IH]; [reflexivity|].
  change (String a (string_of_list_ascii (l1 ++ l2))
          = String a (string_of_list_ascii l1 +:+ string_of_list_ascii l2)).
  f_equal. exact IH.
Qed.

Lemma has_segment_includes t p :
  t ≠ "" -> has_segment t p = true -> includes t p = true.
Proof.
  intros Ht H. unfold has_segment in H. apply existsb_exists in H.
  destruct H as (s & Hin & Hs). apply String.eqb_eq in Hs. subst s.
  destruct (segment_infix _ [] t Hin) as (A & B & E). simpl in E.
  assert (Ep : p = string_of_list_ascii A +:+ t +:+ string_of_list_ascii B).
  { rewrite <- (string_of_list_ascii_of_string p), E.
    rewrite !string_of_list_ascii_app, string_of_list_ascii_of_string.
    reflexivity. }
  rewrite Ep. apply includes_infix, Ht.
Qed.

End FilterFacts.

(** The filter never descends where its description does not: the two
    differ only where the description descends and the filter stops. *)
Lemma filter_within_spec (ei : EntryInfo) :
  filterDirsNodeModPacks ei = true -> spec_descends ei = true.
Proof.
  destruct (has_segment "node_modules" (fullParentDir ei)) eqn:Hseg.
  - rewrite filter_agrees_with_spec; [auto|].
    rewrite Hseg. apply has_segment_includes; [discriminate | exact Hseg].
  - unfold filterDirsNodeModPacks, spec_descends. rewrite Hseg.
    destruct (String.eqb (charAt0 (name ei)) "."); [discriminate|].
    intros _. simpl. apply orb_true_r.
Qed.

(** ** The model of the key function *)

Section KeyModel.

Lemma uint_no_colon d :
  Forall (fun c => c ≠ ":"%char)
    (list_ascii_of_string (NilEmpty.string_of_uint d)).
Proof. induction d; simpl; constructor; auto; discriminate. Qed.

Lemma int_no_colon i :
  Forall (fun c => c ≠ ":"%char)
    (list_ascii_of_string (NilEmpty.string_of_int i)).
Proof.
  destruct i as [d|d]; simpl; [apply uint_no_colon|].
  constructor; [discriminate | apply uint_no_colon].
Qed.

(** What precedes the first colon of a string is determined. *)
Lemma before_first_colon (A B R1 R2 : list ascii) :
  A ++ ":"%char :: R1 = B ++ ":"%char :: R2 ->
  Forall (fun c => c ≠ ":"%char) A -> Forall (fun c => c ≠ ":"%char) B ->
  A = B.
Proof.
  revert B. induction A as [|a A IH]; intros [|b B] E HA HB; simpl in E.
  - reflexivity.
  - injection E as E _. apply Forall_cons in HB as [HB _]. congruence.
  - injection E as E _. apply Forall_cons in HA as [HA _]. congruence.
  - injection E as -> E. apply Forall_cons in HA as [_ HA].
    apply Forall_cons in HB as [_ HB]. f_equal. exact (IH B E HA HB).
Qed.

Lemma list_ascii_append a b :
  list_ascii_of_string (a +:+ b)
  = list_ascii_of_string a ++ list_ascii_of_string b.
Proof. induction a as [|c a IH]; simpl; [reflexivity | f_equal; exact IH]. Qed.

(** The key of the model determines the device. *)
Lemma model_key_determines_dev d1 n1 v1 d2 n2 v2 :
  formatDevNameVersion_model d1 n1 v1 = formatDevNameVersion_model d2 n2 v2 ->
  d1 = d2.
Proof.
  unfold formatDevNameVersion_model. intros E.
  apply (f_equal list_ascii_of_string) in E.
  rewrite !list_ascii_append in E. simpl in E.
  apply before_first_colon in E; [|apply int_no_colon | apply int_no_colon].
  assert (Es : NilEmpty.string_of_int (Z.to_int d1)
               = NilEmpty.string_of_int (Z.to_int d2)).
  { rewrite <- (string_of_list_ascii_of_string (NilEmpty.string_of_int (Z.to_int d1))),
      <- (string_of_list_ascii_of_string (NilEmpty.string_of_int (Z.to_int d2))), E.
    reflexivity. }
  apply (f_equal NilEmpty.int_of_string) in Es. rewrite !NilEmpty.isi in Es.
  injection Es as Es. rewrite <- (DecimalZ.of_to d1), <- (DecimalZ.of_to d2), Es.
  reflexivity.
Qed.

End KeyModel.

(** ** The theorems at work on concrete data *)

(** C2 on three copies of a at 1.0.0, two on device 5 and one on device 7. *)
Lemma C2_witness :
  (∃ k arr, (k, arr) ∈ groupedOutput formatDevNameVersion_model rt0 arrivals3
            ∧ entryA ∈ arr ∧ entryB ∈ arr)
  ∧ (∀ k arr X Y,
       (k, arr) ∈ groupedOutput formatDevNameVersion_model rt0 arrivals3 ->
       X ∈ arr -> Y ∈ arr -> dev (stat X) = dev (stat Y)).
Proof.
  assert (HA : (entryA, mkPack "a" "1.0.0") ∈ arrivals3) by left.
  assert (HB : (entryB, mkPack "a" "1.0.0") ∈ arrivals3)
    by (right; right; left).
  destruct (C2_grouping_by_device_name_version formatDevNameVersion_model
              model_key_determines_dev rt0 arrivals3 entryA entryB
              (mkPack "a" "1.0.0") (mkPack "a" "1.0.0") HA HB eq_refl eq_refl)
    as (H1 & _ & H3).
  split; [apply H1; repeat split; reflexivity | exact H3].
Defined.


(** C5 on a manifest with an empty name and on a complete one. *)
Lemma C5_witness :
  onPack formatDevNameVersion_model (keyed_init rt0) entryA (mkPack "" "1.0.0")
  = keyed_init rt0
  ∧ packageCount (k_rtenv (onPack formatDevNameVersion_model (keyed_init rt0)
                             entryA (mkPack "a" "1.0.0"))) = 1
  ∧ groups (k_grouper (onPack formatDevNameVersion_model (keyed_init rt0)
                         entryA (mkPack "a" "1.0.0")))
    = [(Some "5:a-1.0.0", [entryA])].
Proof.
  destruct (C5_manifest_dropped_or_keyed formatDevNameVersion_model
              (keyed_init rt0) entryA (mkPack "" "1.0.0") eq_refl)
    as (Hdrop & _ & _).
  destruct (C5_manifest_dropped_or_keyed formatDevNameVersion_model
              (keyed_init rt0) entryA (mkPack "a" "1.0.0") eq_refl)
    as (_ & Hkeep & _).
  split; [apply Hdrop; right; left; reflexivity|].
  destruct (Hkeep (JStr "a") (JStr "1.0.0") eq_refl eq_refl eq_refl eq_refl
              eq_refl ltac:(vm_compute; discriminate)) as [E _].
  rewrite E. split; vm_compute; reflexivity.
Defined.

(** C6 on [/r/node_modules/pkg/package.json]. *)
Lemma C6_witness :
  keepCandidate (mkEntry 5 "/r/node_modules/pkg") = true
  <-> ∃ pre pkg, ["r"; "node_modules"; "pkg"] = pre ++ ["node_modules"; pkg].
Proof.
  apply (C6_candidate_one_level_below_node_modules
           (mkEntry 5 "/r/node_modules/pkg") ["r"; "node_modules"; "pkg"]).
  - reflexivity.
  - repeat constructor.
Defined.


(** C10 on a manifest with an empty name between two complete ones. *)
Lemma C10_witness :
  devNameVer (selectResult formatDevNameVersion_model entryC (mkPack "" "1.0.0"))
  = None
  ∧ (∀ st, onPack formatDevNameVersion_model st entryC (mkPack "" "1.0.0") = st)
  ∧ onPacks formatDevNameVersion_model (keyed_init rt0)
      ([(entryA, mkPack "a" "1.0.0")] ++ (entryC, mkPack "" "1.0.0")
         :: [(entryB, mkPack "a" "1.0.0")])
    = onPacks formatDevNameVersion_model (keyed_init rt0)
        ([(entryA, mkPack "a" "1.0.0")] ++ [(entryB, mkPack "a" "1.0.0")])
  ∧ groupedOutput formatDevNameVersion_model rt0
      ([(entryA, mkPack "a" "1.0.0")] ++ (entryC, mkPack "" "1.0.0")
         :: [(entryB, mkPack "a" "1.0.0")])
    = groupedOutput formatDevNameVersion_model rt0
        ([(entryA, mkPack "a" "1.0.0")] ++ [(entryB, mkPack "a" "1.0.0")]).
Proof.
  apply (C10_falsy_field_is_discarded formatDevNameVersion_model rt0 entryC
           (mkPack "" "1.0.0")).
  left. reflexivity.
Defined.


(** ** The slots of the two mergeMaps *)

Section SlotFacts.

Context {A : Type}.
Implicit Types (ids : list nat) (buffer : list A).

Lemma slots_weaken limit ids next buffer :
  slots_ok limit 0 ids next buffer -> slots_ok limit 1 ids next buffer.
Proof.
  intros (H1 & H2 & H3 & H4). repeat split; auto.
Qed.

Lemma slots_start limit ids next buffer :
  slots_ok limit 1 ids next buffer ->
  (List.length ids < limit)%nat ->
  slots_ok limit 0 (ids ++ [next]) (S next) buffer.
Proof.
  intros (H1 & H2 & H3 & H4) Hlt. repeat split.
  - rewrite length_app. simpl. lia.
  - apply NoDup_app. repeat split; [exact H2 | | apply NoDup_singleton].
    intros x Hx Hx'. apply list_elem_of_singleton in Hx'. subst x.
    apply H3 in Hx. lia.
  - intros x Hx. apply elem_of_app in Hx as [Hx|Hx].
    + apply H3 in Hx. lia.
    + apply list_elem_of_singleton in Hx. subst x. lia.
  - intros Hb. specialize (H4 Hb). rewrite length_app. simpl. lia.
Qed.

Lemma slots_buffer limit ids next buffer a :
  slots_ok limit 1 ids next buffer ->
  ¬ (List.length ids < limit)%nat ->
  slots_ok limit 0 ids next (buffer ++ [a]).
Proof.
  intros (H1 & H2 & H3 & H4) Hge. repeat split; auto. intros _. lia.
Qed.

Lemma filter_ne_length x ids :
  NoDup ids -> x ∈ ids ->
  S (List.length (filter (fun y => y ≠ x) ids)) = List.length ids.
Proof.
  induction ids as [|y ids IH]; intros Hnd Hin; [inversion Hin|].
  apply NoDup_cons in Hnd as [Hy Hnd]. rewrite filter_cons.
  destruct (decide (y ≠ x)) as [Hne|Heq].
  - simpl. f_equal. apply IH; [exact Hnd|].
    apply elem_of_cons in Hin as [->|Hin]; [contradiction | exact Hin].
  - assert (y = x) by (destruct (decide (y = x)); [assumption | contradiction]).
    subst y. simpl. f_equal.
    assert (E : filter (fun y => y ≠ x) ids = ids); [|rewrite E; reflexivity].
    clear IH Hnd Hin Heq. induction ids as [|z ids IH]; [reflexivity|].
    rewrite filter_cons. destruct (decide (z ≠ x)) as [_|Hz].
    + f_equal. apply IH. intros H. apply Hy. right. exact H.
    + exfalso. apply Hz. intros ->. apply Hy. left.
Qed.

Lemma slots_remove limit ids next buffer x :
  slots_ok limit 0 ids next buffer ->
  slots_ok limit 0 (filter (fun y => y ≠ x) ids) next (@nil A).
Proof.
  intros (H1 & H2 & H3 & H4). repeat split.
  - etransitivity; [apply length_filter | exact H1].
  - apply NoDup_filter, H2.
  - intros y Hy. apply list_elem_of_filter in Hy as [_ Hy]. auto.
  - intros H. contradiction.
Qed.

Lemma slots_remove_next limit ids next a buffer x :
  slots_ok limit 0 ids next (a :: buffer) -> x ∈ ids ->
  slots_ok limit 1 (filter (fun y => y ≠ x) ids) next buffer
  ∧ (List.length (filter (fun y => y ≠ x) ids) < limit)%nat.
Proof.
  intros (H1 & H2 & H3 & H4) Hin.
  pose proof (filter_ne_length x ids H2 Hin) as Hlen.
  assert (Hfull : (limit <= 0 + List.length ids)%nat) by (apply H4; discriminate).
  split; [|lia]. repeat split.
  - lia.
  - apply NoDup_filter, H2.
  - intros y Hy. apply list_elem_of_filter in Hy as [_ Hy]. auto.
  - intros _. lia.
Qed.

Lemma slots_clear limit next : slots_ok limit 0 [] next (@nil A).
Proof.
  repeat split; simpl; [lia | apply NoDup_nil_2 | |contradiction].
  intros x Hx. inversion Hx.
Qed.

End SlotFacts.

Section ShapeFacts.

Variable f : Z -> json -> json -> string.
Variable config : Config.

Lemma finish_fields s :
  let s' := (finish s).1 in
  rootBuffer s' = rootBuffer s ∧ activeRoots s' = activeRoots s
  ∧ nextStream s' = nextStream s ∧ readBuffer s' = readBuffer s
  ∧ activeReads s' = activeReads s ∧ nextRead s' = nextRead s
  ∧ walkDone s' = walkDone s ∧ status s' = Completed
  ∧ k_rtenv (keyed s') = k_rtenv (keyed s)
  ∧ k_log (keyed s') = k_log (keyed s)
  ∧ groups (k_grouper (keyed s')) = groups (k_grouper (keyed s)).
Proof.
  unfold finish, grouper_step.
  destruct (stopped (k_grouper (keyed s))); simpl; repeat split; reflexivity.
Qed.

Lemma finish_wf s :
  roots_ok config 0 s -> reads_ok config 0 s ->
  scan_wf config (finish s).1.
Proof.
  destruct (finish_fields s) as (E1 & E2 & E3 & E4 & E5 & E6 & E7 & E8 & _).
  unfold scan_wf, roots_ok, reads_ok, scan_progress.
  rewrite E1, E2, E3, E4, E5, E6, E8. intros Hr Hd.
  split; [exact Hr|]. split; [exact Hd|]. discriminate.
Qed.

Lemma map_fst_remove_read id l :
  map fst (remove_read id l) = filter (fun y => y ≠ id) (map fst l).
Proof.
  unfold remove_read. induction l as [|[i ei] l IH]; [reflexivity|].
  cbn [map fst]. rewrite !filter_cons. cbn [fst].
  destruct (decide (i ≠ id)); cbn [map fst]; rewrite IH; reflexivity.
Qed.

Lemma find_read_elem id l ei :
  find_read id l = Some ei -> (id, ei) ∈ l.
Proof.
  induction l as [|[i e] l IH]; simpl; [discriminate|].
  destruct (Nat.eqb i id) eqn:E.
  - intros [= ->]. apply Nat.eqb_eq in E. subst i. left.
  - intros H. right. apply IH, H.
Qed.

Lemma find_read_id id l ei :
  find_read id l = Some ei -> id ∈ map fst l.
Proof.
  intros H. apply find_read_elem in H.
  apply list_elem_of_fmap. exists (id, ei). split; [reflexivity | exact H].
Qed.

Lemma offer_root_ok r s :
  roots_ok config 1 s ->
  roots_ok config 0 (offer_root config r s).1
  ∧ activeReads (offer_root config r s).1 = activeReads s
  ∧ readBuffer (offer_root config r s).1 = readBuffer s
  ∧ nextRead (offer_root config r s).1 = nextRead s
  ∧ status (offer_root config r s).1 = status s
  ∧ walkDone (offer_root config r s).1 = walkDone s
  ∧ keyed (offer_root config r s).1 = keyed s
  ∧ (activeRoots (offer_root config r s).1 ≠ []
     ∨ rootBuffer (offer_root config r s).1 ≠ []).
Proof.
  intros H. unfold offer_root, roots_ok.
  destruct (Nat.ltb_spec (List.length (activeRoots s)) (concurrentOps config))
    as [Hlt|Hge]; simpl.
  - split; [apply slots_start; assumption|]. repeat split; try reflexivity.
    left. destruct (activeRoots s); discriminate.
  - split; [apply slots_buffer; [assumption | lia]|].
    repeat split; try reflexivity.
    right. destruct (rootBuffer s); discriminate.
Qed.

Lemma offer_read_ok ei s :
  reads_ok config 1 s ->
  reads_ok config 0 (offer_read config ei s).1
  ∧ activeRoots (offer_read config ei s).1 = activeRoots s
  ∧ rootBuffer (offer_read config ei s).1 = rootBuffer s
  ∧ nextStream (offer_read config ei s).1 = nextStream s
  ∧ status (offer_read config ei s).1 = status s
  ∧ walkDone (offer_read config ei s).1 = walkDone s
  ∧ keyed (offer_read config ei s).1 = keyed s
  ∧ (activeReads (offer_read config ei s).1 ≠ []
     ∨ readBuffer (offer_read config ei s).1 ≠ []).
Proof.
  intros H. unfold offer_read, reads_ok in *.
  destruct (Nat.ltb_spec (List.length (activeReads s)) (concurrentOps config))
    as [Hlt|Hge]; simpl.
  - split.
    + rewrite map_app. simpl. apply slots_start; rewrite ?length_map; assumption.
    + repeat split; try reflexivity.
      left. destruct (activeReads s); discriminate.
  - split; [apply slots_buffer; rewrite ?length_map; [assumption | lia]|].
    repeat split; try reflexivity.
    right. destruct (readBuffer s); discriminate.
Qed.

Lemma walk_completed_wf s :
  roots_ok config 0 s -> reads_ok config 0 s ->
  activeRoots s = [] -> rootBuffer s = [] ->
  scan_wf config (walk_completed s).1.
Proof.
  intros Hr Hd Ha Hb. unfold walk_completed.
  assert (Hwf : ∀ ar rb, ar = activeReads s -> rb = readBuffer s ->
    ar ≠ [] ∨ rb ≠ [] ->
    scan_wf config
      {| keyed := keyed s; replayed := replayed s; destroyers := destroyers s;
         rootBuffer := rootBuffer s; activeRoots := activeRoots s;
         nextStream := nextStream s; walkDone := true;
         readBuffer := rb; activeReads := ar;
         nextRead := nextRead s; status := status s |}).
  { intros ar rb -> -> Hne. split; [exact Hr|]. split; [exact Hd|].
    intros _. simpl. split; [|intros _; exact Hne]. split; auto. }
  destruct (activeReads s) as [|a l] eqn:Ea;
    [destruct (readBuffer s) as [|b l'] eqn:Eb|].
  - apply finish_wf; unfold roots_ok, reads_ok; simpl;
      [exact Hr | apply slots_clear].
  - simpl. apply Hwf; auto.
  - simpl. apply Hwf; auto.
Qed.

Lemma root_completed_wf x s :
  scan_wf config s -> x ∈ activeRoots s ->
  scan_wf config (root_completed config x s).1.
Proof.
  intros (Hr & Hd & Hp) Hin. unfold root_completed. simpl.
  assert (Hnw : status s = Running -> walkDone s ≠ true).
  { intros Hs Hw. apply (Hp Hs) in Hw as [Hw _]. rewrite Hw in Hin.
    inversion Hin. }
  unfold roots_ok in Hr.
  destruct (rootBuffer s) as [|r rest] eqn:Eb.
  - pose proof (slots_remove _ _ _ _ x Hr) as Hr'.
    destruct (remove_nat x (activeRoots s)) as [|y l] eqn:Ea.
    + apply walk_completed_wf; unfold roots_ok, reads_ok; simpl;
        rewrite ?Ea, ?Eb; auto.
      unfold remove_nat in Ea. rewrite Ea in Hr'. exact Hr'.
    + split; [|split].
      * unfold roots_ok; simpl.
        unfold remove_nat in Ea. rewrite Ea in Hr'. exact Hr'.
      * exact Hd.
      * intros Hs. simpl in *. split.
        -- split; [intros Hw; destruct (Hnw Hs Hw) | intros [? _]; discriminate].
        -- intros Hw; destruct (Hnw Hs Hw).
  - destruct (slots_remove_next _ _ _ _ _ x Hr Hin) as [Hok Hlt].
    match goal with |- scan_wf _ (offer_root _ _ ?t).1 =>
      destruct (offer_root_ok r t Hok) as (A0 & A1 & A2 & A3 & A4 & A5 & A6 & A7)
    end.
    simpl in *. split; [exact A0|]. split.
    + unfold reads_ok. rewrite A1, A2, A3. exact Hd.
    + intros Hs. rewrite A4 in Hs. rewrite A5, A1, A2. split.
      * split; [intros Hw; destruct (Hnw Hs Hw)|].
        intros [E1 E2]. destruct A7 as [A7|A7]; contradiction.
      * intros Hw; destruct (Hnw Hs Hw).
Qed.

Lemma read_completed_wf id s :
  scan_wf config s -> id ∈ map fst (activeReads s) ->
  scan_wf config (read_completed config id s).1.
Proof.
  intros (Hr & Hd & Hp) Hin. unfold read_completed. simpl.
  unfold reads_ok in Hd.
  destruct (readBuffer s) as [|ei rest] eqn:Eb.
  - pose proof (slots_remove _ _ _ _ id Hd) as Hd'.
    rewrite <- map_fst_remove_read in Hd'.
    destruct (remove_read id (activeReads s)) as [|y l] eqn:Ea.
    + destruct (walkDone s) eqn:Ew.
      * apply finish_wf; unfold roots_ok, reads_ok; simpl;
          rewrite ?Ea, ?Eb; auto.
      * split; [exact Hr|]. split.
        -- unfold reads_ok; simpl. exact Hd'.
        -- intros Hs. simpl in *. destruct (Hp Hs) as [P1 _].
           rewrite Ew in P1. split; [exact P1 | discriminate].
    + split; [exact Hr|]. split.
      * unfold reads_ok; simpl. exact Hd'.
      * intros Hs. simpl in *. split; [apply (Hp Hs)|].
        intros _. left. discriminate.
  - destruct (slots_remove_next _ _ _ _ _ id Hd Hin) as [Hok Hlt].
    rewrite <- map_fst_remove_read in Hok.
    match goal with |- scan_wf _ (offer_read _ _ ?t).1 =>
      destruct (offer_read_ok ei t Hok) as (A0 & A1 & A2 & A3 & A4 & A5 & A6 & A7)
    end.
    simpl in *. split; [|split; [exact A0|]].
    + unfold roots_ok. rewrite A1, A2, A3. exact Hr.
    + intros Hs. rewrite A4 in Hs. rewrite A5, A1, A2. split.
      * apply (Hp Hs).
      * intros _. exact A7.
Qed.

Lemma scan_step_wf s e :
  scan_wf config s -> scan_wf config (scan_step f config s e).1.
Proof.
  intros Hwf. destruct e as [x ei|x|x|id r|]; simpl.
  - destruct (status s) eqn:Hst; try exact Hwf.
    unfold is_active_root. destruct (bool_decide_reflect (x ∈ activeRoots s));
      [|exact Hwf].
    destruct (cancelled _); [apply root_completed_wf; assumption|].
    destruct (keepCandidate ei); [|exact Hwf].
    destruct Hwf as (Hr & Hd & Hp).
    destruct (offer_read_ok ei s (slots_weaken _ _ _ _ Hd))
      as (A0 & A1 & A2 & A3 & A4 & A5 & A6 & A7).
    split; [|split; [exact A0|]].
    + unfold roots_ok. rewrite A1, A2, A3. exact Hr.
    + intros Hs. rewrite A4 in Hs. rewrite A5, A1, A2. split.
      * apply (Hp Hs).
      * intros _. exact A7.
  - destruct (status s) eqn:Hst; try exact Hwf.
    unfold is_active_root. destruct (bool_decide_reflect (x ∈ activeRoots s));
      [|exact Hwf].
    apply root_completed_wf; assumption.
  - destruct (status s) eqn:Hst; try exact Hwf.
    unfold is_active_root. destruct (bool_decide_reflect (x ∈ activeRoots s));
      [|exact Hwf].
    apply root_completed_wf; assumption.
  - destruct (status s) eqn:Hst; try exact Hwf.
    destruct (find_read id (activeReads s)) as [ei|] eqn:Hf; [|exact Hwf].
    destruct r as [pack|].
    + apply read_completed_wf; [exact Hwf|]. simpl.
      apply find_read_id in Hf. exact Hf.
    + split; [|split]; [apply slots_clear | apply slots_clear |].
      simpl. discriminate.
  - exact Hwf.
Qed.

Lemma scan_run_wf es : ∀ s,
  scan_wf config s -> scan_wf config (scan_run f config s es).1.
Proof.
  induction es as [|e es IH]; intros s Hwf; [exact Hwf|]. simpl.
  pose proof (scan_step_wf s e Hwf) as H1.
  destruct (scan_step f config s e) as [s1 o1].
  specialize (IH s1 H1). destruct (scan_run f config s1 es) as [s2 o2].
  exact IH.
Qed.

Lemma offer_roots_ok roots : ∀ s,
  roots_ok config 0 s ->
  let s' := (offer_roots config roots s).1 in
  roots_ok config 0 s'
  ∧ activeReads s' = activeReads s ∧ readBuffer s' = readBuffer s
  ∧ nextRead s' = nextRead s ∧ status s' = status s
  ∧ walkDone s' = walkDone s ∧ keyed s' = keyed s.
Proof.
  induction roots as [|r roots IH]; intros s Hr; simpl.
  - repeat split; auto; apply Hr.
  - destruct (offer_root_ok r s (slots_weaken _ _ _ _ Hr))
      as (A0 & A1 & A2 & A3 & A4 & A5 & A6 & _).
    destruct (offer_root config r s) as [s1 o1]. simpl in *.
    destruct (IH s1 A0) as (B0 & B1 & B2 & B3 & B4 & B5 & B6).
    destruct (offer_roots config roots s1) as [s2 o2]. simpl in *.
    split; [exact B0|]. repeat split; congruence.
Qed.

Lemma findPackagesGrouped_wf rt n roots :
  scan_wf config (findPackagesGrouped config rt n roots).1.
Proof.
  unfold findPackagesGrouped.
  assert (H0 : roots_ok config 0 (scan_init rt n)) by apply slots_clear.
  destruct (offer_roots_ok roots _ H0) as (B0 & B1 & B2 & B3 & B4 & B5 & _).
  destruct (offer_roots config roots (scan_init rt n)) as [s1 o1].
  simpl in *.
  assert (Hd : reads_ok config 0 s1).
  { unfold reads_ok. rewrite B1, B2, B3. apply slots_clear. }
  destruct (activeRoots s1) as [|a l] eqn:Ea;
    [destruct (rootBuffer s1) as [|b l'] eqn:Eb|].
  - pose proof (walk_completed_wf s1 B0 Hd Ea Eb) as Hw.
    destruct (walk_completed s1) as [s2 o2]. exact Hw.
  - split; [exact B0|]. split; [exact Hd|]. intros _. simpl.
    rewrite B5, Ea, Eb.
    split; [split; [discriminate | intros [_ ?]; discriminate] | discriminate].
  - split; [exact B0|]. split; [exact Hd|]. intros _. simpl.
    rewrite B5, Ea.
    split; [split; [discriminate | intros [? _]; discriminate] | discriminate].
Qed.

Lemma scan_wf_all rt n roots es :
  scan_wf config (scan f config rt n roots es).1.
Proof.
  unfold scan.
  pose proof (findPackagesGrouped_wf rt n roots) as H0.
  destruct (findPackagesGrouped config rt n roots) as [s0 o0].
  pose proof (scan_run_wf es s0 H0) as H1.
  destruct (scan_run f config s0 es) as [s1 o1]. exact H1.
Qed.

End ShapeFacts.

(** X1. Whatever the roots and whatever the events, the pipeline never
    listens to more readdirp streams than [config.concurrentOps], and never
    has more manifest reads in flight than [config.concurrentOps]. *)
Theorem X1_concurrency_limit
    (f : Z -> json -> json -> string) (config : Config) (rt : RtEnv)
    (already_cancelled : nat) (rootDirs : list string) (es : list Event) :
  let s := (scan f config rt already_cancelled rootDirs es).1 in
  (List.length (activeRoots s) <= concurrentOps config)%nat
  ∧ (List.length (activeReads s) <= concurrentOps config)%nat.
Proof.
  intros s. destruct (scan_wf_all f config rt already_cancelled rootDirs es)
    as ((H1 & _) & (H2 & _) & _).
  fold s in H1, H2. rewrite length_map in H2. split; assumption.
Qed.

(** X2. With a concurrency limit of at least one, a pipeline that is still
    running is waiting for something: a readdirp stream it listens to or a
    manifest read in flight.  So it ends with the last stream that ends or
    the last read that settles, and it is never left running with work
    waiting in a buffer and nothing in progress. *)
Theorem X2_running_scan_waits_for_something
    (f : Z -> json -> json -> string) (config : Config) (rt : RtEnv)
    (already_cancelled : nat) (rootDirs : list string) (es : list Event) :
  (1 <= concurrentOps config)%nat ->
  let s := (scan f config rt already_cancelled rootDirs es).1 in
  status s = Running ->
  activeRoots s ≠ [] ∨ activeReads s ≠ [].
Proof.
  intros Hc s Hs.
  destruct (scan_wf_all f config rt already_cancelled rootDirs es)
    as ((_ & _ & _ & R4) & (_ & _ & _ & D4) & Hp).
  fold s in R4, D4, Hp. destruct (Hp Hs) as [P1 P2].
  destruct (walkDone s) eqn:Hw.
  - right. destruct (P2 eq_refl) as [H|H]; [exact H|].
    specialize (D4 H). rewrite length_map in D4.
    destruct (activeReads s); [simpl in D4; lia | discriminate].
  - left. intros Ha. destruct (rootBuffer s) as [|r l] eqn:Eb.
    + assert (false = true) by (apply P1; split; [exact Ha | reflexivity]).
      discriminate.
    + assert (Hne : r :: l ≠ []) by discriminate.
      specialize (R4 Hne). rewrite Ha in R4. simpl in R4. lia.
Qed.

Lemma X2_witness :
  let s := (scan formatDevNameVersion_model config4 rt0 0 ["/r"; "/q"]
              [FsData 0 entryA; FsEnd 0]).1 in
  activeRoots s ≠ [] ∨ activeReads s ≠ [].
Proof.
  apply (X2_running_scan_waits_for_something formatDevNameVersion_model
           config4 rt0 0 ["/r"; "/q"] [FsData 0 entryA; FsEnd 0]).
  - vm_compute. lia.
  - reflexivity.
Defined.

(** ** The outputs of a scan, from the subscription on *)

Section TraceFacts.

Variable f : Z -> json -> json -> string.
Variable config : Config.

Lemma scan_run_trace (P : Scan -> list Event -> list Output -> Prop) :
  (∀ s h o e, P s h o ->
     P (scan_step f config s e).1 (h ++ [e])
       (o ++ (scan_step f config s e).2)) ->
  ∀ es s h o, P s h o ->
    P (scan_run f config s es).1 (h ++ es)
      (o ++ (scan_run f config s es).2).
Proof.
  intros Hstep. induction es as [|e es IH]; intros s h o HP; simpl.
  - rewrite !app_nil_r. exact HP.
  - specialize (Hstep s h o e HP).
    destruct (scan_step f config s e) as [s1 o1]. simpl in *.
    specialize (IH s1 _ _ Hstep).
    destruct (scan_run f config s1 es) as [s2 o2]. simpl in *.
    rewrite <- !app_assoc in IH. exact IH.
Qed.

Lemma scan_trace (P : Scan -> list Event -> list Output -> Prop)
    rt n roots :
  P (findPackagesGrouped config rt n roots).1 []
    (findPackagesGrouped config rt n roots).2 ->
  (∀ s h o e, P s h o ->
     P (scan_step f config s e).1 (h ++ [e])
       (o ++ (scan_step f config s e).2)) ->
  ∀ es, P (scan f config rt n roots es).1 es (scan f config rt n roots es).2.
Proof.
  intros H0 Hstep es. unfold scan.
  destruct (findPackagesGrouped config rt n roots) as [s0 o0]. simpl in *.
  pose proof (scan_run_trace P Hstep es s0 [] o0 H0) as H.
  destruct (scan_run f config s0 es) as [s1 o1]. exact H.
Qed.

Lemma flush_outputs (gs : list Group) :
  flat_map (fun n => match n with
                     | Next grp => [Emit grp]
                     | Complete => [Done]
                     | Error => [Failed]
                     end) (map Next gs ++ [@Complete Group])
  = map Emit gs ++ [Done].
Proof.
  induction gs as [|g gs IH]; [reflexivity|]. simpl. f_equal. exact IH.
Qed.

Lemma kept_refl s o : kept s (s, o).
Proof. repeat split. Qed.

Lemma finish_ok s :
  stopped (k_grouper (keyed s)) = false ->
  step_shape s (finish s) ∧ kept s (finish s).
Proof.
  intros Hs. unfold step_shape, kept, finish, grouper_step. rewrite Hs.
  simpl. split; [|repeat split]. right. split; [reflexivity|].
  apply flush_outputs.
Qed.

Lemma walk_completed_ok s :
  stopped (k_grouper (keyed s)) = false ->
  step_shape s (walk_completed s) ∧ kept s (walk_completed s).
Proof.
  intros Hs. unfold walk_completed.
  destruct (activeReads s) as [|a l] eqn:Ea;
    [destruct (readBuffer s) as [|b l'] eqn:Eb|];
    try (split; [left; split; [reflexivity | constructor] | repeat split]).
  match goal with |- step_shape _ (finish ?t) ∧ _ =>
    exact (finish_ok t Hs) end.
Qed.

Lemma offer_root_effects r s :
  status (offer_root config r s).1 = status s
  ∧ keyed (offer_root config r s).1 = keyed s
  ∧ Forall (fun o => is_effect o = true) (offer_root config r s).2.
Proof.
  unfold offer_root, start_root.
  destruct (Nat.ltb _ _); simpl; repeat split; try constructor; auto.
  induction (replayed s); simpl; constructor; auto.
Qed.

Lemma offer_read_effects ei s :
  status (offer_read config ei s).1 = status s
  ∧ keyed (offer_read config ei s).1 = keyed s
  ∧ Forall (fun o => is_effect o = true) (offer_read config ei s).2.
Proof.
  unfold offer_read, start_read.
  destruct (Nat.ltb _ _); simpl; repeat split; repeat constructor.
Qed.

Lemma root_completed_ok x s :
  stopped (k_grouper (keyed s)) = false ->
  step_shape s (root_completed config x s)
  ∧ kept s (root_completed config x s).
Proof.
  intros Hs. unfold root_completed. simpl.
  destruct (rootBuffer s) as [|r rest].
  - destruct (remove_nat x (activeRoots s)).
    + match goal with |- step_shape _ (walk_completed ?t) ∧ _ =>
        exact (walk_completed_ok t Hs) end.
    + split; [left; split; [reflexivity | constructor] | repeat split].
  - match goal with |- step_shape _ (offer_root _ _ ?t) ∧ _ =>
      destruct (offer_root_effects r t) as (A1 & A2 & A3) end.
    simpl in *. split; [left; split; assumption|].
    unfold kept. rewrite A2. repeat split.
Qed.

Lemma read_completed_ok id s :
  stopped (k_grouper (keyed s)) = false ->
  step_shape s (read_completed config id s)
  ∧ kept s (read_completed config id s).
Proof.
  intros Hs. unfold read_completed. simpl.
  destruct (readBuffer s) as [|ei rest].
  - destruct (remove_read id (activeReads s)).
    + destruct (walkDone s).
      * match goal with |- step_shape _ (finish ?t) ∧ _ =>
          exact (finish_ok t Hs) end.
      * split; [left; split; [reflexivity | constructor] | repeat split].
    + split; [left; split; [reflexivity | constructor] | repeat split].
  - match goal with |- step_shape _ (offer_read _ _ ?t) ∧ _ =>
      destruct (offer_read_effects ei t) as (A1 & A2 & A3) end.
    simpl in *. split; [left; split; assumption|].
    unfold kept. rewrite A2. repeat split.
Qed.

Lemma map_destroy_effects (l : list nat) :
  Forall (fun o => is_effect o = true) (map DoDestroy l)
  ∧ Forall (fun o => is_destroy o = true) (map DoDestroy l).
Proof. induction l; simpl; split; constructor; tauto. Qed.

(** One event of a running pipeline: nothing reaches the subscriber, or
    it is completed with all the groups, or it fails. *)
Lemma scan_step_running s e :
  grouper_live s -> status s = Running ->
  step_shape s (scan_step f config s e)
  ∨ (status (scan_step f config s e).1 = Errored
     ∧ (scan_step f config s e).2 = [Failed]).
Proof.
  intros Hl Hr. specialize (Hl Hr).
  assert (Hsame : ∀ o, Forall (fun o => is_effect o = true) o ->
                       step_shape s (s, o))
    by (intros o Ho; left; split; [reflexivity | exact Ho]).
  destruct e as [x ei|x|x|id r|]; simpl; rewrite ?Hr.
  - destruct (is_active_root x s); [|left; apply Hsame; constructor].
    destruct (cancelled _); [left; apply root_completed_ok, Hl|].
    destruct (keepCandidate ei); [|left; apply Hsame; constructor].
    left. left. destruct (offer_read_effects ei s) as (A1 & _ & A3).
    split; assumption.
  - destruct (is_active_root x s); [|left; apply Hsame; constructor].
    left; apply root_completed_ok, Hl.
  - destruct (is_active_root x s); [|left; apply Hsame; constructor].
    left; apply root_completed_ok, Hl.
  - destruct (find_read id (activeReads s)) as [ei|];
      [|left; apply Hsame; constructor].
    destruct r as [pack|]; [|right; split; reflexivity].
    left.
    match goal with |- step_shape _ (read_completed _ _ ?t) =>
      destruct (read_completed_ok id t) as [A _];
        [simpl; apply onPack_running, Hl | exact A] end.
  - left. left. split; [simpl; congruence | apply map_destroy_effects].
Qed.

(** One event of a pipeline that has ended: at most destroy calls. *)
Lemma scan_step_over s e :
  status s ≠ Running ->
  status (scan_step f config s e).1 = status s
  ∧ groups (k_grouper (keyed (scan_step f config s e).1))
    = groups (k_grouper (keyed s))
  ∧ k_rtenv (keyed (scan_step f config s e).1)
    = (match e with
       | Cancel => set_cancelled true (k_rtenv (keyed s))
       | _ => k_rtenv (keyed s)
       end)
  ∧ k_log (keyed (scan_step f config s e).1) = k_log (keyed s)
  ∧ Forall (fun o => is_destroy o = true) (scan_step f config s e).2.
Proof.
  intros Hn. destruct e as [x ei|x|x|id r|]; simpl;
    try (destruct (status s) eqn:E; [exfalso; apply Hn; reflexivity| |];
         simpl; repeat split; try exact E; constructor).
  repeat split. apply map_destroy_effects.
Qed.

Lemma trace_shape_step s o e :
  grouper_live s -> trace_shape s o ->
  trace_shape (scan_step f config s e).1 (o ++ (scan_step f config s e).2).
Proof.
  intros Hl (pre & post & Hpre & Hpost & Hm). unfold trace_shape.
  destruct (status s) eqn:Hs.
  - destruct Hm as [-> ->].
    destruct (scan_step_running s e Hl Hs) as [[[A1 A2]|[A1 A2]]|[A1 A2]].
    + exists (pre ++ (scan_step f config s e).2), [].
      rewrite A1, Hs. repeat split; auto; apply Forall_app; auto.
    + exists pre, []. rewrite A1, A2.
      repeat split; auto; rewrite <- ?app_assoc; reflexivity.
    + exists pre, []. rewrite A1, A2. repeat split; auto.
  - assert (Hn : status s ≠ Running) by (rewrite Hs; discriminate).
    destruct (scan_step_over s e Hn) as (A1 & A2 & _ & _ & A5).
    exists pre, (post ++ (scan_step f config s e).2).
    rewrite A1, Hs, A2, Hm.
    repeat split; auto; try (apply Forall_app; auto);
      rewrite <- ?app_assoc; simpl; rewrite <- ?app_assoc; reflexivity.
  - assert (Hn : status s ≠ Running) by (rewrite Hs; discriminate).
    destruct (scan_step_over s e Hn) as (A1 & A2 & _ & _ & A5).
    exists pre, (post ++ (scan_step f config s e).2).
    rewrite A1, Hs, Hm.
    repeat split; auto; try (apply Forall_app; auto);
      rewrite <- ?app_assoc; simpl; rewrite <- ?app_assoc; reflexivity.
Qed.

Lemma offer_roots_effects roots : ∀ s,
  status (offer_roots config roots s).1 = status s
  ∧ keyed (offer_roots config roots s).1 = keyed s
  ∧ Forall (fun o => is_effect o = true) (offer_roots config roots s).2.
Proof.
  induction roots as [|r roots IH]; intros s; simpl.
  - repeat split. constructor.
  - destruct (offer_root_effects r s) as (A1 & A2 & A3).
    destruct (offer_root config r s) as [s1 o1]. simpl in *.
    destruct (IH s1) as (B1 & B2 & B3).
    destruct (offer_roots config roots s1) as [s2 o2]. simpl in *.
    repeat split; [congruence | congruence | apply Forall_app; auto].
Qed.

Lemma trace_shape_init rt n roots :
  trace_shape (findPackagesGrouped config rt n roots).1
    (findPackagesGrouped config rt n roots).2
  ∧ kept (scan_init rt n) (findPackagesGrouped config rt n roots).
Proof.
  unfold findPackagesGrouped.
  destruct (offer_roots_effects roots (scan_init rt n)) as (A1 & A2 & A3).
  destruct (offer_roots config roots (scan_init rt n)) as [s1 o1].
  simpl in *.
  assert (Hrun : trace_shape s1 o1 ∧ kept (scan_init rt n) (s1, o1)).
  { split; [|unfold kept; simpl; rewrite A2; repeat split].
    exists o1, []. rewrite A1. repeat split; auto. }
  destruct (activeRoots s1); [destruct (rootBuffer s1)|]; try exact Hrun.
  assert (Hst : stopped (k_grouper (keyed s1)) = false)
    by (rewrite A2; reflexivity).
  destruct (walk_completed_ok s1 Hst) as [[[B1 B2]|[B1 B2]] (K1 & K2 & K3)];
    destruct (walk_completed s1) as [s2 o2]; simpl in *.
  - split; [|unfold kept; simpl; rewrite K1, K2, K3, A2; repeat split].
    exists (o1 ++ o2), []. rewrite B1, A1.
    repeat split; auto; apply Forall_app; auto.
  - split; [|unfold kept; simpl; rewrite K1, K2, K3, A2; repeat split].
    exists o1, []. rewrite B1, B2.
    repeat split; auto; rewrite <- ?app_assoc; reflexivity.
Qed.

Lemma entry_total_push k e gs :
  entry_total (group_push k e gs) = S (entry_total gs).
Proof.
  induction gs as [|[k' arr] gs IH]; [reflexivity|]. simpl.
  destruct (decide (k' = k)); simpl.
  - rewrite length_app. simpl. lia.
  - rewrite IH. lia.
Qed.

Lemma onPack_counted c0 st ei pack :
  stopped (k_grouper st) = false ->
  counted c0 st -> counted c0 (onPack f st ei pack).
Proof.
  intros Hs [C1 C2].
  destruct (truthy_key (devNameVer (selectResult f ei pack))) eqn:Ht.
  - rewrite onPack_passing by assumption. unfold counted. simpl.
    rewrite entry_total_push. split; [simpl; rewrite C1; reflexivity|].
    rewrite map_app, seq_S, map_app, C2. simpl. rewrite C1. reflexivity.
  - rewrite onPack_dropped by assumption. split; assumption.
Qed.

Lemma kept_counted c0 s r :
  kept s r -> counted c0 (keyed s) -> counted c0 (keyed r.1).
Proof.
  intros (K1 & K2 & K3) [C1 C2]. unfold counted. rewrite K1, K2, K3.
  split; assumption.
Qed.

Lemma scan_step_counted c0 s e :
  grouper_live s -> counted c0 (keyed s) ->
  counted c0 (keyed (scan_step f config s e).1).
Proof.
  intros Hl Hc. destruct (status s) eqn:Hs.
  - specialize (Hl Hs).
    destruct e as [x ei|x|x|id r|]; simpl; rewrite ?Hs.
    + destruct (is_active_root x s); [|exact Hc].
      destruct (cancelled _);
        [eapply kept_counted; [apply root_completed_ok, Hl | exact Hc]|].
      destruct (keepCandidate ei); [|exact Hc].
      destruct (offer_read_effects ei s) as (_ & A2 & _). rewrite A2.
      exact Hc.
    + destruct (is_active_root x s); [|exact Hc].
      eapply kept_counted; [apply root_completed_ok, Hl | exact Hc].
    + destruct (is_active_root x s); [|exact Hc].
      eapply kept_counted; [apply root_completed_ok, Hl | exact Hc].
    + destruct (find_read id (activeReads s)) as [ei|]; [|exact Hc].
      destruct r as [pack|]; [|exact Hc].
      eapply kept_counted;
        [apply read_completed_ok; simpl; apply onPack_running, Hl|].
      simpl. apply onPack_counted; assumption.
    + exact Hc.
  - assert (Hn : status s ≠ Running) by (rewrite Hs; discriminate).
    destruct (scan_step_over s e Hn) as (_ & A2 & A3 & A4 & _).
    destruct Hc as [C1 C2]. unfold counted. rewrite A2, A3, A4.
    split; [|exact C2]. destruct e; exact C1.
  - assert (Hn : status s ≠ Running) by (rewrite Hs; discriminate).
    destruct (scan_step_over s e Hn) as (_ & A2 & A3 & A4 & _).
    destruct Hc as [C1 C2]. unfold counted. rewrite A2, A3, A4.
    split; [|exact C2]. destruct e; exact C1.
Qed.

(** Every scan: its outputs have the shape of a subscription, its grouper
    accepts entries while it runs, its counter agrees with its groups. *)
Lemma scan_sound rt n roots es :
  let r := scan f config rt n roots es in
  grouper_live r.1 ∧ trace_shape r.1 r.2
  ∧ counted (packageCount rt) (keyed r.1).
Proof.
  apply (scan_trace
           (fun s _ o => grouper_live s ∧ trace_shape s o
                         ∧ counted (packageCount rt) (keyed s))).
  - destruct (trace_shape_init rt n roots) as [T K].
    split; [apply subscribe_lands|]. split; [exact T|].
    eapply kept_counted; [exact K|]. unfold counted. simpl.
    split; reflexivity.
  - intros s h o e (Hl & Ht & Hc). split; [apply scan_step_live, Hl|].
    split; [apply trace_shape_step; assumption|].
    apply scan_step_counted; assumption.
Qed.

End TraceFacts.

(** X3. The outputs of a scan, from the subscription on, have the shape of
    one subscription: effects only while it runs (streams started or
    destroyed, reads started); then one ending, either every accumulated
    group followed by the completion, or the failure alone; after the ending
    nothing but the destroy calls of a late cancellation.  So the scan ends
    at most once, groups are handed over only right before the completion,
    and a scan that fails hands over no group at all. *)
Theorem X3_outputs_of_one_subscription
    (f : Z -> json -> json -> string) (config : Config) (rt : RtEnv)
    (already_cancelled : nat) (rootDirs : list string) (es : list Event) :
  let r := scan f config rt already_cancelled rootDirs es in
  ∃ pre post,
    Forall (fun o => is_effect o = true) pre
    ∧ Forall (fun o => is_destroy o = true) post
    ∧ match status r.1 with
      | Running => r.2 = pre ∧ post = []
      | Completed =>
          r.2 = pre ++ map Emit (groups (k_grouper (keyed r.1))) ++ [Done] ++ post
      | Errored => r.2 = pre ++ [Failed] ++ post
      end.
Proof.
  intros r.
  destruct (scan_sound f config rt already_cancelled rootDirs es) as (_ & H & _).
  exact H.
Qed.

(** X4. At any point of a scan, the scanned-package counter has been
    incremented, by [rtenv.packageCount += 1], exactly once per entry held
    by the groups, and the scan log was called once per entry with the
    values the counter went through, in order: no entry is counted twice or
    grouped without being counted.  As long as the counter stays within the
    integers that a JavaScript number counts exactly, from -2^53 to 2^53, it
    has grown by the number of entries and the log received the consecutive
    counts that follow the initial one. *)
Theorem X4_counter_agrees_with_groups
    (f : Z -> json -> json -> string) (config : Config) (rt : RtEnv)
    (already_cancelled : nat) (rootDirs : list string) (es : list Event) :
  let k := keyed (scan f config rt already_cancelled rootDirs es).1 in
  let n := entry_total (groups (k_grouper k)) in
  packageCount (k_rtenv k) = Nat.iter n js_succ (packageCount rt)
  ∧ map fst (k_log k)
    = map (fun i => Nat.iter i js_succ (packageCount rt)) (seq 1 n)
  ∧ (- two53 <= packageCount rt -> packageCount rt + Z.of_nat n <= two53 ->
     packageCount (k_rtenv k) = packageCount rt + Z.of_nat n
     ∧ map fst (k_log k)
       = map (fun i => packageCount rt + Z.of_nat i) (seq 1 n)).
Proof.
  intros k n.
  destruct (scan_sound f config rt already_cancelled rootDirs es)
    as (_ & _ & [H1 H2]).
  fold k in H1, H2. fold n in H1, H2.
  split; [exact H1|]. split; [exact H2|]. intros Hlo Hhi.
  rewrite H1, H2. split; [apply iter_js_succ; assumption|].
  apply map_ext_in. intros i Hi. apply in_seq in Hi.
  apply iter_js_succ; [exact Hlo | lia].
Qed.

(** ** The queues of the two mergeMaps *)

Section QueueFacts.

Variable f : Z -> json -> json -> string.
Variable config : Config.

Lemma started_app o1 o2 : started (o1 ++ o2) = started o1 ++ started o2.
Proof. unfold started. apply flat_map_app. Qed.

Lemma reads_started_app o1 o2 :
  reads_started (o1 ++ o2) = reads_started o1 ++ reads_started o2.
Proof. unfold reads_started. apply flat_map_app. Qed.

Lemma started_destroy (o : list Output) :
  Forall (fun x => is_destroy x = true) o ->
  started o = [] ∧ reads_started o = [].
Proof.
  induction 1 as [|x o Hx _ [IH1 IH2]]; [split; reflexivity|].
  destruct x; try discriminate. simpl. split; assumption.
Qed.

Lemma started_flush (gs : list Group) :
  started (map Emit gs ++ [Done]) = []
  ∧ reads_started (map Emit gs ++ [Done]) = [].
Proof. induction gs as [|g gs [IH1 IH2]]; split; simpl; auto. Qed.

(** A step that completes the pipeline, or leaves its status, without
    opening a stream or starting a read. *)
Lemma step_shape_started s r :
  step_shape s r ->
  status r.1 = status s ∨ status r.1 = Completed.
Proof. intros [[H _]|[H _]]; [left | right]; exact H. Qed.

Lemma finish_started s :
  started (finish s).2 = [] ∧ reads_started (finish s).2 = [].
Proof.
  unfold finish, grouper_step. destruct (stopped _); simpl;
    [split; reflexivity|].
  rewrite flush_outputs. apply started_flush.
Qed.

Lemma walk_completed_fields s :
  let r := walk_completed s in
  rootBuffer r.1 = rootBuffer s ∧ nextStream r.1 = nextStream s
  ∧ readBuffer r.1 = readBuffer s ∧ nextRead r.1 = nextRead s
  ∧ (status r.1 = status s ∨ status r.1 = Completed)
  ∧ started r.2 = [] ∧ reads_started r.2 = [].
Proof.
  unfold walk_completed.
  destruct (activeReads s); [destruct (readBuffer s) eqn:Eb|];
    try (simpl; repeat split; auto; fail).
  match goal with |- context [finish ?t] =>
    destruct (finish_fields t) as (E1 & _ & E3 & E4 & _ & E6 & _ & E8 & _);
    destruct (finish_started t) as [S1 S2] end.
  simpl in *. repeat split; auto.
Qed.

Lemma opened_one n r : opened config n [r] = [(n, r, depth_option config)].
Proof. unfold opened. simpl. rewrite Nat.add_0_r. reflexivity. Qed.

Lemma reads_of_one n ei : reads_of n [ei] = [(n, fullPath ei)].
Proof. unfold reads_of. simpl. rewrite Nat.add_0_r. reflexivity. Qed.

Lemma opened_app n l1 l2 :
  opened config n (l1 ++ l2)
  = opened config n l1 ++ opened config (n + List.length l1) l2.
Proof.
  unfold opened. rewrite imap_app. f_equal. apply imap_ext.
  intros i r _. simpl. rewrite Nat.add_assoc. reflexivity.
Qed.

Lemma reads_of_app n l1 l2 :
  reads_of n (l1 ++ l2) = reads_of n l1 ++ reads_of (n + List.length l1) l2.
Proof.
  unfold reads_of. rewrite imap_app. f_equal. apply imap_ext.
  intros i r _. simpl. rewrite Nat.add_assoc. reflexivity.
Qed.

Lemma start_root_started r s :
  started (start_root config r s).2 = [(nextStream s, r, depth_option config)].
Proof.
  unfold start_root. simpl. f_equal.
  induction (replayed s); simpl; auto.
Qed.

(** Nothing is opened and no root leaves the buffer. *)
Lemma roots_served_same s r :
  rootBuffer r.1 = rootBuffer s -> nextStream r.1 = nextStream s ->
  (status s ≠ Running -> status r.1 = status s) -> started r.2 = [] ->
  roots_served config s r.
Proof.
  intros H1 H2 H3 H4. exists [], (rootBuffer s). rewrite H4, H2, H1.
  simpl. rewrite Nat.add_0_r. repeat split; auto.
  intros He. apply H. rewrite H3; rewrite He; [reflexivity | discriminate].
Qed.

Lemma reads_served_same s r :
  readBuffer r.1 = readBuffer s -> nextRead r.1 = nextRead s ->
  (status s ≠ Running -> status r.1 = status s) -> reads_started r.2 = [] ->
  reads_served s [] r.
Proof.
  intros H1 H2 H3 H4. exists [], (readBuffer s). rewrite H4, H2, H1.
  simpl. rewrite Nat.add_0_r, app_nil_r. repeat split; auto.
  intros He. apply H. rewrite H3; rewrite He; [reflexivity | discriminate].
Qed.

Lemma root_completed_served x s :
  scan_wf config s -> x ∈ activeRoots s -> status s = Running ->
  roots_served config s (root_completed config x s)
  ∧ reads_served s [] (root_completed config x s).
Proof.
  intros (Hr & _ & _) Hin Hs. unfold root_completed. simpl.
  unfold roots_ok in Hr.
  destruct (rootBuffer s) as [|r rest] eqn:Eb.
  - destruct (remove_nat x (activeRoots s)) as [|y l].
    + match goal with |- context [walk_completed ?t] =>
        destruct (walk_completed_fields t)
          as (E1 & E2 & E3 & E4 & E5 & E6 & E7) end.
      simpl in *.
      assert (Hst : ∀ st : Status, status s ≠ Running -> st = status s)
        by (intros st Hx; destruct (Hx Hs)).
      split; [apply roots_served_same | apply reads_served_same];
        simpl; rewrite ?Eb; eauto.
    + split; [apply roots_served_same | apply reads_served_same];
        simpl; rewrite ?Eb; auto.
  - destruct (slots_remove_next _ _ _ _ _ x Hr Hin) as [_ Hlt].
    unfold offer_root. simpl.
    apply Nat.ltb_lt in Hlt. unfold remove_nat. rewrite Hlt.
    split.
    + exists [r], rest. rewrite start_root_started, opened_one. simpl.
      repeat split; auto; try lia;
      match goal with H : status s ≠ Running |- _ => destruct (H Hs) end.
    + apply reads_served_same; simpl; auto.
      unfold reads_started. simpl. induction (replayed s); simpl; auto.
Qed.

Lemma offer_read_served ei s :
  reads_ok config 0 s -> status s = Running ->
  roots_served config s (offer_read config ei s)
  ∧ reads_served s [ei] (offer_read config ei s).
Proof.
  intros Hd Hs. unfold offer_read.
  destruct (Nat.ltb_spec (List.length (activeReads s)) (concurrentOps config))
    as [Hlt|Hge]; simpl.
  - split; [apply roots_served_same; simpl; auto|].
    assert (Hb : readBuffer s = []).
    { destruct Hd as (_ & _ & _ & H4). destruct (readBuffer s); [reflexivity|].
      exfalso. rewrite length_map in H4.
      specialize (H4 ltac:(discriminate)). lia. }
    exists [ei], []. simpl. rewrite Hb, reads_of_one. simpl.
    repeat split; auto; try lia;
      match goal with H : status s ≠ Running |- _ => destruct (H Hs) end.
  - split; [apply roots_served_same; simpl; auto|].
    exists [], (readBuffer s ++ [ei]). simpl. rewrite Nat.add_0_r.
    repeat split; auto.
Qed.

Lemma read_completed_served id s :
  scan_wf config s -> id ∈ map fst (activeReads s) -> status s = Running ->
  roots_served config s (read_completed config id s)
  ∧ reads_served s [] (read_completed config id s).
Proof.
  intros (_ & Hd & _) Hin Hs. unfold read_completed. simpl.
  unfold reads_ok in Hd.
  assert (Hne : ∀ st : Status, status s ≠ Running -> st = status s)
    by (intros st Hx; destruct (Hx Hs)).
  destruct (readBuffer s) as [|ei rest] eqn:Eb.
  - destruct (remove_read id (activeReads s)) as [|y l].
    + destruct (walkDone s).
      * match goal with |- context [finish ?t] =>
          destruct (finish_fields t) as (E1 & _ & E3 & E4 & _ & E6 & _);
          destruct (finish_started t) as [S1 S2] end.
        simpl in *.
        split; [apply roots_served_same | apply reads_served_same];
          simpl; rewrite ?Eb; eauto.
      * split; [apply roots_served_same | apply reads_served_same];
          simpl; rewrite ?Eb; auto.
    + split; [apply roots_served_same | apply reads_served_same];
        simpl; rewrite ?Eb; auto.
  - destruct (slots_remove_next _ _ _ _ _ id Hd Hin) as [_ Hlt].
    rewrite <- map_fst_remove_read, length_map in Hlt.
    unfold offer_read. simpl.
    apply Nat.ltb_lt in Hlt. rewrite Hlt. simpl.
    split; [apply roots_served_same; simpl; auto|].
    exists [ei], rest. rewrite reads_of_one, app_nil_r. simpl.
    repeat split; auto; try lia;
      match goal with H : status s ≠ Running |- _ => destruct (H Hs) end.
Qed.

Lemma scan_step_served s e :
  scan_wf config s ->
  roots_served config s (scan_step f config s e)
  ∧ reads_served s (match accepts s e with Some ei => [ei] | None => [] end)
      (scan_step f config s e).
Proof.
  intros Hwf.
  assert (Hsame : ∀ k n, roots_served config s
            ({| keyed := k; replayed := n; destroyers := destroyers s;
                rootBuffer := rootBuffer s; activeRoots := activeRoots s;
                nextStream := nextStream s; walkDone := walkDone s;
                readBuffer := readBuffer s; activeReads := activeReads s;
                nextRead := nextRead s; status := status s |},
             map DoDestroy (destroyers s))
          ∧ reads_served s []
            ({| keyed := k; replayed := n; destroyers := destroyers s;
                rootBuffer := rootBuffer s; activeRoots := activeRoots s;
                nextStream := nextStream s; walkDone := walkDone s;
                readBuffer := readBuffer s; activeReads := activeReads s;
                nextRead := nextRead s; status := status s |},
             map DoDestroy (destroyers s))).
  { intros k n.
    destruct (started_destroy (map DoDestroy (destroyers s))) as [S1 S2];
      [apply map_destroy_effects|].
    split; [apply roots_served_same | apply reads_served_same]; auto. }
  assert (Hstay : roots_served config s (s, []) ∧ reads_served s [] (s, []))
    by (split; [apply roots_served_same | apply reads_served_same]; auto).
  destruct (status s) eqn:Hs.
  - destruct e as [x ei|x|x|id r|]; unfold accepts; simpl; rewrite Hs.
    + unfold is_active_root.
      destruct (bool_decide_reflect (x ∈ activeRoots s)) as [Hin|_];
        [|exact Hstay].
      destruct (cancelled _); [apply root_completed_served; assumption|].
      simpl. destruct (keepCandidate ei); [|exact Hstay].
      apply offer_read_served; [apply Hwf | exact Hs].
    + unfold is_active_root.
      destruct (bool_decide_reflect (x ∈ activeRoots s)) as [Hin|_];
        [|exact Hstay].
      apply root_completed_served; assumption.
    + unfold is_active_root.
      destruct (bool_decide_reflect (x ∈ activeRoots s)) as [Hin|_];
        [|exact Hstay].
      apply root_completed_served; assumption.
    + destruct (find_read id (activeReads s)) as [ei|] eqn:Hf;
        [|exact Hstay].
      destruct r as [pack|].
      * apply find_read_id in Hf.
        exact (read_completed_served id
                 (with_keyed (onPack f (keyed s) ei pack) s) Hwf Hf Hs).
      * split.
        -- exists [], (rootBuffer s). simpl. rewrite Nat.add_0_r.
           repeat split; auto; try congruence;
             match goal with H : Errored ≠ Errored |- _ => destruct H end;
             reflexivity.
        -- exists [], (readBuffer s). simpl. rewrite Nat.add_0_r, app_nil_r.
           repeat split; auto; try congruence;
             match goal with H : Errored ≠ Errored |- _ => destruct H end;
             reflexivity.
    + apply Hsame.
  - destruct e as [x ei|x|x|id r|]; unfold accepts; simpl; rewrite Hs;
      try exact Hstay. apply Hsame.
  - destruct e as [x ei|x|x|id r|]; unfold accepts; simpl; rewrite Hs;
      try exact Hstay. apply Hsame.
Qed.

Lemma roots_served_trans s s1 o1 s2 o2 :
  roots_served config s (s1, o1) -> roots_served config s1 (s2, o2) ->
  roots_served config s (s2, o1 ++ o2).
Proof.
  intros (n1 & w1 & A1 & A2 & A3 & A4 & A5) (n2 & w2 & B1 & B2 & B3 & B4 & B5).
  simpl in *.
  assert (Hd : status s1 = Errored ∨ status s1 ≠ Errored)
    by (destruct (status s1); [right|right|left]; congruence).
  destruct Hd as [He|Hne].
  - assert (Hn : status s1 ≠ Running) by (rewrite He; discriminate).
    destruct (B4 Hn) as [-> B6]. exists n1, w1. simpl.
    rewrite started_app, A2, B2, B3, A3. unfold opened at 2. simpl.
    rewrite app_nil_r, Nat.add_0_r. repeat split; auto.
    + apply A4; assumption.
    + destruct (A4 H) as [_ E]. congruence.
    + exfalso. apply H. congruence.
    + exfalso. apply H. congruence.
  - destruct (A5 Hne) as [A6 A7]. subst w1.
    exists (n1 ++ n2), w2. simpl.
    rewrite started_app, A2, B2, B3, A3, A1, B1, opened_app, length_app.
    rewrite <- app_assoc. repeat split; auto; try lia.
    + destruct (A4 H) as [-> E]. simpl. apply B4. congruence.
    + destruct (A4 H) as [_ E]. rewrite <- E. apply B4. congruence.
    + apply B5, H.
Qed.

Lemma reads_served_trans s a1 s1 o1 a2 s2 o2 :
  reads_served s a1 (s1, o1) -> reads_served s1 a2 (s2, o2) ->
  reads_served s (a1 ++ a2) (s2, o1 ++ o2).
Proof.
  intros (n1 & w1 & A1 & A2 & A3 & A4 & A5) (n2 & w2 & B1 & B2 & B3 & B4 & B5).
  simpl in *.
  assert (Hd : status s1 = Errored ∨ status s1 ≠ Errored)
    by (destruct (status s1); [right|right|left]; congruence).
  destruct Hd as [He|Hne].
  - assert (Hn : status s1 ≠ Running) by (rewrite He; discriminate).
    destruct (B4 Hn) as [-> B6]. exists n1, (w1 ++ a2). simpl.
    rewrite reads_started_app, A2, B2, B3, A3. unfold reads_of at 2. simpl.
    rewrite app_nil_r, Nat.add_0_r, !app_assoc, A1.
    repeat split; auto.
    + apply A4; assumption.
    + destruct (A4 H) as [_ E]. congruence.
    + exfalso. apply H. congruence.
    + exfalso. apply H. congruence.
  - destruct (A5 Hne) as [A6 A7]. subst w1.
    exists (n1 ++ n2), w2. simpl.
    rewrite reads_started_app, A2, B2, B3, A3, reads_of_app, length_app.
    rewrite !app_assoc, A1, <- !app_assoc, B1.
    repeat split; auto; try lia.
    + destruct (A4 H) as [-> E]. simpl. apply B4. congruence.
    + destruct (A4 H) as [_ E]. rewrite <- E. apply B4. congruence.
    + apply B5, H.
Qed.

Lemma scan_run_served es : ∀ s,
  scan_wf config s ->
  roots_served config s (scan_run f config s es)
  ∧ reads_served s (scan_accepted f config s es) (scan_run f config s es).
Proof.
  induction es as [|e es IH]; intros s Hwf.
  - simpl. split; [apply roots_served_same | apply reads_served_same]; auto.
  - destruct (scan_step_served s e Hwf) as [R1 D1].
    pose proof (scan_step_wf f config s e Hwf) as Hwf1.
    simpl. destruct (scan_step f config s e) as [s1 o1]. simpl in *.
    destruct (IH s1 Hwf1) as [R2 D2].
    destruct (scan_run f config s1 es) as [s2 o2].
    split; [eapply roots_served_trans | eapply reads_served_trans];
      eassumption.
Qed.

(** The candidates accepted during a run passed the filter on the parent
    path and were delivered by an event of the run. *)
Lemma scan_accepted_candidates es : ∀ s ei,
  ei ∈ scan_accepted f config s es ->
  keepCandidate ei = true ∧ delivered ei es.
Proof.
  induction es as [|e es IH]; intros s ei Hin; [inversion Hin|].
  simpl in Hin. apply elem_of_app in Hin as [Hin|Hin].
  - unfold accepts in Hin. destruct e as [x ei'| | | |];
      try (inversion Hin; fail).
    destruct (status s); try (inversion Hin; fail).
    destruct (is_active_root x s && negb (cancelled (k_rtenv (keyed s)))
              && keepCandidate ei') eqn:E; [|inversion Hin].
    apply list_elem_of_singleton in Hin. subst ei'.
    apply andb_true_iff in E as [_ E]. split; [exact E|].
    exists x. left.
  - destruct (IH _ _ Hin) as [H1 [x H2]]. split; [exact H1|].
    exists x. right. exact H2.
Qed.

Lemma offer_roots_served roots : ∀ s,
  roots_ok config 0 s ->
  let r := offer_roots config roots s in
  (∃ now waiting,
     rootBuffer s ++ roots = now ++ waiting
     ∧ started r.2 = opened config (nextStream s) now
     ∧ nextStream r.1 = (nextStream s + List.length now)%nat
     ∧ rootBuffer r.1 = waiting)
  ∧ reads_started r.2 = [].
Proof.
  induction roots as [|r roots IH]; intros s Hr; simpl.
  - split; [|reflexivity]. exists [], (rootBuffer s). simpl.
    rewrite app_nil_r, Nat.add_0_r. repeat split.
  - pose proof (offer_root_ok config r s (slots_weaken _ _ _ _ Hr)) as (Hr1 & _).
    unfold offer_root in *.
    destruct (Nat.ltb_spec (List.length (activeRoots s)) (concurrentOps config))
      as [Hlt|Hge].
    + assert (Hb : rootBuffer s = []).
      { destruct Hr as (_ & _ & _ & H4).
        destruct (rootBuffer s); [reflexivity|]. exfalso.
        specialize (H4 ltac:(discriminate)). lia. }
      pose proof (start_root_started r s) as Hst.
      assert (Hrd : reads_started (start_root config r s).2 = []).
      { unfold start_root. simpl. induction (replayed s); simpl; auto. }
      assert (Hnx : nextStream (start_root config r s).1 = S (nextStream s))
        by reflexivity.
      assert (Hbf : rootBuffer (start_root config r s).1 = rootBuffer s)
        by reflexivity.
      destruct (start_root config r s) as [s1 o1]. simpl in *.
      destruct (IH s1 Hr1) as [(n2 & w2 & B1 & B2 & B3 & B4) B5].
      destruct (offer_roots config roots s1) as [s2 o2]. simpl in *.
      split; [|rewrite reads_started_app, Hrd, B5; reflexivity].
      exists (r :: n2), w2.
      rewrite started_app, Hst, B2, B3, Hnx.
      change (r :: n2) with ([r] ++ n2). rewrite opened_app, opened_one.
      rewrite Hbf, Hb in B1. simpl in B1. rewrite Hb, B1. simpl.
      rewrite Nat.add_1_r. repeat split; auto; lia.
    + simpl in *.
      match goal with |- context [offer_roots config roots ?t] =>
        destruct (IH t Hr1) as [(n2 & w2 & B1 & B2 & B3 & B4) B5];
        destruct (offer_roots config roots t) as [s2 o2] end.
      simpl in *. split; [|exact B5].
      exists n2, w2. rewrite <- app_assoc in B1. simpl in B1.
      repeat split; auto.
Qed.

Lemma subscribe_served rt n roots :
  let r := findPackagesGrouped config rt n roots in
  (∃ now waiting,
     roots = now ++ waiting
     ∧ started r.2 = opened config 0 now
     ∧ nextStream r.1 = List.length now
     ∧ rootBuffer r.1 = waiting)
  ∧ reads_started r.2 = [] ∧ readBuffer r.1 = [] ∧ nextRead r.1 = 0%nat
  ∧ status r.1 ≠ Errored.
Proof.
  unfold findPackagesGrouped.
  assert (H0 : roots_ok config 0 (scan_init rt n)) by apply slots_clear.
  destruct (offer_roots_ok config roots _ H0) as (_ & _ & C2 & C3 & C4 & _).
  destruct (offer_roots_served roots _ H0)
    as [(now & w & B1 & B2 & B3 & B4) B5].
  destruct (offer_roots config roots (scan_init rt n)) as [s1 o1].
  simpl in *.
  assert (Hplain :
    (∃ now waiting, roots = now ++ waiting
       ∧ started o1 = opened config 0 now
       ∧ nextStream s1 = List.length now ∧ rootBuffer s1 = waiting)
    ∧ reads_started o1 = [] ∧ readBuffer s1 = [] ∧ nextRead s1 = 0%nat
    ∧ status s1 ≠ Errored).
  { split; [exists now, w; auto|]. repeat split; auto.
    rewrite C4. discriminate. }
  destruct (activeRoots s1); [destruct (rootBuffer s1) eqn:Eb|];
    try (simpl; rewrite ?Eb; exact Hplain).
  destruct (walk_completed_fields s1) as (E1 & E2 & E3 & E4 & E5 & E6 & E7).
  destruct (walk_completed s1) as [s2 o2]. simpl in *.
  split; [exists now, w|].
  - rewrite started_app, E6, app_nil_r, E1, E2. repeat split; congruence.
  - rewrite reads_started_app, B5, E7, E3, E4. repeat split; auto.
    destruct E5 as [E5|E5]; rewrite E5; [rewrite C4|]; discriminate.
Qed.

End QueueFacts.

(** X5. The roots are walked in the order they were given: the streams a
    scan has opened so far are on a prefix of [rootDirs], one stream per
    root, numbered in order, each with the [depth] option set only when
    [config.treeDepth] is not zero; the roots still waiting are the rest of
    [rootDirs], unless the scan has failed. *)
Theorem X5_roots_walked_in_order
    (f : Z -> json -> json -> string) (config : Config) (rt : RtEnv)
    (already_cancelled : nat) (rootDirs : list string) (es : list Event) :
  let r := scan f config rt already_cancelled rootDirs es in
  ∃ now waiting,
    rootDirs = now ++ waiting
    ∧ started r.2 = opened config 0 now
    ∧ (status r.1 ≠ Errored -> rootBuffer r.1 = waiting).
Proof.
  intros r. unfold r, scan.
  pose proof (findPackagesGrouped_wf config rt already_cancelled rootDirs) as Hwf.
  destruct (subscribe_served config rt already_cancelled rootDirs)
    as [(n0 & w0 & A1 & A2 & A3 & A4) _].
  destruct (findPackagesGrouped config rt already_cancelled rootDirs)
    as [s0 o0]. simpl in *.
  destruct (scan_run_served f config es s0 Hwf)
    as [(n1 & w1 & B1 & B2 & B3 & B4 & B5) _].
  destruct (scan_run f config s0 es) as [s1 o1]. simpl in *.
  exists (n0 ++ n1), w1.
  rewrite A1, <- A4, B1, started_app, A2, B2, A3, opened_app, app_assoc.
  repeat split; auto; apply B5; assumption.
Qed.

(** X6. The manifest reads are started in the order the candidates were
    accepted: the reads a scan has started so far are those of a prefix of
    the accepted candidates, one read per candidate, numbered in order, on
    the full path of the candidate; the candidates still waiting are the rest,
    unless the scan has failed.  An accepted candidate was delivered by an
    event of the run and passed the filter on the parent path. *)
Theorem X6_reads_started_in_order
    (f : Z -> json -> json -> string) (config : Config) (rt : RtEnv)
    (already_cancelled : nat) (rootDirs : list string) (es : list Event) :
  let s0 := (findPackagesGrouped config rt already_cancelled rootDirs).1 in
  let r := scan f config rt already_cancelled rootDirs es in
  let accepted := scan_accepted f config s0 es in
  (∃ now waiting,
     accepted = now ++ waiting
     ∧ reads_started r.2 = reads_of 0 now
     ∧ (status r.1 ≠ Errored -> readBuffer r.1 = waiting))
  ∧ (∀ ei, ei ∈ accepted -> keepCandidate ei = true ∧ delivered ei es).
Proof.
  intros s0 r accepted. split; [|apply scan_accepted_candidates].
  unfold accepted, r, s0, scan.
  pose proof (findPackagesGrouped_wf config rt already_cancelled rootDirs) as Hwf.
  destruct (subscribe_served config rt already_cancelled rootDirs)
    as (_ & A1 & A2 & A3 & A4).
  destruct (findPackagesGrouped config rt already_cancelled rootDirs)
    as [s1 o0]. simpl in *.
  destruct (scan_run_served f config es s1 Hwf)
    as [_ (n1 & w1 & B1 & B2 & B3 & B4 & B5)].
  destruct (scan_run f config s1 es) as [s2 o1]. simpl in *.
  exists n1, w1. rewrite A2 in B1. simpl in B1.
  rewrite reads_started_app, A1, B2, A3. simpl.
  repeat split; auto; apply B5; assumption.
Qed.

(** ** What a scan hands over, and when it cannot start *)

Section HandOverFacts.

Variable f : Z -> json -> json -> string.
Variable config : Config.

Lemma emitted_app o1 o2 : emitted (o1 ++ o2) = emitted o1 ++ emitted o2.
Proof. unfold emitted. apply flat_map_app. Qed.

Lemma emitted_effects (o : list Output) :
  Forall (fun x => is_effect x = true) o -> emitted o = [].
Proof.
  induction 1 as [|x o Hx _ IH]; [reflexivity|].
  destruct x; try discriminate; exact IH.
Qed.

Lemma emitted_destroys (o : list Output) :
  Forall (fun x => is_destroy x = true) o -> emitted o = [].
Proof.
  induction 1 as [|x o Hx _ IH]; [reflexivity|].
  destruct x; try discriminate; exact IH.
Qed.

Lemma emitted_groups (gs : list Group) : emitted (map Emit gs) = gs.
Proof. induction gs as [|g gs IH]; [reflexivity|]. simpl. f_equal. exact IH. Qed.

(** The groups of a scan are the grouping of the manifests that arrived. *)
Lemma scan_groups rt n roots es :
  groups (k_grouper (keyed (scan f config rt n roots es).1))
  = groupedOutput f rt
      (scan_arrivals f config (findPackagesGrouped config rt n roots).1 es).
Proof.
  unfold scan.
  destruct (subscribe_lands config rt n roots) as [(L1 & L2 & _) Hl].
  destruct (findPackagesGrouped config rt n roots) as [s0 o0]. simpl in *.
  destruct (scan_run_link f config es s0 Hl) as (I1 & _).
  destruct (scan_run f config s0 es) as [s1 o1]. simpl in *.
  rewrite I1. unfold groupedOutput.
  destruct (status s0) eqn:Hst.
  - rewrite (onPacks_grouper_congr f _ (keyed s0) (keyed_init rt) (L2 eq_refl)).
    reflexivity.
  - rewrite scan_arrivals_ended by (rewrite Hst; discriminate). exact L1.
  - rewrite scan_arrivals_ended by (rewrite Hst; discriminate). exact L1.
Qed.

Lemma stalled_step s e :
  concurrentOps config = 0%nat -> stalled s ->
  stalled (scan_step f config s e).1 ∧ (scan_step f config s e).2 = [].
Proof.
  intros Hc (Hs & Ha & Hd & Hx & Hb). unfold stalled.
  destruct e as [x ei|x|x|id r|]; simpl; rewrite ?Hs;
    unfold is_active_root; rewrite ?Ha, ?Hd, ?Hx; simpl; repeat split; auto.
Qed.

Lemma stalled_run es : ∀ s,
  concurrentOps config = 0%nat -> stalled s ->
  stalled (scan_run f config s es).1 ∧ (scan_run f config s es).2 = [].
Proof.
  induction es as [|e es IH]; intros s Hc Hst; simpl; [auto|].
  destruct (stalled_step s e Hc Hst) as [H1 H2].
  destruct (scan_step f config s e) as [s1 o1]. simpl in *.
  destruct (IH s1 Hc H1) as [H3 H4].
  destruct (scan_run f config s1 es) as [s2 o2]. simpl in *.
  subst. auto.
Qed.

Lemma offer_roots_stalled roots : ∀ s,
  concurrentOps config = 0%nat ->
  let r := offer_roots config roots s in
  status r.1 = status s ∧ activeRoots r.1 = activeRoots s
  ∧ activeReads r.1 = activeReads s ∧ destroyers r.1 = destroyers s
  ∧ rootBuffer r.1 = rootBuffer s ++ roots ∧ r.2 = [].
Proof.
  induction roots as [|r roots IH]; intros s Hc; simpl.
  - rewrite app_nil_r. repeat split.
  - unfold offer_root. rewrite Hc. simpl.
    match goal with |- context [offer_roots config roots ?t] =>
      destruct (IH t Hc) as (A1 & A2 & A3 & A4 & A5 & A6);
      destruct (offer_roots config roots t) as [s2 o2] end.
    simpl in *. rewrite <- app_assoc in A5. repeat split; assumption.
Qed.

End HandOverFacts.

(** X7. What a scan hands to its subscriber is, when it has completed,
    exactly the grouping of the manifests that arrived during it, group by
    group in the order of the first arrival of each key; a scan that is
    still running or that has failed has handed over nothing. *)
Theorem X7_completed_scan_hands_over_the_grouping
    (f : Z -> json -> json -> string) (config : Config) (rt : RtEnv)
    (already_cancelled : nat) (rootDirs : list string) (es : list Event) :
  let s0 := (findPackagesGrouped config rt already_cancelled rootDirs).1 in
  let r := scan f config rt already_cancelled rootDirs es in
  emitted r.2
  = match status r.1 with
    | Completed => groupedOutput f rt (scan_arrivals f config s0 es)
    | _ => []
    end.
Proof.
  intros s0 r.
  pose proof (scan_groups f config rt already_cancelled rootDirs es) as Hg.
  destruct (scan_sound f config rt already_cancelled rootDirs es)
    as (_ & (pre & post & Hpre & Hpost & Hm) & _).
  fold r in Hg, Hm. fold s0 in Hg.
  apply emitted_effects in Hpre. apply emitted_destroys in Hpost.
  destruct (status r.1).
  - destruct Hm as [-> _]. exact Hpre.
  - rewrite Hm, !emitted_app, Hpre, Hpost, emitted_groups, <- Hg. simpl.
    rewrite app_nil_r. reflexivity.
  - rewrite Hm, !emitted_app, Hpre, Hpost. reflexivity.
Qed.

(** X8. With a concurrency limit of zero and at least one root, nothing
    ever starts: whatever events arrive, the scan opens no stream, starts
    no read, sends nothing to its subscriber and stays running. *)
Theorem X8_zero_concurrency_never_starts
    (f : Z -> json -> json -> string) (config : Config) (rt : RtEnv)
    (already_cancelled : nat) (rootDirs : list string) (es : list Event) :
  concurrentOps config = 0%nat -> rootDirs ≠ [] ->
  let r := scan f config rt already_cancelled rootDirs es in
  status r.1 = Running ∧ r.2 = [].
Proof.
  intros Hc Hne r. unfold r, scan, findPackagesGrouped.
  destruct (offer_roots_stalled config rootDirs (scan_init rt already_cancelled) Hc)
    as (A1 & A2 & A3 & A4 & A5 & A6).
  destruct (offer_roots config rootDirs (scan_init rt already_cancelled))
    as [s1 o1]. simpl in *.
  assert (Hst : stalled s1).
  { unfold stalled. rewrite A1, A2, A3, A4, A5. repeat split. exact Hne. }
  rewrite A2, A5. destruct rootDirs as [|d ds]; [contradiction|].
  destruct (stalled_run f config es s1 Hc Hst) as [(B1 & _) B2].
  destruct (scan_run f config s1 es) as [s2 o2]. simpl in *.
  subst. split; [exact B1 | reflexivity].
Qed.

Lemma X8_witness :
  let r := scan formatDevNameVersion_model config0 rt0 0 ["/r"]
             [FsEnd 0; Cancel] in
  status r.1 = Running ∧ r.2 = [].
Proof.
  apply (X8_zero_concurrency_never_starts formatDevNameVersion_model config0
           rt0 0 ["/r"] [FsEnd 0; Cancel]); [reflexivity | discriminate].
Defined.

(** ** The descent filter inside a node_modules tree *)

Section DescentFacts.

Lemma basename_scan_name Xr R b acc :
  Xr ≠ [] -> Forall (fun c => is_sep c = false) Xr ->
  Path.basename_scan (Xr ++ "/"%char :: R) b acc = rev Xr ++ acc.
Proof.
  intros Hne HX.
  assert (Hgen : ∀ l a, Forall (fun c => is_sep c = false) l ->
            Path.basename_scan (l ++ "/"%char :: R) false a = rev l ++ a).
  { induction l as [|c l IH]; intros a Hl; [reflexivity|].
    apply Forall_cons in Hl as [Hc Hl]. simpl.
    assert (Hs : Path.is_slash c = false).
    { destruct (Path.is_slash c) eqn:E; [|reflexivity].
      apply is_sep_slash in E. congruence. }
    rewrite Hs, IH by exact Hl. rewrite <- app_assoc. reflexivity. }
  destruct Xr as [|c Xr]; [contradiction|].
  apply Forall_cons in HX as [Hc HX]. simpl.
  assert (Hs : Path.is_slash c = false).
  { destruct (Path.is_slash c) eqn:E; [|reflexivity].
    apply is_sep_slash in E. congruence. }
  rewrite Hs, Hgen by exact HX. rewrite <- app_assoc. reflexivity.
Qed.

Lemma basename_abs_path pre x :
  valid_name x = true -> Path.basename (abs_path (pre ++ [x])) = x.
Proof.
  intros Hx. apply valid_name_inv in Hx as [Hne HX]. unfold Path.basename.
  pose proof (abs_path_snoc pre x) as E. unfold chars in *. rewrite E.
  rewrite rev_app_distr. simpl. rewrite <- app_assoc. simpl.
  rewrite basename_scan_name.
  - rewrite rev_involutive, app_nil_r. apply string_of_list_ascii_of_string.
  - intros H. apply Hne. apply (f_equal (@rev ascii)) in H.
    rewrite rev_involutive in H. exact H.
  - apply Forall_rev. exact HX.
Qed.

Lemma join_segs_app l1 l2 :
  join_segs (l1 ++ l2) = join_segs l1 +:+ join_segs l2.
Proof.
  induction l1 as [|s l1 IH]; [reflexivity|].
  cbn [app join_segs]. rewrite IH, !append_assoc_str. reflexivity.
Qed.

Lemma includes_abs_path t segs :
  t ≠ "" -> t ∈ segs -> includes t (abs_path segs) = true.
Proof.
  intros Ht Hin. apply list_elem_of_split in Hin as (l1 & l2 & ->).
  assert (E : abs_path (l1 ++ t :: l2)
              = (join_segs l1 +:+ "/") +:+ t +:+ join_segs l2).
  { assert (E0 : abs_path (l1 ++ t :: l2) = join_segs (l1 ++ t :: l2))
      by (destruct l1; reflexivity).
    rewrite E0, join_segs_app. cbn [join_segs].
    rewrite append_assoc_str. reflexivity. }
  rewrite E. apply includes_infix, Ht.
Qed.

(** The filter where the parent lies in a node_modules tree. *)
Lemma filter_in_tree ei segs :
  fullParentDir ei = abs_path segs ->
  Forall (fun s => valid_name s = true) segs ->
  "node_modules" ∈ segs ->
  filterDirsNodeModPacks ei
  = negb (String.eqb (charAt0 (name ei)) ".")
    && (String.eqb (name ei) "node_modules"
        || bool_decide (last segs = Some "node_modules")).
Proof.
  intros Hp Hv Hin. unfold filterDirsNodeModPacks. rewrite Hp.
  rewrite includes_abs_path by (discriminate || exact Hin).
  destruct (String.eqb (charAt0 (name ei)) "."); [reflexivity|].
  destruct (String.eqb (name ei) "node_modules"); [reflexivity|]. simpl.
  destruct segs as [|x pre _] using rev_ind; [inversion Hin|].
  apply Forall_app in Hv as [_ Hx]. apply Forall_cons in Hx as [Hx _].
  rewrite basename_abs_path by exact Hx. rewrite last_snoc.
  destruct (String.eqb_spec x "node_modules") as [->|Hne].
  - rewrite bool_decide_eq_true_2; reflexivity.
  - rewrite bool_decide_eq_false_2; [reflexivity|]. intros [= E].
    contradiction.
Qed.

End DescentFacts.

(** X9. Inside a node_modules tree, that is when the absolute, normalized
    parent path has a directory named node_modules on it, the walk enters a
    directory if and only if its name does not start with a dot and either
    it is named node_modules or its parent is: the directories right under
    a node_modules are entered, and below them only a nested node_modules
    is.  So the directory of a scoped package, node_modules/@scope/pkg, is
    not entered. *)
Theorem X9_descent_inside_node_modules
    (ei : EntryInfo) (segs : list string) :
  fullParentDir ei = abs_path segs ->
  Forall (fun s => valid_name s = true) segs ->
  "node_modules" ∈ segs ->
  (filterDirsNodeModPacks ei = true
   <-> charAt0 (name ei) ≠ "."
       ∧ (name ei = "node_modules" ∨ last segs = Some "node_modules")).
Proof.
  intros Hp Hv Hin. rewrite (filter_in_tree ei segs Hp Hv Hin).
  rewrite andb_true_iff, orb_true_iff, negb_true_iff, bool_decide_eq_true.
  rewrite String.eqb_eq, String.eqb_neq. reflexivity.
Qed.

Lemma X9_witness :
  filterDirsNodeModPacks (mkDir "pkg" "/r/node_modules/@scope") = true
  <-> charAt0 "pkg" ≠ "."
      ∧ ("pkg" = "node_modules"
         ∨ last ["r"; "node_modules"; "@scope"] = Some "node_modules").
Proof.
  apply (X9_descent_inside_node_modules (mkDir "pkg" "/r/node_modules/@scope")
           ["r"; "node_modules"; "@scope"]).
  - reflexivity.
  - repeat constructor.
  - right. left.
Defined.

(** ** Signals, the end of a run and what it prints *)

Section EndFacts.

Variable sortObjKeys : Store -> Store.
Variable argv : Argv.
Variable isTTY : bool.
Variable REFS_PATH : string.

Ltac cases :=
  repeat match goal with
         | |- context [if ?b then _ else _] => destruct b eqn:?
         | |- context [bool_decide ?P] => destruct (bool_decide P) eqn:?
         end; simpl in *; try congruence; try lia.

Ltac open_step c e :=
  destruct c as [rt h nx fs orig ca fi si st ex su];
  destruct e; unfold cli_step, finalTasks, cancel, finalTasks_body,
    cancel_body, isTermOut, count; simpl.

Lemma step_cancelled c e :
  cancel_inv c ->
  let r := cli_step sortObjKeys argv isTTY REFS_PATH c e in
  cancel_inv r.1
  ∧ cancel_called r.1 = cancel_called c || is_signal e
  ∧ count is_cancel_mark r.2
    = (if cancel_called c then 0 else if is_signal e then 1 else 0)%nat.
Proof.
  intros [I1 I2]. unfold cancel_inv in *.
  open_step c e; simpl in *;
    try (destruct ca; [|destruct (I2 eq_refl) as [-> ->]]);
    cases; repeat split; simpl; auto; try congruence;
    try (intros; discriminate); try (rewrite ?orb_true_r; reflexivity;
    fail); try (rewrite ?orb_false_r; reflexivity).
Qed.

Lemma run_cancelled es : ∀ c,
  cancel_inv c ->
  let r := cli_run sortObjKeys argv isTTY REFS_PATH c es in
  cancel_inv r.1
  ∧ cancel_called r.1 = cancel_called c || existsb is_signal es
  ∧ count is_cancel_mark r.2
    = (if cancel_called c then 0
       else if existsb is_signal es then 1 else 0)%nat.
Proof.
  induction es as [|e es IH]; intros c Hi; simpl.
  - rewrite orb_false_r. split; [exact Hi|]. split; [reflexivity|].
    destruct (cancel_called c); reflexivity.
  - destruct (step_cancelled c e Hi) as (A1 & A2 & A3).
    destruct (cli_step _ _ _ _ c e) as [c1 o1]. simpl in *.
    destruct (IH c1 A1) as (B1 & B2 & B3).
    destruct (cli_run _ _ _ _ c1 es) as [c2 o2]. simpl in *.
    split; [exact B1|]. split.
    + rewrite B2, A2, orb_assoc. reflexivity.
    + rewrite count_app, A3, B3, A2.
      destruct (cancel_called c), (is_signal e), (existsb is_signal es);
        reflexivity.
Qed.

Lemma step_not_final c e :
  is_final_trigger e = false ->
  let r := cli_step sortObjKeys argv isTTY REFS_PATH c e in
  c_fs r.1 = c_fs c ∧ count is_final_mark r.2 = 0%nat
  ∧ count is_write r.2 = 0%nat.
Proof. intros He. open_step c e; try discriminate; cases; auto. Qed.

Lemma run_not_final es : ∀ c,
  existsb is_final_trigger es = false ->
  let r := cli_run sortObjKeys argv isTTY REFS_PATH c es in
  c_fs r.1 = c_fs c ∧ count is_final_mark r.2 = 0%nat
  ∧ count is_write r.2 = 0%nat.
Proof.
  induction es as [|e es IH]; intros c He; simpl; [auto|].
  simpl in He. apply orb_false_iff in He as [He1 He2].
  destruct (step_not_final c e He1) as (A1 & A2 & A3).
  destruct (cli_step _ _ _ _ c e) as [c1 o1]. simpl in *.
  destruct (IH c1 He2) as (B1 & B2 & B3).
  destruct (cli_run _ _ _ _ c1 es) as [c2 o2]. simpl in *.
  rewrite !count_app, A2, A3, B2, B3. repeat split; congruence.
Qed.

Lemma step_exit_pending c e :
  finalTasks_called c = false -> on_EXIT c = true ->
  let r := cli_step sortObjKeys argv isTTY REFS_PATH c e in
  (count is_final_mark r.2 = 1%nat ∧ finalTasks_called r.1 = true)
  ∨ (count is_final_mark r.2 = 0%nat ∧ finalTasks_called r.1 = false
     ∧ on_EXIT r.1 = true ∧ e ≠ EXIT).
Proof.
  intros Hf Hx. open_step c e; simpl in *; subst; cases; auto;
    right; repeat split; auto; discriminate.
Qed.

Lemma run_exit es : ∀ c,
  finalTasks_called c = false -> on_EXIT c = true -> EXIT ∈ es ->
  count is_final_mark (cli_run sortObjKeys argv isTTY REFS_PATH c es).2
  = 1%nat.
Proof.
  induction es as [|e es IH]; intros c Hf Hx Hin; [inversion Hin|].
  simpl. destruct (step_exit_pending c e Hf Hx) as [[A1 A2]|(A1 & A2 & A3 & A4)].
  - pose proof (run_budgets sortObjKeys argv isTTY REFS_PATH es
                  (cli_step sortObjKeys argv isTTY REFS_PATH c e).1) as (B & _).
    destruct (cli_step _ _ _ _ c e) as [c1 o1]. simpl in *.
    destruct (cli_run _ _ _ _ c1 es) as [c2 o2]. simpl in *.
    rewrite count_app, A1. rewrite A2 in B. simpl in B. lia.
  - apply elem_of_cons in Hin as [Hin|Hin]; [congruence|].
    specialize (IH (cli_step sortObjKeys argv isTTY REFS_PATH c e).1 A2 A3 Hin).
    destruct (cli_step _ _ _ _ c e) as [c1 o1]. simpl in *.
    destruct (cli_run _ _ _ _ c1 es) as [c2 o2]. simpl in *.
    rewrite count_app, A1, IH. reflexivity.
Qed.

Lemma step_messages c e :
  let r := cli_step sortObjKeys argv isTTY REFS_PATH c e in
  count is_updated r.2 = count is_write r.2
  ∧ count is_would_save r.2
    = (if dryrun argv || gen_ln_cmds argv then count is_final_mark r.2
       else 0%nat)
  ∧ (count is_saved r.2
     <= (if dryrun argv || gen_ln_cmds argv then 0
         else count is_final_mark r.2))%nat
  ∧ (∀ n, Out (MsgSaved n) ∈ r.2 -> n ≠ 0).
Proof.
  open_step c e; cases; repeat split; auto; try lia;
    intros m Hm; apply list_elem_of_In in Hm; simpl in Hm;
    repeat match goal with H : _ ∨ _ |- _ => destruct H end;
    try contradiction; try discriminate;
    match goal with H : Out _ = Out _ |- _ => injection H as <- end;
    apply Z.eqb_neq; assumption.
Qed.

Lemma run_messages es : ∀ c,
  let r := cli_run sortObjKeys argv isTTY REFS_PATH c es in
  count is_updated r.2 = count is_write r.2
  ∧ count is_would_save r.2
    = (if dryrun argv || gen_ln_cmds argv then count is_final_mark r.2
       else 0%nat)
  ∧ (count is_saved r.2
     <= (if dryrun argv || gen_ln_cmds argv then 0
         else count is_final_mark r.2))%nat
  ∧ (∀ n, Out (MsgSaved n) ∈ r.2 -> n ≠ 0).
Proof.
  induction es as [|e es IH]; intros c; simpl.
  - unfold count. simpl. repeat split; auto.
    + destruct (_ || _); reflexivity.
    + destruct (_ || _); lia.
    + intros m H. inversion H.
  - destruct (step_messages c e) as (A1 & A2 & A3 & A4).
    destruct (cli_step _ _ _ _ c e) as [c1 o1]. simpl in *.
    destruct (IH c1) as (B1 & B2 & B3 & B4).
    destruct (cli_run _ _ _ _ c1 es) as [c2 o2]. simpl in *.
    rewrite !count_app, A1, A2, B1, B2. repeat split.
    + destruct (_ || _); reflexivity.
    + destruct (_ || _); lia.
    + intros m H. apply elem_of_app in H as [H|H]; [eapply A4 | eapply B4];
        exact H.
Qed.

Lemma step_same_object c e :
  is_reassign e = false ->
  existingShares (c_rtenv c) = origExistingShares c ->
  let r := cli_step sortObjKeys argv isTTY REFS_PATH c e in
  existingShares (c_rtenv r.1) = origExistingShares r.1
  ∧ c_fs r.1 = c_fs c ∧ count is_write r.2 = 0%nat.
Proof.
  intros He Hsame. open_step c e; simpl in *; try discriminate; subst;
    cases; auto;
    match goal with
    | H : bool_decide _ = true |- _ =>
        apply bool_decide_eq_true in H; contradiction
    end.
Qed.

Lemma run_same_object es : ∀ c,
  existsb is_reassign es = false ->
  existingShares (c_rtenv c) = origExistingShares c ->
  let r := cli_run sortObjKeys argv isTTY REFS_PATH c es in
  c_fs r.1 = c_fs c ∧ count is_write r.2 = 0%nat.
Proof.
  induction es as [|e es IH]; intros c He Hsame; simpl; [auto|].
  simpl in He. apply orb_false_iff in He as [He1 He2].
  destruct (step_same_object c e He1 Hsame) as (A1 & A2 & A3).
  destruct (cli_step _ _ _ _ c e) as [c1 o1]. simpl in *.
  destruct (IH c1 He2 A1) as (B1 & B2).
  destruct (cli_run _ _ _ _ c1 es) as [c2 o2]. simpl in *.
  rewrite count_app, A3, B2. split; [congruence | reflexivity].
Qed.

Lemma step_cursor c e :
  let r := cli_step sortObjKeys argv isTTY REFS_PATH c e in
  count is_hide r.2 = 0%nat
  ∧ count is_show r.2
    = (if isTermOut argv isTTY
       then count is_final_mark r.2 + count is_cancel_mark r.2
       else 0)%nat.
Proof. open_step c e; cases; auto. Qed.

Lemma run_cursor es : ∀ c,
  let r := cli_run sortObjKeys argv isTTY REFS_PATH c es in
  count is_hide r.2 = 0%nat
  ∧ count is_show r.2
    = (if isTermOut argv isTTY
       then count is_final_mark r.2 + count is_cancel_mark r.2
       else 0)%nat.
Proof.
  induction es as [|e es IH]; intros c; simpl.
  - unfold count. simpl. destruct (isTermOut argv isTTY); auto.
  - destruct (step_cursor c e) as (A1 & A2).
    destruct (cli_step _ _ _ _ c e) as [c1 o1]. simpl in *.
    destruct (IH c1) as (B1 & B2).
    destruct (cli_run _ _ _ _ c1 es) as [c2 o2]. simpl in *.
    rewrite !count_app, A1, A2, B1, B2.
    destruct (isTermOut argv isTTY); split; lia.
Qed.

(** What start-up prints does not count. *)
Lemma count_startup p path (b : bool) o :
  p (EnsureFile path) = false -> p HideCursor = false ->
  p (Out MsgBlank) = false ->
  count p (EnsureFile path
             :: ((if b then [HideCursor] else []) ++ [Out MsgBlank]) ++ o)
  = count p o.
Proof.
  intros H1 H2 H3. unfold count. destruct b; simpl; rewrite H1, ?H2, H3;
    reflexivity.
Qed.

End EndFacts.

(** X10. With [rtenv.cancelled] false in the defaults, a run is cancelled
    exactly when a SIGINT or a SIGTERM has reached the process: at the end
    of any sequence of events [rtenv.cancelled] is true if and only if one
    of the two signals is among them, and [cancelled$] has then been sent
    to exactly once. *)
Theorem X10_cancelled_iff_signalled
    (sortObjKeys : Store -> Store) (defaultRTEnv : RtEnv) (argv : Argv)
    (isTTY : bool) (REFS_PATH : string) (fs : gmap string Content)
    (es : list CliEvent) :
  cancelled defaultRTEnv = false ->
  let r := invocation sortObjKeys defaultRTEnv argv isTTY REFS_PATH fs es in
  cancelled (c_rtenv r.1) = existsb is_signal es
  ∧ count is_cancel_mark r.2 = (if existsb is_signal es then 1 else 0)%nat.
Proof.
  intros Hc r. unfold r, invocation, startup.
  match goal with |- context [cli_run _ _ _ _ ?c0 es] =>
    assert (Hi : cancel_inv c0) by (split; simpl; auto);
    destruct (run_cancelled sortObjKeys argv isTTY REFS_PATH es c0 Hi)
      as ([B0 _] & B1 & B2);
    destruct (cli_run sortObjKeys argv isTTY REFS_PATH c0 es) as [c1 o1]
  end.
  simpl in *. rewrite B0, B1. split; [reflexivity|].
  rewrite count_startup by reflexivity. exact B2.
Qed.

Lemma X10_witness :
  let r := invocation sortObjKeys_model rt0 argv_scan true refs_path ∅
             [SIGINT; SIGTERM] in
  cancelled (c_rtenv r.1) = true ∧ count is_cancel_mark r.2 = 1%nat.
Proof.
  apply (X10_cancelled_iff_signalled sortObjKeys_model rt0 argv_scan true
           refs_path ∅ [SIGINT; SIGTERM]).
  reflexivity.
Defined.

(** X11. The body of [finalTasks] runs only in reaction to the completion
    of the tasks or to the event 'EXIT': in a run that sees neither, for
    instance one whose tasks fail or one that is only signalled, nothing is
    saved and the file system stays as start-up left it.  And it does run,
    exactly once, in every run that sees 'EXIT'. *)
Theorem X11_final_tasks_need_completion_or_exit
    (sortObjKeys : Store -> Store) (defaultRTEnv : RtEnv) (argv : Argv)
    (isTTY : bool) (REFS_PATH : string) (fs : gmap string Content)
    (es : list CliEvent) :
  let r := invocation sortObjKeys defaultRTEnv argv isTTY REFS_PATH fs es in
  (existsb is_final_trigger es = false ->
   count is_final_mark r.2 = 0%nat ∧ count is_write r.2 = 0%nat
   ∧ c_fs r.1 = ensureFileSync REFS_PATH fs)
  ∧ (EXIT ∈ es -> count is_final_mark r.2 = 1%nat).
Proof.
  intros r. unfold r, invocation, startup. split.
  - intros He.
    match goal with |- context [cli_run _ _ _ _ ?c0 es] =>
      destruct (run_not_final sortObjKeys argv isTTY REFS_PATH es c0 He)
        as (B1 & B2 & B3);
      destruct (cli_run sortObjKeys argv isTTY REFS_PATH c0 es) as [c1 o1]
    end.
    simpl in *. rewrite !count_startup by reflexivity. auto.
  - intros Hin.
    match goal with |- context [cli_run _ _ _ _ ?c0 es] =>
      pose proof (run_exit sortObjKeys argv isTTY REFS_PATH es c0
                    eq_refl eq_refl Hin) as B;
      destruct (cli_run sortObjKeys argv isTTY REFS_PATH c0 es) as [c1 o1]
    end.
    simpl in *. rewrite count_startup by reflexivity. exact B.
Qed.

(** X12. What a run prints about the store: the notice that the file was
    updated is printed once for every write of the file and never without
    one; in dry-run or generate-commands mode every run of [finalTasks]
    prints the would-save line, also for zero bytes, and the saved line is
    never printed; otherwise the would-save line is never printed, and the
    saved line is printed at most once, by [finalTasks], and never for zero
    bytes. *)
Theorem X12_summary_lines
    (sortObjKeys : Store -> Store) (defaultRTEnv : RtEnv) (argv : Argv)
    (isTTY : bool) (REFS_PATH : string) (fs : gmap string Content)
    (es : list CliEvent) :
  let out := (invocation sortObjKeys defaultRTEnv argv isTTY REFS_PATH fs es).2 in
  count is_updated out = count is_write out
  ∧ count is_would_save out
    = (if dryrun argv || gen_ln_cmds argv then count is_final_mark out
       else 0%nat)
  ∧ (count is_saved out
     <= (if dryrun argv || gen_ln_cmds argv then 0
         else count is_final_mark out))%nat
  ∧ (∀ n, Out (MsgSaved n) ∈ out -> n ≠ 0).
Proof.
  intros out. unfold out, invocation, startup.
  match goal with |- context [cli_run _ _ _ _ ?c0 es] =>
    destruct (run_messages sortObjKeys argv isTTY REFS_PATH es c0)
      as (B1 & B2 & B3 & B4);
    destruct (cli_run sortObjKeys argv isTTY REFS_PATH c0 es) as [c1 o1]
  end.
  simpl in *.
  rewrite !count_startup by reflexivity. repeat split; auto.
  intros n Hn. apply (B4 n).
  apply elem_of_cons in Hn as [Hn|Hn]; [discriminate|].
  apply elem_of_app in Hn as [Hn|Hn]; [|exact Hn].
  apply elem_of_app in Hn as [Hn|Hn].
  - destruct (isTermOut argv isTTY); [|inversion Hn].
    apply list_elem_of_singleton in Hn. discriminate.
  - apply list_elem_of_singleton in Hn. discriminate.
Qed.

(** X13. What a run saves is what the next run loads: when [finalTasks]
    writes the store, a later start-up on the resulting file system, with
    whatever arguments, loads the store that was current, passed through
    [sortObjKeys], and leaves the file as it is. *)
Theorem X13_saved_store_is_loaded_next
    (sortObjKeys : Store -> Store) (argv : Argv) (isTTY : bool)
    (REFS_PATH : string) (c : Cli)
    (defaultRTEnv' : RtEnv) (argv' : Argv) (isTTY' : bool) :
  dryrun argv = false -> gen_ln_cmds argv = false ->
  existingShares (c_rtenv c) ≠ origExistingShares c ->
  let c1 := (finalTasks_body sortObjKeys argv isTTY REFS_PATH c).1 in
  let c2 := (startup defaultRTEnv' argv' isTTY' REFS_PATH (c_fs c1)).1 in
  shares_content c2 = sortObjKeys (shares_content c)
  ∧ c_fs c2 = c_fs c1.
Proof.
  intros Hd Hg Hne c1 c2. unfold c2, c1, finalTasks_body, startup.
  rewrite Hd, Hg, bool_decide_eq_true_2 by exact Hne. simpl.
  unfold ensureFileSync, readStore, shares_content. simpl.
  repeat (rewrite lookup_insert_eq; simpl).
  rewrite lookup_singleton_eq. simpl. split; reflexivity.
Qed.

Lemma X13_witness :
  let c1 := (finalTasks_body sortObjKeys_model argv_prune true refs_path
               cli_pruned).1 in
  let c2 := (startup rt0 argv_scan false refs_path (c_fs c1)).1 in
  shares_content c2 = sortObjKeys_model (shares_content cli_pruned)
  ∧ c_fs c2 = c_fs c1.
Proof.
  apply (X13_saved_store_is_loaded_next sortObjKeys_model argv_prune true
           refs_path cli_pruned rt0 argv_scan false).
  - reflexivity.
  - reflexivity.
  - vm_compute. discriminate.
Defined.

(** X14. A run in which [rtenv.existingShares] is never assigned, neither
    by the prune task nor by anything else, never writes the store file,
    whatever is done to the store object in place and whatever else
    happens: the file system stays as start-up left it. *)
Theorem X14_same_object_is_never_written
    (sortObjKeys : Store -> Store) (defaultRTEnv : RtEnv) (argv : Argv)
    (isTTY : bool) (REFS_PATH : string) (fs : gmap string Content)
    (es : list CliEvent) :
  existsb is_reassign es = false ->
  let r := invocation sortObjKeys defaultRTEnv argv isTTY REFS_PATH fs es in
  count is_write r.2 = 0%nat ∧ c_fs r.1 = ensureFileSync REFS_PATH fs.
Proof.
  intros He r. unfold r, invocation, startup.
  match goal with |- context [cli_run _ _ _ _ ?c0 es] =>
    destruct (run_same_object sortObjKeys argv isTTY REFS_PATH es c0 He
                eq_refl) as (B1 & B2);
    destruct (cli_run sortObjKeys argv isTTY REFS_PATH c0 es) as [c1 o1]
  end.
  simpl in *. rewrite count_startup by reflexivity. auto.
Qed.

Lemma X14_witness :
  let r := invocation sortObjKeys_model rt0 argv_scan true refs_path
             {[ refs_path := Json store0 ]}
             [EnvStore 0%nat store1; EnvSaved 10; TasksComplete] in
  count is_write r.2 = 0%nat
  ∧ c_fs r.1 = ensureFileSync refs_path {[ refs_path := Json store0 ]}.
Proof.
  apply (X14_same_object_is_never_written sortObjKeys_model rt0 argv_scan true
           refs_path {[ refs_path := Json store0 ]}
           [EnvStore 0%nat store1; EnvSaved 10; TasksComplete]).
  reflexivity.
Defined.

(** X21. The terminal cursor: when the output is not a terminal the cursor
    is neither hidden nor shown; in a terminal it is hidden once, at
    start-up, and shown again once by every run of the body of [cancel] and
    of [finalTasks], and by nothing else, so that it stays hidden in a run
    that ends without either, such as one whose tasks fail. *)
Theorem X21_cursor_hidden_and_shown
    (sortObjKeys : Store -> Store) (defaultRTEnv : RtEnv) (argv : Argv)
    (isTTY : bool) (REFS_PATH : string) (fs : gmap string Content)
    (es : list CliEvent) :
  let out := (invocation sortObjKeys defaultRTEnv argv isTTY REFS_PATH fs es).2 in
  count is_hide out = (if isTermOut argv isTTY then 1 else 0)%nat
  ∧ count is_show out
    = (if isTermOut argv isTTY
       then count is_final_mark out + count is_cancel_mark out
       else 0)%nat.
Proof.
  intros out. unfold out, invocation, startup.
  match goal with |- context [cli_run _ _ _ _ ?c0 es] =>
    destruct (run_cursor sortObjKeys argv isTTY REFS_PATH es c0) as (B1 & B2);
    destruct (cli_run sortObjKeys argv isTTY REFS_PATH c0 es) as [c1 o1]
  end.
  simpl in *. rewrite !(count_startup is_show), !(count_startup is_final_mark),
    !(count_startup is_cancel_mark) by reflexivity.
  split; [|exact B2].
  change (EnsureFile REFS_PATH
            :: ((if isTermOut argv isTTY then [HideCursor] else [])
                  ++ [Out MsgBlank]) ++ o1)
    with ([EnsureFile REFS_PATH]
            ++ ((if isTermOut argv isTTY then [HideCursor] else [])
                  ++ [Out MsgBlank]) ++ o1).
  rewrite !count_app, B1. destruct (isTermOut argv isTTY); reflexivity.
Qed.

(** ** The single-line logger *)

Section LoggerFacts.

Variable isTermOut : bool.

Lemma shown_app x o1 o2 : shown x (o1 ++ o2) = (shown x o1 + shown x o2)%nat.
Proof. unfold shown. rewrite List.filter_app, length_app. reflexivity. Qed.

(** A message that distinct() has seen, or that comes after the
    subscriber was completed, is not shown; another one at most once. *)
Lemma logger_step_shown x s e :
  x ≠ "" ->
  let r := logger_step isTermOut s e in
  (shown x r.2
   + (if bool_decide (x ∈ seen r.1) || negb (live r.1) then 0 else 1)
   <= (if bool_decide (x ∈ seen s) || negb (live s) then 0 else 1))%nat.
Proof.
  intros Hx. destruct s as [sn th lv].
  destruct e as [y| | | |]; simpl.
  - destruct lv, isTermOut; simpl; try lia;
      try (destruct (bool_decide (x ∈ sn)); simpl; lia).
    destruct (bool_decide_reflect (y ∈ sn)) as [Hy|Hy]; simpl;
      [destruct (bool_decide (x ∈ sn)); simpl; lia|].
    destruct (String.eqb_spec x y) as [->|Hne].
    + rewrite (bool_decide_eq_false_2 _ Hy).
      rewrite bool_decide_eq_true_2
        by (apply elem_of_union; left; apply elem_of_singleton; reflexivity).
      simpl. destruct th; unfold shown; simpl; rewrite ?String.eqb_refl; simpl; lia.
    + assert (E : bool_decide (x ∈ {[y]} ∪ sn) = bool_decide (x ∈ sn))
        by (apply bool_decide_ext; rewrite elem_of_union, elem_of_singleton;
            intuition congruence).
      rewrite E. destruct th; unfold shown; simpl;
        [|apply String.eqb_neq in Hne; rewrite Hne]; simpl; lia.
  - destruct isTermOut; unfold shown; simpl; [|lia].
    apply String.eqb_neq in Hx. rewrite Hx. simpl. lia.
  - lia.
  - destruct lv; simpl; [|lia]. unfold shown. simpl.
    apply String.eqb_neq in Hx. rewrite Hx. simpl.
    rewrite orb_true_r. lia.
  - destruct lv; simpl; [|lia]. unfold shown. simpl.
    apply String.eqb_neq in Hx. rewrite Hx. simpl.
    rewrite orb_true_r. lia.
Qed.

Lemma logger_run_shown x es : ∀ s,
  x ≠ "" ->
  (shown x (logger_run isTermOut s es).2
   <= (if bool_decide (x ∈ seen s) || negb (live s) then 0 else 1))%nat.
Proof.
  induction es as [|e es IH]; intros s Hx; simpl.
  - unfold shown. simpl. lia.
  - pose proof (logger_step_shown x s e Hx) as H1.
    destruct (logger_step isTermOut s e) as [s1 o1]. simpl in *.
    specialize (IH s1 Hx).
    destruct (logger_run isTermOut s1 es) as [s2 o2]. simpl in *.
    rewrite shown_app. lia.
Qed.

(** Once the subscriber is completed, only [log.clear] writes. *)
Lemma logger_run_over es : ∀ s,
  live s = false -> existsb is_log_clear es = false ->
  (logger_run isTermOut s es).2 = [].
Proof.
  induction es as [|e es IH]; intros s Hl Hc; [reflexivity|].
  simpl in Hc. apply orb_false_iff in Hc as [Hc1 Hc2]. simpl.
  assert (H1 : live (logger_step isTermOut s e).1 = false
               ∧ (logger_step isTermOut s e).2 = []).
  { destruct e; try discriminate; simpl; rewrite Hl; simpl; auto. }
  destruct H1 as [H1 H2].
  destruct (logger_step isTermOut s e) as [s1 o1]. simpl in *.
  specialize (IH s1 H1 Hc2).
  destruct (logger_run isTermOut s1 es) as [s2 o2]. simpl in *.
  subst. reflexivity.
Qed.

(** Not in a terminal: nothing but the [complete] handler writes. *)
Lemma logger_run_no_terminal es : ∀ s,
  let out := (logger_run false s es).2 in
  out = [] ∨ (live s = true ∧ out = log_complete).
Proof.
  induction es as [|e es IH]; intros s; simpl; [left; reflexivity|].
  destruct e as [y| | | |]; simpl.
  - rewrite andb_false_r. specialize (IH s).
    destruct (logger_run false s es) as [s2 o2]. exact IH.
  - specialize (IH s). destruct (logger_run false s es) as [s2 o2]. exact IH.
  - specialize (IH {| seen := seen s; throttled := false; live := live s |}).
    destruct (logger_run false _ es) as [s2 o2]. exact IH.
  - destruct (live s) eqn:Hl.
    + pose proof (IH {| seen := seen s; throttled := throttled s;
                        live := false |}) as H.
      destruct (logger_run false _ es) as [s2 o2]. simpl in *.
      destruct H as [->|[H _]]; [|discriminate]. right. split; reflexivity.
    + specialize (IH s). destruct (logger_run false s es) as [s2 o2].
      simpl in *. destruct IH as [->|[H _]]; [left; reflexivity|congruence].
  - destruct (live s) eqn:Hl.
    + pose proof (IH {| seen := seen s; throttled := throttled s;
                        live := false |}) as H.
      destruct (logger_run false _ es) as [s2 o2]. simpl in *.
      destruct H as [->|[H _]]; [|discriminate]. right. split; reflexivity.
    + specialize (IH s). destruct (logger_run false s es) as [s2 o2].
      simpl in *. destruct IH as [->|[H _]]; [left; reflexivity|congruence].
Qed.

End LoggerFacts.

(** X15. When the output is not a terminal, nothing that is logged is ever
    shown; all that reaches [singleLineLog] in a run is, at most once, the
    empty line and the clearing of the [complete] handler, which is not
    guarded by [isTermOut]. *)
Theorem X15_no_terminal_no_log_line (s : Logger) (es : list LogEvent) :
  let out := (logger_run false s es).2 in
  out = [] ∨ (live s = true ∧ out = log_complete).
Proof. apply logger_run_no_terminal. Qed.

(** X16. No message is shown twice: whatever is logged and however often,
    every message other than the empty one reaches [singleLineLog] at most
    once in a run, because [distinct()] keeps every value it has let
    through for the whole run. *)
Theorem X16_message_shown_at_most_once
    (isTermOut : bool) (x : string) (es : list LogEvent) :
  x ≠ "" ->
  (shown x (logger_run isTermOut logger_init es).2 <= 1)%nat.
Proof.
  intros Hx. pose proof (logger_run_shown isTermOut x es logger_init Hx) as H.
  simpl in H. destruct (bool_decide _) in H; simpl in H; lia.
Qed.

Lemma X16_witness :
  (shown "scanning a"
     (logger_run true logger_init
        [LogCall "scanning a"; ThrottleOver; LogCall "scanning b";
         ThrottleOver; LogCall "scanning a"]).2 <= 1)%nat.
Proof.
  apply (X16_message_shown_at_most_once true "scanning a"
           [LogCall "scanning a"; ThrottleOver; LogCall "scanning b";
            ThrottleOver; LogCall "scanning a"]).
  discriminate.
Defined.

(** X17. A message that arrives while the timer of [throttleTime] runs is
    lost for good: it is not shown then, and since [distinct()] has
    recorded it before the throttle dropped it, it is not shown later
    either, however often it is logged again. *)
Theorem X17_throttled_message_is_lost
    (isTermOut : bool) (s : Logger) (x : string) (es : list LogEvent) :
  throttled s = true -> x ≠ "" ->
  let r := logger_step isTermOut s (LogCall x) in
  r.2 = [] ∧ shown x (logger_run isTermOut r.1 es).2 = 0%nat.
Proof.
  intros Ht Hx r. unfold r. clear r. destruct isTermOut.
  - pose proof (logger_run_shown true x es
                  (logger_step true s (LogCall x)).1 Hx) as H.
    simpl in *. rewrite Ht in *. rewrite andb_true_r in *.
    destruct (live s) eqn:Hl; simpl in *;
      [|rewrite Hl, orb_true_r in H; split; [reflexivity | lia]].
    destruct (bool_decide_reflect (x ∈ seen s)) as [Hin|Hin]; simpl in *.
    + rewrite bool_decide_eq_true_2 in H by exact Hin. simpl in H.
      split; [reflexivity | lia].
    + rewrite bool_decide_eq_true_2 in H
        by (apply elem_of_union; left; apply elem_of_singleton; reflexivity).
      simpl in H. split; [reflexivity | lia].
  - simpl. rewrite andb_false_r. simpl. split; [reflexivity|].
    destruct (logger_run_no_terminal es s) as [->|[_ ->]]; [reflexivity|].
    unfold shown. simpl. apply String.eqb_neq in Hx. rewrite Hx. reflexivity.
Qed.

Lemma X17_witness :
  let s := (logger_step true logger_init (LogCall "scanning a")).1 in
  let r := logger_step true s (LogCall "scanning b") in
  r.2 = []
  ∧ shown "scanning b"
      (logger_run true r.1 [ThrottleOver; LogCall "scanning b"]).2 = 0%nat.
Proof.
  apply (X17_throttled_message_is_lost true
           (logger_step true logger_init (LogCall "scanning a")).1
           "scanning b" [ThrottleOver; LogCall "scanning b"]).
  - reflexivity.
  - discriminate.
Defined.

(** X18. After the cancellation or after [finalTasks] has completed the
    logger, nothing that is logged is shown any more: the only writes left
    are those of [log.clear]. *)
Theorem X18_nothing_logged_after_the_end
    (isTermOut : bool) (s : Logger) (e : LogEvent) (es : list LogEvent) :
  e = CancelledSent ∨ e = LogCompleted ->
  existsb is_log_clear es = false ->
  (logger_run isTermOut (logger_step isTermOut s e).1 es).2 = [].
Proof.
  intros He Hc. apply logger_run_over; [|exact Hc].
  destruct He as [-> | ->]; simpl; destruct (live s) eqn:Hl; simpl; auto.
Qed.

Lemma X18_witness :
  (logger_run true (logger_step true logger_init CancelledSent).1
     [LogCall "scanning a"; ThrottleOver; LogCompleted]).2 = [].
Proof.
  apply (X18_nothing_logged_after_the_end true logger_init CancelledSent
           [LogCall "scanning a"; ThrottleOver; LogCompleted]).
  - left. reflexivity.
  - reflexivity.
Defined.

(** ** The checks that come first, and the tasks *)

Section TaskFacts.

Lemma tasks_run_over es : ∀ s,
  t_live s = false -> tasks_run s es = (s, []).
Proof.
  induction es as [|e es IH]; intros s Hl; [reflexivity|].
  simpl. unfold tasks_step. rewrite Hl. rewrite (IH s Hl). reflexivity.
Qed.

(** From a task that is subscribed to: the next ones are subscribed to
    one per completion, until a failure or the end of the list. *)
Lemma tasks_run_live es : ∀ t rest,
  let r := tasks_run {| pending := t :: rest; t_live := true |} es in
  subscriptions r.2 = take (completions es) rest
  ∧ (CallFinalTasks ∈ r.2 <-> (List.length rest < completions es)%nat)
  ∧ (LogError ∈ r.2 -> CallFinalTasks ∉ r.2).
Proof.
  induction es as [|e es IH]; intros t rest; simpl.
  - split; [reflexivity|]. split; [|intros H; inversion H].
    split; [intros H; inversion H | lia].
  - destruct e; unfold tasks_step; simpl.
    + destruct rest as [|t' rest'].
      * rewrite tasks_run_over by reflexivity. simpl.
        split; [reflexivity|]. split.
        -- split; [intros _; lia | intros _; left].
        -- intros H. apply list_elem_of_singleton in H. discriminate.
      * destruct (IH t' rest') as (A1 & A2 & A3).
        destruct (tasks_run _ es) as [s2 o2]. simpl in *.
        split; [f_equal; exact A1|]. split.
        -- rewrite elem_of_cons, A2. split.
           ++ intros [H|H]; [discriminate | lia].
           ++ intros H. right. lia.
        -- intros H. apply elem_of_cons in H as [H|H]; [discriminate|].
           intros H'. apply elem_of_cons in H' as [H'|H']; [discriminate|].
           exact (A3 H H').
    + rewrite tasks_run_over by reflexivity. simpl.
      split; [reflexivity|]. split.
      * split; [|lia]. intros H. apply list_elem_of_singleton in H.
        discriminate.
      * intros _ H. apply list_elem_of_singleton in H. discriminate.
Qed.

End TaskFacts.

(** X19. The tasks run one after the other, the prune task first: the
    tasks subscribed to so far are the first of [arrTaskObs], one more than
    the completions seen before any failure; [finalTasks] is called by the
    subscriber if and only if there is a task and every task has completed
    before any failure; once a task has failed, no later task is subscribed
    to and the subscriber does not call [finalTasks]. *)
Theorem X19_tasks_run_serially (argv : Argv) (es : list TaskEvent) :
  let r := tasks argv es in
  subscriptions r.2 = take (S (completions es)) (arrTaskObs argv)
  ∧ (CallFinalTasks ∈ r.2
     <-> arrTaskObs argv ≠ []
         ∧ (List.length (arrTaskObs argv) <= completions es)%nat)
  ∧ (LogError ∈ r.2 -> CallFinalTasks ∉ r.2).
Proof.
  intros r. unfold r, tasks, tasks_start.
  destruct (arrTaskObs argv) as [|t rest].
  - rewrite tasks_run_over by reflexivity. simpl.
    split; [reflexivity|]. split; [|intros H; inversion H].
    split; [intros H; inversion H | intros [H _]; contradiction].
  - destruct (tasks_run_live es t rest) as (A1 & A2 & A3).
    destruct (tasks_run _ es) as [s1 o1]. simpl in *.
    split; [f_equal; exact A1|]. split.
    + rewrite elem_of_cons, A2. split.
      * intros [H|H]; [discriminate|]. split; [discriminate | lia].
      * intros [_ H]. right. lia.
    + intros H. apply elem_of_cons in H as [H|H]; [discriminate|].
      intros H'. apply elem_of_cons in H' as [H'|H']; [discriminate|].
      exact (A3 H H').
Qed.

(** X20. The program goes on to load the store only when the arguments and
    the configuration are valid, help is not asked for, and there is
    something to do, that is a task to run: the condition of the check
    before the store is loaded and the list of tasks built after it agree.
    So the tasks are always subscribed to, the first task being the prune
    task exactly when [argv.prune] is set. *)
Theorem X20_launch_implies_a_task (k : Checks) (argv : Argv) :
  (launch k argv = Proceeds
   <-> argvError k = false ∧ configIsError k = false ∧ configError k = false
       ∧ help k = false ∧ arrTaskObs argv ≠ [])
  ∧ (launch k argv = Proceeds ->
     (∀ defaultRTEnv isTTY REFS_PATH fs,
        subscribed (startup defaultRTEnv argv isTTY REFS_PATH fs).1 = true)
     ∧ t_live (tasks_start argv).1 = true
     ∧ (prune argv = true <-> (tasks_start argv).2 = [Subscribe TaskPrune])).
Proof.
  assert (Hiff : launch k argv = Proceeds
     <-> argvError k = false ∧ configIsError k = false ∧ configError k = false
         ∧ help k = false ∧ arrTaskObs argv ≠ []).
  { unfold launch, arrTaskObs.
    destruct (argvError k), (configIsError k), (configError k), (help k),
      (prune argv), (dirs argv); simpl; split;
      try discriminate; try (intros (? & ? & ? & ? & ?); congruence);
      intros _; repeat split; discriminate. }
  split; [exact Hiff|]. intros H. apply Hiff in H as (_ & _ & _ & _ & Hne).
  unfold arrTaskObs, tasks_start, arrTaskObs, startup in *. simpl.
  destruct (prune argv), (dirs argv); simpl in *; try contradiction;
    repeat split; auto; discriminate.
Qed.

(** ** What the groups hold *)

Section GroupFacts.

Variable f : Z -> json -> json -> string.
Variable config : Config.

Lemma read_completed_candidates id s :
  candidates_only s -> candidates_only (read_completed config id s).1.
Proof.
  intros [Ha Hb]. unfold read_completed. simpl.
  assert (Hrem : ∀ p, p ∈ remove_read id (activeReads s) ->
                      keepCandidate p.2 = true).
  { intros p Hp. unfold remove_read in Hp.
    apply list_elem_of_filter in Hp as [_ Hp]. apply Ha, Hp. }
  destruct (readBuffer s) as [|ei rest] eqn:Eb.
  - assert (Hnil : ∀ e : EntryInfo, e ∈ [] -> keepCandidate e = true)
      by (intros e He; inversion He).
    destruct (remove_read id (activeReads s)) as [|y l] eqn:Ea.
    + destruct (walkDone s).
      * match goal with |- candidates_only (finish ?t).1 =>
          destruct (finish_fields t) as (_ & _ & _ & E4 & E5 & _) end.
        unfold candidates_only. rewrite E4, E5. simpl. split; [|exact Hnil].
        intros p Hp. inversion Hp.
      * split; simpl; [intros p Hp; inversion Hp | exact Hnil].
    + split; simpl; [exact Hrem | exact Hnil].
  - assert (Hei : keepCandidate ei = true) by (apply Hb; left).
    assert (Hrest : ∀ e, e ∈ rest -> keepCandidate e = true)
      by (intros e He; apply Hb; right; exact He).
    unfold offer_read. simpl. destruct (Nat.ltb _ _); simpl.
    + split; simpl; [|exact Hrest]. intros p Hp.
      apply elem_of_app in Hp as [Hp|Hp]; [apply Hrem, Hp|].
      apply list_elem_of_singleton in Hp. subst p. exact Hei.
    + split; simpl; [exact Hrem|]. intros e He.
      apply elem_of_app in He as [He|He]; [apply Hrest, He|].
      apply list_elem_of_singleton in He. subst e. exact Hei.
Qed.

Lemma scan_step_candidates s e :
  candidates_only s ->
  candidates_only (scan_step f config s e).1
  ∧ (∀ a, arrival_of s e = Some a -> keepCandidate a.1 = true).
Proof.
  intros Hc. split.
  - assert (Hroot : ∀ x, candidates_only (root_completed config x s).1).
    { intros x. destruct (root_completed_walk_only config x s)
        as (E1 & E2 & _). unfold candidates_only. rewrite E1, E2. exact Hc. }
    destruct e as [x ei|x|x|id r|]; simpl; try exact Hc;
      destruct (status s); try exact Hc.
    + destruct (is_active_root x s); [|exact Hc].
      destruct (cancelled _); [apply Hroot|].
      destruct (keepCandidate ei) eqn:Hk; [|exact Hc].
      destruct Hc as [Ha Hb]. unfold offer_read.
      destruct (Nat.ltb _ _); split; simpl; auto.
      * intros p Hp. apply elem_of_app in Hp as [Hp|Hp]; [apply Ha, Hp|].
        apply list_elem_of_singleton in Hp. subst p. exact Hk.
      * intros e He. apply elem_of_app in He as [He|He]; [apply Hb, He|].
        apply list_elem_of_singleton in He. subst e. exact Hk.
    + destruct (is_active_root x s); [apply Hroot | exact Hc].
    + destruct (is_active_root x s); [apply Hroot | exact Hc].
    + destruct (find_read id (activeReads s)); [|exact Hc].
      destruct r as [pack|].
      * apply read_completed_candidates. exact Hc.
      * split; simpl; intros p Hp; inversion Hp.
  - intros [ei pack] Ha. unfold arrival_of in Ha.
    destruct e as [x ei'|x|x|id r|]; try discriminate.
    destruct r as [pack'|]; try discriminate.
    destruct (status s); try discriminate.
    destruct (find_read id (activeReads s)) as [ei0|] eqn:Hf;
      try discriminate.
    injection Ha as -> ->. apply find_read_elem in Hf.
    destruct Hc as [Hc _]. apply (Hc _ Hf).
Qed.

Lemma scan_arrivals_candidates es : ∀ s,
  candidates_only s ->
  ∀ a, a ∈ scan_arrivals f config s es -> keepCandidate a.1 = true.
Proof.
  induction es as [|e es IH]; intros s Hc a Ha; [inversion Ha|].
  destruct (scan_step_candidates s e Hc) as [H1 H2]. simpl in Ha.
  apply elem_of_app in Ha as [Ha|Ha].
  - destruct (arrival_of s e) as [a0|]; [|inversion Ha].
    apply list_elem_of_singleton in Ha. subst a0. apply H2. reflexivity.
  - apply (IH _ H1 a Ha).
Qed.

Lemma subscribe_candidates rt n roots :
  candidates_only (findPackagesGrouped config rt n roots).1.
Proof.
  unfold findPackagesGrouped.
  assert (H0 : roots_ok config 0 (scan_init rt n)) by apply slots_clear.
  destruct (offer_roots_ok config roots _ H0) as (_ & C1 & C2 & _).
  destruct (offer_roots config roots (scan_init rt n)) as [s1 o1].
  simpl in *.
  assert (Hc : candidates_only s1)
    by (split; [rewrite C1 | rewrite C2]; intros p Hp; inversion Hp).
  destruct (activeRoots s1); [destruct (rootBuffer s1)|]; try exact Hc.
  destruct (walk_completed_walk_only s1) as (E1 & E2 & _).
  destruct (walk_completed s1) as [s2 o2]. simpl in *.
  unfold candidates_only. rewrite E1, E2. exact Hc.
Qed.

End GroupFacts.

(** X22. What the groups of a scan hold, at any point: the keys are
    pairwise distinct and truthy, so no group is keyed by null or by the
    empty string; no group is empty; and every entry of a group is a
    candidate, a manifest whose parent's parent path ends in node_modules,
    since only those are read. *)
Theorem X22_groups_hold_keyed_candidates
    (f : Z -> json -> json -> string) (config : Config) (rt : RtEnv)
    (already_cancelled : nat) (rootDirs : list string) (es : list Event) :
  let gs := groups (k_grouper (keyed
              (scan f config rt already_cancelled rootDirs es).1)) in
  NoDup (map fst gs)
  ∧ (∀ k arr, (k, arr) ∈ gs ->
       truthy_key k = true ∧ arr ≠ []
       ∧ ∀ e, e ∈ arr -> keepCandidate e = true).
Proof.
  intros gs. unfold gs. rewrite scan_groups, groupedOutput_spec.
  set (arrivals := scan_arrivals f config
                     (findPackagesGrouped config rt already_cancelled rootDirs).1
                     es).
  pose proof (scan_arrivals_candidates f config es _
                (subscribe_candidates config rt already_cancelled rootDirs))
    as Hcand. fold arrivals in Hcand.
  destruct (groups_after_spec (passing f arrivals)) as (Hnd & Hkeys & Harr).
  split; [exact Hnd|]. intros k arr Hin.
  assert (Hk : k ∈ map fst (groups_after [] (passing f arrivals))).
  { apply list_elem_of_fmap. exists (k, arr). split; [reflexivity | exact Hin]. }
  apply Hkeys in Hk as (e0 & He0 & Hk0).
  rewrite (Harr k arr Hin). unfold entries_of. split; [|split].
  - unfold passing in He0. apply list_elem_of_filter in He0 as [Ht _].
    rewrite <- Hk0. exact Ht.
  - intros Hnil.
    assert (Hx : entryInfo e0
                 ∈ map entryInfo (filter (fun e => keyOf e = k) (passing f arrivals))).
    { apply list_elem_of_fmap. exists e0. split; [reflexivity|].
      apply list_elem_of_filter. split; assumption. }
    rewrite Hnil in Hx. inversion Hx.
  - intros e He. apply list_elem_of_fmap in He as (e1 & -> & He1).
    apply list_elem_of_filter in He1 as [_ He1]. unfold passing in He1.
    apply list_elem_of_filter in He1 as [_ He1].
    apply list_elem_of_fmap in He1 as ([ei pack] & -> & Ha).
    simpl. apply (Hcand _ Ha).
Qed.
